(** * A shallow embedding of [typescript/lisp.ts]

    The interpreter is embedded function by function: the token and
    s-expression model, [pretty], [append], the lexer, the parser, the
    evaluator with its builtin table, and the [main] driver.

    Conventions of the model.
    - A JavaScript value that may be [null] is a [SexpOrNull]; reading a
      property of [null] or [undefined] is the exception [TypeError].
      The declared tuple type of a Pair is not enforced at run time, so both
      components of a Pair are [SexpOrNull] here.
    - [throw new Error(msg)] is [Throw (Error msg)].
    - Program text is a [string]; every character outside ASCII is, like
      any other character the lexer has no rule for, an unknown token.
    - Loops and recursion whose termination is not structural take fuel. The
      lexer and the parser fix their own fuel from the input length and are
      shown never to exhaust it; the evaluator, which can diverge, keeps the
      fuel as an argument (the engine's stack limit is not modelled).
    - The table of builtins is an object literal, so indexing it also finds
      the properties every object inherits from [Object.prototype]; they are
      modelled as the language standard defines them. The file runs as
      strict code: in a plain call [fn(args, ctx)], [this] is [undefined].
    - JavaScript numbers are IEEE doubles. Every number the interpreter can
      build is integer valued, infinite or NaN, so a Number is an integer
      [Z] that is exactly representable, an infinity or NaN, and arithmetic
      rounds to the nearest double, ties to even. *)

From Stdlib Require Import ZArith Ascii String DecimalString Bool Lia.
From stdpp Require Import gmap strings list.

Local Open Scope string_scope.

(** ** Outcomes *)

Inductive Exn : Type :=
| Error (msg : string)
| TypeError.

(** [HostDefined]: the run continues in the JavaScript host in a way this
    model does not cover (the source text of a function used as a
    comparison key, a numeric string the lexer cannot produce). *)
Inductive Outcome (A : Type) : Type :=
| Ok (a : A)
| Throw (e : Exn)
| HostDefined
| OutOfFuel.

Arguments Ok {A} a.
Arguments Throw {A} e.
Arguments HostDefined {A}.
Arguments OutOfFuel {A}.

Definition obind {A B : Type} (m : Outcome A) (k : A → Outcome B) : Outcome B :=
  match m with
  | Ok a => k a
  | Throw e => Throw e
  | HostDefined => HostDefined
  | OutOfFuel => OutOfFuel
  end.

Notation "'let?' x ':=' m 'in' k" := (obind m (fun x => k))
  (at level 10, x name, m at level 100, k at level 200).

Notation "'let?' ( x , y ) ':=' m 'in' k" := (obind m (fun xy => let (x, y) := xy in k))
  (at level 10, x name, y name, m at level 100, k at level 200).

(** ** Tokens and s-expressions *)

Inductive TokenKind : Type := Integer | Identifier | Syntax.

Record Token : Type := mkToken { value : string; kind : TokenKind }.

Inductive Sexp : Type :=
| SexpAtom (atom : Token)
| SexpPair (pair0 pair1 : SexpOrNull)
with SexpOrNull : Type :=
| Null
| NotNull (sexp : Sexp).

Scheme Sexp_mut := Induction for Sexp Sort Prop
  with SexpOrNull_mut := Induction for SexpOrNull Sort Prop.

Definition makeSexpPair (pair0 pair1 : SexpOrNull) : Sexp := SexpPair pair0 pair1.
Definition makeSexpAtom (atom : Token) : Sexp := SexpAtom atom.

#[global] Instance TokenKind_eq_dec : EqDecision TokenKind.
Proof. solve_decision. Defined.

#[global] Instance Token_eq_dec : EqDecision Token.
Proof. solve_decision. Defined.

(** ** [pretty] *)

Fixpoint pretty (sexp : SexpOrNull) : Outcome string :=
  match sexp with
  | Null => Throw TypeError
  | NotNull (SexpAtom atom) => Ok (value atom)
  | NotNull (SexpPair pair0 Null) =>
      let? p0 := pretty pair0 in
      Ok ("(" ++ p0 ++ " . NIL)")
  | NotNull (SexpPair pair0 pair1) =>
      let? p0 := pretty pair0 in
      let? p1 := pretty pair1 in
      Ok ("(" ++ p0 ++ " . " ++ p1 ++ ")")
  end.

(** ** [append] *)

Fixpoint append (first second : SexpOrNull) : Outcome Sexp :=
  match first with
  | Null =>
      match second with
      | Null => Throw (Error "Expected second.")
      | NotNull _ => Ok (makeSexpPair second Null)
      end
  | NotNull (SexpAtom _) => Ok (makeSexpPair first second)
  | NotNull (SexpPair pair0 pair1) =>
      let? rest := append pair1 second in
      Ok (makeSexpPair pair0 (NotNull rest))
  end.

(** ** The lexer *)

(** Comparison of one-character strings is comparison of code units;
    [program[i]] past the end is [undefined], for which every comparison
    is false. *)
Definition between (lo hi c : ascii) : bool := Ascii.leb lo c && Ascii.leb c hi.

Definition is_digit (c : ascii) : bool := between "0" "9" c.

Definition is_letter (c : ascii) : bool := between "a" "z" c || between "A" "Z" c.

Definition is_operator_char (c : ascii) : bool :=
  Ascii.eqb c "+" || Ascii.eqb c "-" || Ascii.eqb c "*" || Ascii.eqb c "&" ||
  Ascii.eqb c "$" || Ascii.eqb c "%" || Ascii.eqb c "<" || Ascii.eqb c "=".

Definition is_whitespace (c : ascii) : bool :=
  Ascii.eqb c " " || Ascii.eqb c "010" || Ascii.eqb c "009" || Ascii.eqb c "013".

Definition is_paren (c : ascii) : bool := Ascii.eqb c ")" || Ascii.eqb c "(".

(** [program.substring(cursor, end)] and [program.slice(i)]. *)
Definition js_substring (program : string) (cursor end_ : nat) : string :=
  String.substring cursor (end_ - cursor) program.

Definition js_slice (program : string) (i : nat) : string :=
  String.substring i (String.length program - i) program.

Definition string_of_nat (n : nat) : string :=
  NilEmpty.string_of_uint (Nat.to_uint n).

(** The [while] loop of [lexInteger]: [end_] advances over digits. *)
Fixpoint lexInteger_loop (fuel : nat) (program : string) (end_ : nat) : nat :=
  match fuel with
  | O => end_
  | S fuel' =>
      match String.get end_ program with
      | Some c => if is_digit c then lexInteger_loop fuel' program (S end_) else end_
      | None => end_
      end
  end.

Definition lexInteger (program : string) (cursor : nat) : nat * Token :=
  let end_ := lexInteger_loop (String.length program - cursor) program cursor in
  (end_, mkToken (js_substring program cursor end_) Integer).

Definition identifier_char (cursor end_ : nat) (c : ascii) : bool :=
  is_letter c || is_operator_char c || (Nat.ltb cursor end_ && is_digit c).

Fixpoint lexIdentifier_loop (fuel : nat) (program : string) (cursor end_ : nat) : nat :=
  match fuel with
  | O => end_
  | S fuel' =>
      match String.get end_ program with
      | Some c =>
          if identifier_char cursor end_ c
          then lexIdentifier_loop fuel' program cursor (S end_)
          else end_
      | None => end_
      end
  end.

Definition lexIdentifier (program : string) (cursor : nat) : nat * Token :=
  let end_ := lexIdentifier_loop (String.length program - cursor) program cursor cursor in
  (end_, mkToken (js_substring program cursor end_) Identifier).

Definition lexers : list (string → nat → nat * Token) := [lexInteger; lexIdentifier].

(** The inner [for (let lexer of lexers)]: the first lexer that consumes
    something wins. *)
Fixpoint try_lexers (ls : list (string → nat → nat * Token)) (program : string) (i : nat)
  : option (nat * Token) :=
  match ls with
  | [] => None
  | lexer :: rest =>
      let '(newCursor, token) := lexer program i in
      if Nat.eqb newCursor i then try_lexers rest program i else Some (newCursor, token)
  end.

(** The [outer] loop of [lex], from index [i] with the tokens pushed so far. *)
Fixpoint lex_from (fuel : nat) (program : string) (i : nat) (tokens : list Token)
  : Outcome (list Token) :=
  match fuel with
  | O => OutOfFuel
  | S fuel' =>
      match String.get i program with
      | None => Ok tokens
      | Some c =>
          if is_whitespace c then lex_from fuel' program (S i) tokens
          else if is_paren c then
            lex_from fuel' program (S i) (tokens ++ [mkToken (String c EmptyString) Syntax])
          else
            match try_lexers lexers program i with
            | Some (newCursor, token) => lex_from fuel' program newCursor (tokens ++ [token])
            | None =>
                Throw (Error ("Unknown token near '" ++ js_slice program i ++
                              "' at index '" ++ string_of_nat i ++ "'"))
            end
      end
  end.

Definition lex (program : string) : Outcome (list Token) :=
  lex_from (S (String.length program)) program 0 [].

(** ** The parser *)

(** [parse] and the [for] loop in its body. [tokens[cursor]] past the end is
    [undefined]: reading its [value] is a [TypeError], and the loop test
    [cursor < tokens.length] fails exactly there. *)
Fixpoint parse_fuel (fuel : nat) (tokens : list Token) (cursor : nat)
  : Outcome (nat * SexpOrNull) :=
  match fuel with
  | O => OutOfFuel
  | S fuel' =>
      match tokens !! cursor with
      | None => Throw TypeError
      | Some t0 =>
          if String.eqb (value t0) "(" then parse_loop fuel' tokens (S cursor) Null
          else Throw (Error ("Expected opening parenthesis, got '" ++ value t0 ++ "'"))
      end
  end
with parse_loop (fuel : nat) (tokens : list Token) (cursor : nat) (siblings : SexpOrNull)
  : Outcome (nat * SexpOrNull) :=
  match fuel with
  | O => OutOfFuel
  | S fuel' =>
      match tokens !! cursor with
      | None => Ok (cursor, siblings)
      | Some t =>
          if String.eqb (value t) "(" then
            let? (newCursor, child) := parse_fuel fuel' tokens cursor in
            match child with
            | Null => Throw (Error "Expected child.")
            | NotNull _ =>
                let? siblings' := append siblings child in
                parse_loop fuel' tokens (S newCursor) (NotNull siblings')
            end
          else if String.eqb (value t) ")" then Ok (cursor, siblings)
          else
            let? siblings' := append siblings (NotNull (makeSexpAtom t)) in
            parse_loop fuel' tokens (S cursor) (NotNull siblings')
      end
  end.

Definition parse (tokens : list Token) (cursor : nat) : Outcome (nat * SexpOrNull) :=
  parse_fuel (2 * length tokens + 2) tokens cursor.

(** ** Numbers *)

Inductive Number : Type :=
| Finite (z : Z)
| PosInfinity
| NegInfinity
| NaN.

#[global] Instance Number_eq_dec : EqDecision Number.
Proof. solve_decision. Defined.

Local Open Scope Z_scope.

(** The double nearest to the integer [z], ties to even; magnitudes that
    round to [2^1024] or more overflow to an infinity. Below [2^53] every
    integer is a double. *)
Definition round_double (z : Z) : Number :=
  let a := Z.abs z in
  if a <? 2 ^ 53 then Finite z
  else
    let e := Z.log2 a - 52 in
    let q := a / 2 ^ e in
    let r := a mod 2 ^ e in
    let half := 2 ^ (e - 1) in
    let q' := if (half <? r) || ((r =? half) && Z.odd q) then q + 1 else q in
    let m := q' * 2 ^ e in
    if 2 ^ 1024 <=? m then (if 0 <? z then PosInfinity else NegInfinity)
    else Finite (Z.sgn z * m).

Definition is_double (z : Z) : Prop := round_double z = Finite z.

Definition num_neg (a : Number) : Number :=
  match a with
  | Finite x => Finite (- x)
  | PosInfinity => NegInfinity
  | NegInfinity => PosInfinity
  | NaN => NaN
  end.

(** [a + b] on doubles. *)
Definition num_add (a b : Number) : Number :=
  match a, b with
  | NaN, _ | _, NaN => NaN
  | PosInfinity, NegInfinity | NegInfinity, PosInfinity => NaN
  | PosInfinity, _ | _, PosInfinity => PosInfinity
  | NegInfinity, _ | _, NegInfinity => NegInfinity
  | Finite x, Finite y => round_double (x + y)
  end.

(** [a - b] on doubles. *)
Definition num_sub (a b : Number) : Number :=
  match a, b with
  | Finite x, Finite y => round_double (x - y)
  | _, _ => num_add a (num_neg b)
  end.

(** [a <= b] on doubles: false as soon as one side is NaN. *)
Definition num_le (a b : Number) : bool :=
  match a, b with
  | NaN, _ | _, NaN => false
  | NegInfinity, _ | _, PosInfinity => true
  | PosInfinity, _ | _, NegInfinity => false
  | Finite x, Finite y => x <=? y
  end.

Definition digit_value (c : ascii) : Z := Z.of_nat (nat_of_ascii c) - 48.

Fixpoint decimal_value (acc : Z) (s : string) : Z :=
  match s with
  | EmptyString => acc
  | String c s' => decimal_value (10 * acc + digit_value c) s'
  end.

Fixpoint all_digits (s : string) : bool :=
  match s with
  | EmptyString => true
  | String c s' => is_digit c && all_digits s'
  end.

Local Close Scope Z_scope.

(** Unary plus on a token text, [+ast.atom.value]. An Integer token made by
    the lexer is a non-empty run of decimal digits; its Number is the
    nearest double (the engine's exact conversion). Other texts are left to
    the host's numeric-string grammar. *)
Definition to_number (s : string) : Outcome Number :=
  match s with
  | EmptyString => HostDefined
  | String _ _ =>
      if all_digits s then Ok (round_double (decimal_value 0 s)) else HostDefined
  end.

(** ** Values, contexts and the store *)

Inductive Builtin : Type :=
| BLessEq | BIf | BDef | BLambda | BBegin | BPlus | BMinus.

#[global] Instance Builtin_eq_dec : EqDecision Builtin.
Proof. solve_decision. Defined.

(** A [Context] is a JavaScript [Map], a mutable object passed by
    reference: a [CtxRef] is the index of the map in the [Store]. *)
Abbreviation CtxRef := nat.

(** The functions every object inherits from [Object.prototype]; the
    table of builtins, an object literal, inherits them too. *)
Inductive PrototypeFunction : Type :=
| IConstructor | IHasOwnProperty | IIsPrototypeOf | IPropertyIsEnumerable
| IToLocaleString | IToString | IValueOf
| IDefineGetter | IDefineSetter | ILookupGetter | ILookupSetter.

#[global] Instance PrototypeFunction_eq_dec : EqDecision PrototypeFunction.
Proof. solve_decision. Defined.

(** What [evalLisp] handles at run time. A builtin is an arrow function of
    the table built inside one [evalLisp] call and closes over that call's
    [ctx]; a lambda closes over its [params] and [body] only. [VUndefined]
    is what [Map.get] and indexing past the end of an array give. The last
    four are outside the declared [EvalReturnType] and come from the
    properties the table inherits: an inherited function, the string
    [Object.prototype.toString] returns, the argument list [Object]
    returns, and [Object.prototype] itself. *)
Inductive Value : Type :=
| VNumber (n : Number)
| VBoolean (b : bool)
| VUndefined
| VBuiltin (b : Builtin) (ctx : CtxRef)
| VLambda (params body : SexpOrNull)
| VInherited (f : PrototypeFunction)
| VString (s : string)
| VSexp (s : Sexp)
| VObjectPrototype.

Abbreviation Context := (gmap string Value).

Abbreviation Store := (list Context).

(** JavaScript truthiness, as in [if (value)] and [!fn]. *)
Definition truthy (v : Value) : bool :=
  match v with
  | VNumber (Finite z) => negb (Z.eqb z 0)
  | VNumber NaN => false
  | VNumber _ => true
  | VBoolean b => b
  | VUndefined => false
  | VBuiltin _ _ | VLambda _ _ | VInherited _ => true
  | VString s => negb (String.eqb s "")
  | VSexp _ | VObjectPrototype => true
  end.

(** [typeof v == "function"]. *)
Definition is_function (v : Value) : bool :=
  match v with
  | VBuiltin _ _ | VLambda _ _ | VInherited _ => true
  | _ => false
  end.

(** An operand of a relational comparison after [ToPrimitive]: a number
    (a boolean and [undefined] count as the number [ToNumber] makes of
    them), a string, or the source text of a function, which the engine
    chooses. A plain object becomes the string [Object.prototype.toString]
    makes of it. *)
Inductive Primitive : Type :=
| PNumber (n : Number)
| PString (s : string)
| PSource.

Definition to_primitive (v : Value) : Primitive :=
  match v with
  | VNumber n => PNumber n
  | VBoolean true => PNumber (Finite 1)
  | VBoolean false => PNumber (Finite 0)
  | VUndefined => PNumber NaN
  | VBuiltin _ _ | VLambda _ _ | VInherited _ => PSource
  | VString s => PString s
  | VSexp _ | VObjectPrototype => PString "[object Object]"
  end.

(** [ToNumber] of a string: no numeric literal starts with a bracket;
    other texts as for a token. *)
Definition string_to_number (s : string) : Outcome Number :=
  match s with
  | String "[" _ => Ok NaN
  | _ => to_number s
  end.

(** [ToNumber] of a primitive; the source text of a function is no numeric
    literal. *)
Definition primitive_to_number (p : Primitive) : Outcome Number :=
  match p with
  | PNumber n => Ok n
  | PString s => string_to_number s
  | PSource => Ok NaN
  end.

(** [x <= y] on the numbers of the two operands: false as soon as one of
    them is NaN, whatever the other is. *)
Definition num_le_converted (x y : Outcome Number) : Outcome bool :=
  match x, y with
  | Ok NaN, _ | _, Ok NaN => Ok false
  | Ok a, Ok b => Ok (num_le a b)
  | _, _ => HostDefined
  end.

(** [a <= b]. Two strings are compared as strings, by code units: [a <= b]
    is the negation of [b < a]. A comparison that needs the source text of
    a function is left to the engine. Every other pair is compared as
    numbers. *)
Definition js_le (a b : Value) : Outcome bool :=
  match to_primitive a, to_primitive b with
  | PString x, PString y => Ok (String.leb x y)
  | PSource, PSource | PSource, PString _ | PString _, PSource => HostDefined
  | pa, pb => num_le_converted (primitive_to_number pa) (primitive_to_number pb)
  end.

(** The computations of the evaluator: they read and write the store. *)
Definition Eval (A : Type) : Type := Store → Outcome (A * Store).

Definition ret {A : Type} (a : A) : Eval A := fun st => Ok (a, st).

Definition throw {A : Type} (e : Exn) : Eval A := fun _ => Throw e.

Definition lift {A : Type} (m : Outcome A) : Eval A :=
  fun st => let? a := m in Ok (a, st).

Definition ebind {A B : Type} (m : Eval A) (k : A → Eval B) : Eval B :=
  fun st => let? (a, st') := m st in k a st'.

Notation "'do' x '<-' m ';' k" := (ebind m (fun x => k))
  (at level 10, x name, m at level 100, k at level 200).

(** [ctx.get(name)], [ctx.set(name, v)] and [new Map(ctx)]. *)
Definition store_get (st : Store) (ctx : CtxRef) (name : string) : Value :=
  default VUndefined (st !! ctx ≫= fun m : Context => m !! name).

Definition ctx_get (ctx : CtxRef) (name : string) : Eval Value :=
  fun st => Ok (store_get st ctx name, st).

Definition ctx_set (ctx : CtxRef) (name : string) (v : Value) : Eval unit :=
  fun st => Ok (tt, alter (fun m : Context => <[name := v]> m) ctx st).

Definition ctx_copy (ctx : CtxRef) : Eval CtxRef :=
  fun st => Ok (length st, (st ++ [default (∅ : Context) (st !! ctx)])%list).

(** ** The builtin table *)

(** [builtins[key]]: the object literal has seven own properties and
    inherits those of [Object.prototype], all of them truthy: eleven
    functions and the accessor [__proto__], whose getter returns the
    prototype of the table, [Object.prototype]. *)
Inductive BuiltinsEntry : Type :=
| Own (b : Builtin)
| Inherited (v : Value)
| Missing.

Definition object_prototype_get (key : string) : option Value :=
  if String.eqb key "constructor" then Some (VInherited IConstructor)
  else if String.eqb key "hasOwnProperty" then Some (VInherited IHasOwnProperty)
  else if String.eqb key "isPrototypeOf" then Some (VInherited IIsPrototypeOf)
  else if String.eqb key "propertyIsEnumerable" then Some (VInherited IPropertyIsEnumerable)
  else if String.eqb key "toLocaleString" then Some (VInherited IToLocaleString)
  else if String.eqb key "toString" then Some (VInherited IToString)
  else if String.eqb key "valueOf" then Some (VInherited IValueOf)
  else if String.eqb key "__proto__" then Some VObjectPrototype
  else if String.eqb key "__defineGetter__" then Some (VInherited IDefineGetter)
  else if String.eqb key "__defineSetter__" then Some (VInherited IDefineSetter)
  else if String.eqb key "__lookupGetter__" then Some (VInherited ILookupGetter)
  else if String.eqb key "__lookupSetter__" then Some (VInherited ILookupSetter)
  else None.

Definition builtins_get (key : string) : BuiltinsEntry :=
  if String.eqb key "<=" then Own BLessEq
  else if String.eqb key "if" then Own BIf
  else if String.eqb key "def" then Own BDef
  else if String.eqb key "lambda" then Own BLambda
  else if String.eqb key "begin" then Own BBegin
  else if String.eqb key "+" then Own BPlus
  else if String.eqb key "-" then Own BMinus
  else
    match object_prototype_get key with
    | Some v => Inherited v
    | None => Missing
    end.

(** The end of [evalLisp] for an identifier the context does not resolve:
    the table is built over the current [ctx] and indexed by the name; what
    is found, own or inherited, is returned. *)
Definition lookup_builtin (key : string) (ctx : CtxRef) : Eval Value :=
  match builtins_get key with
  | Own b => ret (VBuiltin b ctx)
  | Inherited v => ret v
  | Missing => throw (Error ("Undefined value: " ++ key))
  end.

(** An inherited function called as [fn(args, ctx)]. The file runs as
    strict code, so [this] is [undefined] in the call. [toString] returns
    the tag of [undefined]; [Object] returns its first argument, the
    argument list, an object already; every other one converts [this] to an
    object first (or invokes a method of it) and throws a TypeError. None
    of them evaluates an argument or touches a context. *)
Definition call_inherited (f : PrototypeFunction) (args0 args1 : SexpOrNull) : Eval Value :=
  match f with
  | IToString => ret (VString "[object Undefined]")
  | IConstructor => ret (VSexp (SexpPair args0 args1))
  | IHasOwnProperty | IIsPrototypeOf | IPropertyIsEnumerable | IToLocaleString
  | IValueOf | IDefineGetter | IDefineSetter | ILookupGetter | ILookupSetter =>
      throw TypeError
  end.

(** ** The evaluator *)

Definition begin_atom : Sexp := makeSexpAtom (mkToken "begin" Identifier).

(** The loop of ["+"] over the evaluated arguments. *)
Fixpoint plus_loop (res : Number) (args : list Value) : Outcome Number :=
  match args with
  | [] => Ok res
  | VNumber n :: rest => plus_loop (num_add res n) rest
  | _ :: _ => Throw (Error "+ expects number arguments.")
  end.

(** The loop of ["-"] over [evalLispledArgs.slice(1)]. *)
Fixpoint minus_loop (res : Number) (rest : list Value) : Outcome Number :=
  match rest with
  | [] => Ok res
  | VNumber n :: rest' => minus_loop (num_sub res n) rest'
  | _ :: _ => Throw (Error "- expects number arguments.")
  end.

(** The parameter loop of a lambda call: [iter] walks [params], [i] counts
    the arguments, each name is set in the child context. *)
Fixpoint bind_params (iter : SexpOrNull) (i : nat) (evalLispledCallArgs : list Value)
    (childCallCtx : CtxRef) : Eval unit :=
  match iter with
  | Null => ret tt
  | NotNull (SexpPair (NotNull (SexpAtom a)) rest) =>
      do _ <- ctx_set childCallCtx (value a) (default VUndefined (evalLispledCallArgs !! i));
      bind_params rest (S i) evalLispledCallArgs childCallCtx
  | NotNull (SexpPair (NotNull (SexpPair _ _)) _) => throw (Error "Expected argument list.")
  | NotNull (SexpPair Null _) => throw TypeError
  | NotNull (SexpAtom _) => throw (Error "Expected argument list.")
  end.

Section Callables.

(** [evalLisp] itself, as seen from the functions it calls. *)
Variable evalLisp : SexpOrNull → CtxRef → Eval Value.

Fixpoint evalLispArgs (args : SexpOrNull) (ctx : CtxRef) : Eval (list Value) :=
  match args with
  | Null => ret []
  | NotNull (SexpAtom _) => throw (Error "Expected linked list.")
  | NotNull (SexpPair pair0 pair1) =>
      do v <- evalLisp pair0 ctx;
      do vs <- evalLispArgs pair1 ctx;
      ret (v :: vs)
  end.

(** The [while (current)] loop of ["begin"]. *)
Fixpoint begin_loop (res : Value) (current : SexpOrNull) (ctx : CtxRef) : Eval Value :=
  match current with
  | Null => ret res
  | NotNull (SexpAtom _) => throw (Error "Expected linked list.")
  | NotNull (SexpPair pair0 pair1) =>
      do res' <- evalLisp pair0 ctx;
      begin_loop res' pair1 ctx
  end.

(** A builtin of the table of the [evalLisp] call whose context is [ctx],
    applied to [args = SexpPair args0 args1]. The second argument of the
    call, the caller's context, is ignored by every builtin. *)
Definition call_builtin (b : Builtin) (ctx : CtxRef) (args0 args1 : SexpOrNull)
  : Eval Value :=
  match b with
  | BLessEq =>
      do evalLispledArgs <- evalLispArgs (NotNull (SexpPair args0 args1)) ctx;
      do r <- lift (js_le (default VUndefined (evalLispledArgs !! 0))
                          (default VUndefined (evalLispledArgs !! 1)));
      ret (VBoolean r)
  | BIf =>
      match args1 with
      | NotNull (SexpPair then_ args11) =>
          match args11 with
          | NotNull (SexpPair else_ _) =>
              do test <- evalLisp args0 ctx;
              if truthy test then evalLisp then_ ctx else evalLisp else_ ctx
          | _ => throw (Error "Expected a false-branch")
          end
      | _ => throw (Error "Expected a true-branch")
      end
  | BDef =>
      match args0 with
      | NotNull (SexpAtom name) =>
          match args1 with
          | NotNull (SexpPair body _) =>
              do evalLispledArg <- evalLisp body ctx;
              do _ <- ctx_set ctx (value name) evalLispledArg;
              ret evalLispledArg
          | _ => throw (Error "Expected a function body.")
          end
      | _ => throw (Error "Expected a function name.")
      end
  | BLambda => ret (VLambda args0 args1)
  | BBegin =>
      do res <- evalLisp args0 ctx;
      begin_loop res args1 ctx
  | BPlus =>
      do evalLispledArgs <- evalLispArgs (NotNull (SexpPair args0 args1)) ctx;
      do res <- lift (plus_loop (Finite 0) evalLispledArgs);
      ret (VNumber res)
  | BMinus =>
      do evalLispledArgs <- evalLispArgs (NotNull (SexpPair args0 args1)) ctx;
      match default VUndefined (evalLispledArgs !! 0) with
      | VNumber res =>
          do res' <- lift (minus_loop res (drop 1 evalLispledArgs));
          ret (VNumber res')
      | _ => throw (Error "- expects number arguments.")
      end
  end.

(** The function returned by ["lambda"], applied to
    [callArgs = SexpPair callArgs0 callArgs1] and [callCtx]. *)
Definition call_lambda (params body : SexpOrNull) (callArgs0 callArgs1 : SexpOrNull)
    (callCtx : CtxRef) : Eval Value :=
  do evalLispledCallArgs <- evalLispArgs (NotNull (SexpPair callArgs0 callArgs1)) callCtx;
  do childCallCtx <- ctx_copy callCtx;
  do _ <- bind_params params 0 evalLispledCallArgs childCallCtx;
  do begin <- lift (append (NotNull begin_atom) body);
  evalLisp (NotNull begin) childCallCtx.

(** [fn(args, ctx)] for a value that passed the [typeof] test. *)
Definition call (fn : Value) (args0 args1 : SexpOrNull) (callCtx : CtxRef) : Eval Value :=
  match fn with
  | VBuiltin b ctx => call_builtin b ctx args0 args1
  | VLambda params body => call_lambda params body args0 args1 callCtx
  | VInherited f => call_inherited f args0 args1
  | _ => throw TypeError
  end.

End Callables.

Fixpoint evalLisp (fuel : nat) (ast : SexpOrNull) (ctx : CtxRef) : Eval Value :=
  match fuel with
  | O => fun _ => OutOfFuel
  | S fuel' =>
      match ast with
      | Null => throw TypeError
      | NotNull (SexpPair pair0 pair1) =>
          do fn <- evalLisp fuel' pair0 ctx;
          if negb (truthy fn) then
            do p <- lift (pretty pair0);
            throw (Error ("Unknown function: " ++ p))
          else if negb (is_function fn) then
            do p <- lift (pretty pair0);
            throw (Error ("Not a function: " ++ p))
          else
            match pair1 with
            | NotNull (SexpPair args0 args1) => call (evalLisp fuel') fn args0 args1 ctx
            | NotNull (SexpAtom _) =>
                do p <- lift (pretty pair1);
                throw (Error ("Not a linked list: " ++ p))
            | Null => throw (Error "Not a linked list: null")
            end
      | NotNull (SexpAtom atom) =>
          match kind atom with
          | Integer =>
              do n <- lift (to_number (value atom));
              ret (VNumber n)
          | _ =>
              do v <- ctx_get ctx (value atom);
              if truthy v then ret v else lookup_builtin (value atom) ctx
          end
      end
  end.

(** ** The driver *)

(** The [while (cursor !== tokens.length - 1)] loop of [main]. *)
Fixpoint main_loop (fuel : nat) (tokens : list Token) (cursor : nat) (begin : Sexp)
  : Outcome Sexp :=
  if Nat.eqb (S cursor) (length tokens) then Ok begin
  else
    match fuel with
    | O => OutOfFuel
    | S fuel' =>
        let? (cursor', child) := parse tokens (cursor + 1) in
        let? begin' := append (NotNull begin) child in
        main_loop fuel' tokens cursor' begin'
    end.

(** Everything [main] does before it calls [evalLisp]: the implicit
    [begin] form holding every top-level form. *)
Definition main_forms (program : string) : Outcome Sexp :=
  let? tokens := lex program in
  let? begin := append (NotNull begin_atom) Null in
  let? (cursor, child) := parse tokens 0 in
  let? begin' := append (NotNull begin) child in
  main_loop (length tokens) tokens cursor begin'.

(** [main] up to [console.log]: the value printed. The root context is
    the only map of the initial store. *)
Definition main (fuel : nat) (program : string) : Outcome Value :=
  let? begin := main_forms program in
  let? (result, _) := evalLisp fuel (NotNull begin) 0 [∅] in
  Ok result.

(** ** Auxiliary notions used in the statements *)

(** [s] followed by one more character. *)
Definition snoc (s : string) (c : ascii) : string := s ++ String c "".

(** Character classes of the lexer, and the lexemes of each token kind as
    the data model describes them. *)
Definition lexable (c : ascii) : bool :=
  is_whitespace c || is_paren c || is_digit c || is_letter c || is_operator_char c.

Definition is_identifier_start (c : ascii) : bool := is_letter c || is_operator_char c.

Definition is_identifier_part (c : ascii) : bool :=
  is_letter c || is_operator_char c || is_digit c.

Fixpoint string_forallb (p : ascii → bool) (s : string) : bool :=
  match s with
  | EmptyString => true
  | String c s' => p c && string_forallb p s'
  end.

Fixpoint string_existsb (p : ascii → bool) (s : string) : bool :=
  match s with
  | EmptyString => false
  | String c s' => p c || string_existsb p s'
  end.

Definition integer_lexeme (s : string) : bool :=
  negb (String.eqb s "") && string_forallb is_digit s.

Definition identifier_lexeme (s : string) : bool :=
  match s with
  | EmptyString => false
  | String c s' => is_identifier_start c && string_forallb is_identifier_part s'
  end.

Definition syntax_lexeme (s : string) : bool := String.eqb s "(" || String.eqb s ")".

Definition valid_token (t : Token) : bool :=
  match kind t with
  | Integer => integer_lexeme (value t)
  | Identifier => identifier_lexeme (value t)
  | Syntax => syntax_lexeme (value t)
  end.

Definition whitespace_run (s : string) : bool := string_forallb is_whitespace s.

(** Lexemes written one after the other, each followed by its separator. *)
Fixpoint join (items : list (Token * string)) : string :=
  match items with
  | [] => ""
  | (t, sep) :: rest => value t ++ sep ++ join rest
  end.

(** Every lexeme is valid for its kind and every separator is a run of
    whitespace, empty at most after the last lexeme. *)
Fixpoint well_separated (items : list (Token * string)) : bool :=
  match items with
  | [] => true
  | (t, sep) :: rest =>
      valid_token t && whitespace_run sep &&
      (negb (String.eqb sep "") || match rest with [] => true | _ => false end) &&
      well_separated rest
  end.

(** The text after a lexeme is empty or starts with a character outside
    the class [p]. *)
Definition stops (p : ascii → bool) (rest : string) : bool :=
  match rest with
  | EmptyString => true
  | String c _ => negb (p c)
  end.

(** The invariant of the data model: in every Pair node the first
    component is present. *)
Fixpoint pair_invariant (s : Sexp) : bool :=
  match s with
  | SexpAtom _ => true
  | SexpPair pair0 pair1 =>
      match pair0 with Null => false | NotNull _ => true end &&
      pair_invariant_or_null pair0 && pair_invariant_or_null pair1
  end
with pair_invariant_or_null (s : SexpOrNull) : bool :=
  match s with
  | Null => true
  | NotNull s' => pair_invariant s'
  end.

(** Reading the tokens that follow an opening parenthesis, [depth] forms
    deeper than it: the offset of the parenthesis that closes it, if the
    tokens hold one. *)
Fixpoint close_index (depth : nat) (ts : list Token) : option nat :=
  match ts with
  | [] => None
  | t :: ts' =>
      if String.eqb (value t) "(" then S <$> close_index (S depth) ts'
      else if String.eqb (value t) ")" then
        match depth with
        | O => Some O
        | S depth' => S <$> close_index depth' ts'
        end
      else S <$> close_index depth ts'
  end.

(** No opening parenthesis is directly followed by a closing one or by
    the end of the tokens. *)
Fixpoint no_empty_form (ts : list Token) : bool :=
  match ts with
  | [] => true
  | t :: ts' =>
      (if String.eqb (value t) "("
       then match ts' with
            | [] => false
            | t' :: _ => negb (String.eqb (value t') ")")
            end
       else true) && no_empty_form ts'
  end.

(** What the loop of [parse] returns when no nested form is empty: the
    cursor is on the parenthesis that closes the form, or at or past the end
    of the tokens when there is none; the list is absent only if nothing was
    collected. *)
Definition loop_returns (tokens : list Token) (cursor : nat) (siblings : SexpOrNull)
    (r : Outcome (nat * SexpOrNull)) : Prop :=
  ∃ c s, r = Ok (c, s) ∧
    match close_index 0 (drop cursor tokens) with
    | Some k => c = (cursor + k)%nat
    | None => (length tokens ≤ c)%nat
    end ∧
    (s = Null → siblings = Null ∧
       match drop cursor tokens with
       | [] => True
       | t :: _ => value t = ")"
       end).

(** The call form [(head arg ...)], whose head is the identifier [head]
    and whose argument list is [args]. *)
Definition call_form (head : string) (args : SexpOrNull) : SexpOrNull :=
  NotNull (SexpPair (NotNull (SexpAtom (mkToken head Identifier))) args).



(** The Number sum of the ["+"] loop: JavaScript addition, left to right,
    from 0. *)
Definition sum_numbers (ns : list Number) : Number := fold_left num_add ns (Finite 0).

(** Every partial sum of [zs] from [acc] is an integer below [2^53] in
    magnitude, where double arithmetic is exact. *)
Fixpoint partial_sums_safe (acc : Z) (zs : list Z) : Prop :=
  match zs with
  | [] => True
  | z :: zs' => (Z.abs (acc + z) < 2 ^ 53)%Z ∧ partial_sums_safe (acc + z) zs'
  end.

(** A Number of the model that is a double. *)
Definition number_is_double (n : Number) : Prop :=
  match n with
  | Finite z => is_double z
  | _ => True
  end.

(** [v] is a builtin whose table was built over the context [p]. *)
Definition refers (p : CtxRef) (v : Value) : bool :=
  match v with
  | VBuiltin _ ctx => Nat.eqb ctx p
  | _ => false
  end.

(** Some context of the store binds a name to a builtin over [p]. *)
Definition store_refers (p : CtxRef) (st : Store) : Prop :=
  ∃ (c : CtxRef) (m : Context) (name : string) (v : Value),
    st !! c = Some m ∧ m !! name = Some v ∧ refers p v = true.

(** [p] is a context of the store that no stored builtin has captured. *)
Definition unaliased (p : CtxRef) (st : Store) : Prop :=
  (p < length st)%nat ∧ ¬ store_refers p st.

(** A computation leaves the context [p] as it is, keeps it unaliased and
    returns a result that satisfies [ok]. *)
Definition frame_result {A : Type} (p : CtxRef) (st : Store) (ok : A → Prop)
    (r : Outcome (A * Store)) : Prop :=
  match r with
  | Ok (a, st') => st' !! p = st !! p ∧ unaliased p st' ∧ ok a
  | _ => True
  end.

(** An evaluator run under another context than [p] does so. *)
Definition frames (p : CtxRef) (ev : SexpOrNull → CtxRef → Eval Value) : Prop :=
  ∀ (ast : SexpOrNull) (ctx : CtxRef) (st : Store),
    ctx ≠ p → unaliased p st →
    frame_result p st (fun v => refers p v = false) (ev ast ctx st).

(** [r'] is what [r] is, unless [r] ran out of fuel. *)
Definition outcome_le {A : Type} (r r' : Outcome A) : Prop := r = OutOfFuel ∨ r = r'.

Definition evaluator_le (ev ev' : SexpOrNull → CtxRef → Eval Value) : Prop :=
  ∀ (ast : SexpOrNull) (ctx : CtxRef) (st : Store), outcome_le (ev ast ctx st) (ev' ast ctx st).

(** [typeof v === 'number']. *)
Definition is_number (v : Value) : bool :=
  match v with
  | VNumber _ => true
  | _ => false
  end.

(** What [parse] returns is a list or nothing, never a bare atom. *)
Definition pair_or_null (s : SexpOrNull) : Prop :=
  match s with
  | Null => True
  | NotNull (SexpAtom _) => False
  | NotNull (SexpPair _ _) => True
  end.

(** The round trip through the printer: parse the first form of a program,
    print it with [pretty], then lex and parse the printed text. *)
Definition print_and_reparse (program : string) : Outcome (nat * SexpOrNull) :=
  let? tokens := lex program in
  let? (_, sexp) := parse tokens 0 in
  let? text := pretty sexp in
  let? tokens' := lex text in
  parse tokens' 0.

(** ** Proof automation *)

(** Case analysis over the 256 characters. *)
Ltac ascii_cases c :=
  destruct c as [[] [] [] [] [] [] [] []]; vm_compute; try reflexivity;
  try discriminate; try tauto.

(** Two outcomes built with different constructors differ. *)
Ltac differ := let H := fresh in intro H; discriminate H.

(** ** Further notions used in the statements *)

(** The index of the first character of [s] that no rule of the lexer
    accepts. *)
Fixpoint find_unlexable (s : string) : option nat :=
  match s with
  | EmptyString => None
  | String c s' => if lexable c then S <$> find_unlexable s' else Some O
  end.

(** The text of the error [lex] throws at index [i]. *)
Definition unknown_token (program : string) (i : nat) : Exn :=
  Error ("Unknown token near '" ++ js_slice program i ++ "' at index '" ++
         string_of_nat i ++ "'").

(** [s] without its whitespace characters. *)
Fixpoint strip_whitespace (s : string) : string :=
  match s with
  | EmptyString => EmptyString
  | String c s' =>
      if is_whitespace c then strip_whitespace s' else String c (strip_whitespace s')
  end.

(** The texts of the tokens, one after the other. *)
Fixpoint concat_values (tokens : list Token) : string :=
  match tokens with
  | [] => ""
  | t :: rest => value t ++ concat_values rest
  end.

(** The proper list of the given elements: a chain of Pairs ended by the
    absence marker. *)
Fixpoint of_list (l : list SexpOrNull) : SexpOrNull :=
  match l with
  | [] => Null
  | x :: l' => NotNull (SexpPair x (of_list l'))
  end.

Definition is_paren_text (s : string) : bool := String.eqb s "(" || String.eqb s ")".

(** The shape of what [parse] builds. A form is a non-empty proper list;
    each of its elements is an atom whose text is no parenthesis, or a form
    again. *)
Fixpoint is_form (s : Sexp) : bool :=
  match s with
  | SexpAtom _ => false
  | SexpPair pair0 pair1 => is_element pair0 && is_tail pair1
  end
with is_element (s : SexpOrNull) : bool :=
  match s with
  | Null => false
  | NotNull s' =>
      match s' with
      | SexpAtom atom => negb (is_paren_text (value atom))
      | SexpPair _ _ => is_form s'
      end
  end
with is_tail (s : SexpOrNull) : bool :=
  match s with
  | Null => true
  | NotNull s' => is_form s'
  end.

Definition open_paren : Token := mkToken "(" Syntax.
Definition close_paren : Token := mkToken ")" Syntax.

(** The tokens of a form without its outer parentheses, and the tokens of
    one element: an atom is its token, a nested form is written between
    parentheses. *)
Fixpoint elements_tokens (s : Sexp) : list Token :=
  match s with
  | SexpAtom atom => [atom]
  | SexpPair pair0 pair1 => element_tokens pair0 ++ tail_tokens pair1
  end
with element_tokens (s : SexpOrNull) : list Token :=
  match s with
  | Null => []
  | NotNull s' =>
      match s' with
      | SexpAtom atom => [atom]
      | SexpPair _ _ => open_paren :: elements_tokens s' ++ [close_paren]
      end
  end
with tail_tokens (s : SexpOrNull) : list Token :=
  match s with
  | Null => []
  | NotNull s' => elements_tokens s'
  end.

(** A form written as tokens, parentheses included. *)
Definition form_tokens (s : Sexp) : list Token :=
  open_paren :: elements_tokens s ++ [close_paren].

(** Every atom of the s-expression is an Integer or Identifier token that
    is a lexeme of its kind. *)
Fixpoint atoms_valid (s : Sexp) : bool :=
  match s with
  | SexpAtom atom =>
      valid_token atom && match kind atom with Syntax => false | _ => true end
  | SexpPair pair0 pair1 => atoms_valid_or_null pair0 && atoms_valid_or_null pair1
  end
with atoms_valid_or_null (s : SexpOrNull) : bool :=
  match s with
  | Null => true
  | NotNull s' => atoms_valid s'
  end.

(** A form written as text: its tokens, each followed by one space. *)
Definition write_form (s : Sexp) : string :=
  join (map (fun t => (t, " ")) (form_tokens s)).

(** The loop of [parse] run with the fuel [parse] has. *)
Definition parse_siblings (tokens : list Token) (cursor : nat) (siblings : SexpOrNull)
  : Outcome (nat * SexpOrNull) :=
  parse_loop (2 * length tokens + 2) tokens cursor siblings.

(** The elements of a chain of Pairs. *)
Fixpoint elems (s : Sexp) : list SexpOrNull :=
  match s with
  | SexpAtom _ => []
  | SexpPair pair0 pair1 =>
      pair0 :: match pair1 with
               | Null => []
               | NotNull s' => elems s'
               end
  end.

Definition tail_elems (s : SexpOrNull) : list SexpOrNull :=
  match s with
  | Null => []
  | NotNull s' => elems s'
  end.

(** The implicit [begin] form [main] builds around the top-level forms. *)
Definition begin_form (fs : list Sexp) : Sexp :=
  SexpPair (NotNull begin_atom) (of_list (map NotNull fs)).

(** A run of the evaluator that returns, returns a result that satisfies
    [ok]. *)
Definition returns {A : Type} (ok : A → Prop) (r : Outcome (A * Store)) : Prop :=
  match r with
  | Ok (a, _) => ok a
  | _ => True
  end.

(** A value of the type [EvalReturnType]: a number, a boolean or a
    function. *)
Definition is_defined (v : Value) : bool :=
  match v with
  | VUndefined => false
  | _ => true
  end.

(** Every context of [st] is a context of [st'] that binds at least the
    same names. *)
Definition store_le (st st' : Store) : Prop :=
  ∀ (c : CtxRef) (m : Context),
    st !! c = Some m →
    ∃ m' : Context, st' !! c = Some m' ∧ ∀ x : string, is_Some (m !! x) → is_Some (m' !! x).

(** A run of the evaluator that returns leaves such a store. *)
Definition keeps {A : Type} (st : Store) (r : Outcome (A * Store)) : Prop :=
  match r with
  | Ok (_, st') => store_le st st'
  | _ => True
  end.

(** The names of a parameter list: a proper list of atoms. *)
Fixpoint param_names (params : SexpOrNull) : option (list string) :=
  match params with
  | Null => Some []
  | NotNull (SexpPair (NotNull (SexpAtom a)) rest) => cons (value a) <$> param_names rest
  | NotNull _ => None
  end.

(** The argument the name [x] stands for, when it is one of the
    parameters [names], the first of which takes the argument of index
    [i]: the last parameter of that name counts, and a parameter past the
    arguments stands for [undefined]. *)
Fixpoint param_value (names : list string) (i : nat) (vs : list Value) (x : string)
  : option Value :=
  match names with
  | [] => None
  | n :: rest =>
      match param_value rest (S i) vs x with
      | Some v => Some v
      | None => if String.eqb n x then Some (default VUndefined (vs !! i)) else None
      end
  end.

(** The map [m] after the parameters were set in it one by one. *)
Fixpoint bind_names (names : list string) (i : nat) (vs : list Value) (m : Context)
  : Context :=
  match names with
  | [] => m
  | n :: rest => bind_names rest (S i) vs (<[n := default VUndefined (vs !! i)]> m)
  end.

(** A name the table of builtins inherits from [Object.prototype]. *)
Definition inherited_name (s : string) : bool :=
  match object_prototype_get s with
  | Some _ => true
  | None => false
  end.

(** No atom of the s-expression is such a name. *)
Fixpoint plain (s : Sexp) : bool :=
  match s with
  | SexpAtom atom => negb (inherited_name (value atom))
  | SexpPair pair0 pair1 => plain_or_null pair0 && plain_or_null pair1
  end
with plain_or_null (s : SexpOrNull) : bool :=
  match s with
  | Null => true
  | NotNull s' => plain s'
  end.

(** An element of a form [parse] builds, and the rest of such a form
    after some elements; with [strict], one that names no inherited
    property. *)
Definition element_ok (strict : bool) (s : SexpOrNull) : bool :=
  is_element s && (negb strict || plain_or_null s).

Definition tail_ok (strict : bool) (s : SexpOrNull) : bool :=
  is_tail s && (negb strict || plain_or_null s).

(** A value of a run on such forms: a lambda was cut out of one, its
    parameters an element and its body the rest of a form; with [strict],
    the value is none of those that only an inherited property gives. *)
Definition value_wf (strict : bool) (v : Value) : bool :=
  match v with
  | VLambda params body => element_ok strict params && tail_ok strict body
  | VInherited _ | VString _ | VSexp _ | VObjectPrototype => negb strict
  | _ => true
  end.

Definition store_wf (strict : bool) (st : Store) : Prop :=
  ∀ (c : CtxRef) (m : Context) (x : string) (v : Value),
    st !! c = Some m → m !! x = Some v → value_wf strict v = true.

(** The failures such a run can end in: never "Expected linked list.",
    thrown for an argument list that ends in an atom; and with [strict],
    never a TypeError. *)
Definition allowed (strict : bool) (e : Exn) : bool :=
  match e with
  | TypeError => negb strict
  | Error msg => negb (String.eqb msg "Expected linked list.")
  end.

(** A run on well-formed data: what it returns is well formed, and what
    it throws is allowed. *)
Definition sound {A : Type} (strict : bool) (ok : A → Prop) (r : Outcome (A * Store))
  : Prop :=
  match r with
  | Ok (a, st') => store_wf strict st' ∧ ok a
  | Throw e => allowed strict e = true
  | _ => True
  end.

(** A number, a boolean or [undefined]: the values a comparison turns into
    a number whatever stands on the other side. *)
Definition is_numeric (v : Value) : bool :=
  match v with
  | VNumber _ | VBoolean _ | VUndefined => true
  | _ => false
  end.

(** * Properties *)

(** ** Strings *)

Lemma string_app_cons (c : ascii) (a b : string) : String c a ++ b = String c (a ++ b).
Proof. reflexivity. Qed.

Lemma string_app_nil_l (b : string) : "" ++ b = b.
Proof. reflexivity. Qed.

Lemma string_length_app (a b : string) :
  String.length (a ++ b) = String.length a + String.length b.
Proof.
  induction a as [|c a IH]; [reflexivity |].
  rewrite string_app_cons. simpl. now rewrite IH.
Qed.

Lemma string_app_assoc (a b c : string) : (a ++ b) ++ c = a ++ (b ++ c).
Proof.
  induction a as [|x a IH]; [reflexivity |].
  rewrite !string_app_cons. now rewrite IH.
Qed.

Lemma string_app_nil_r (a : string) : a ++ "" = a.
Proof.
  induction a as [|x a IH]; [reflexivity |].
  rewrite string_app_cons. now rewrite IH.
Qed.

Lemma get_app_r (pre s : string) (n : nat) :
  String.get (String.length pre + n) (pre ++ s) = String.get n s.
Proof.
  induction pre as [|c pre IH]; [reflexivity |].
  rewrite string_app_cons. exact IH.
Qed.

Lemma get_app_r0 (pre s : string) :
  String.get (String.length pre) (pre ++ s) = String.get 0 s.
Proof. rewrite <- (get_app_r pre s 0). f_equal. lia. Qed.

Lemma get_none_length (s : string) (n : nat) :
  String.get n s = None ↔ (String.length s ≤ n)%nat.
Proof.
  revert n. induction s as [|c s IH]; intros n; simpl.
  - split; [lia | reflexivity].
  - destruct n as [|n]; [split; [discriminate | lia] |].
    rewrite IH. lia.
Qed.

Lemma get_some_length (s : string) (n : nat) (c : ascii) :
  String.get n s = Some c → (n < String.length s)%nat.
Proof.
  intros H. destruct (Nat.lt_ge_cases n (String.length s)) as [|Hge]; [assumption |].
  apply get_none_length in Hge. congruence.
Qed.

Lemma substring_app_prefix (m rest : string) :
  String.substring 0 (String.length m) (m ++ rest) = m.
Proof.
  induction m as [|c m IH].
  - destruct rest; reflexivity.
  - rewrite string_app_cons. simpl. now rewrite IH.
Qed.

Lemma substring_app_mid (pre m rest : string) :
  String.substring (String.length pre) (String.length m) (pre ++ m ++ rest) = m.
Proof.
  induction pre as [|c pre IH]; [| rewrite string_app_cons; exact IH].
  exact (substring_app_prefix m rest).
Qed.

Lemma snoc_app (pre : string) (c : ascii) (s : string) :
  pre ++ String c s = snoc pre c ++ s.
Proof. unfold snoc. now rewrite string_app_assoc. Qed.

Lemma length_snoc (pre : string) (c : ascii) :
  String.length (snoc pre c) = S (String.length pre).
Proof. unfold snoc. rewrite string_length_app. simpl. lia. Qed.

(** ** Character classes *)

Lemma digit_classes (c : ascii) :
  is_digit c = true →
  is_whitespace c = false ∧ is_paren c = false ∧ is_letter c = false ∧
  is_operator_char c = false.
Proof. ascii_cases c; intros _; repeat split. Qed.

Lemma identifier_start_classes (c : ascii) :
  is_identifier_start c = true →
  is_whitespace c = false ∧ is_paren c = false ∧ is_digit c = false.
Proof. ascii_cases c; intros _; repeat split. Qed.

Lemma whitespace_classes (c : ascii) :
  is_whitespace c = true →
  is_paren c = false ∧ is_digit c = false ∧ is_letter c = false ∧
  is_operator_char c = false.
Proof. ascii_cases c; intros _; repeat split. Qed.

Lemma paren_classes (c : ascii) :
  is_paren c = true → is_whitespace c = false ∧ (c = "("%char ∨ c = ")"%char).
Proof. ascii_cases c; intros _; split; auto. Qed.

Lemma not_lexable_classes (c : ascii) :
  lexable c = false →
  is_whitespace c = false ∧ is_paren c = false ∧ is_digit c = false ∧
  is_letter c = false ∧ is_operator_char c = false.
Proof.
  unfold lexable. rewrite !orb_false_iff. tauto.
Qed.

(** ** The scanning loops *)

Lemma lexInteger_loop_ge (fuel : nat) (program : string) (end_ : nat) :
  (end_ ≤ lexInteger_loop fuel program end_)%nat.
Proof.
  revert end_. induction fuel as [|fuel IH]; intros end_; simpl; [lia |].
  destruct (String.get end_ program) as [c|]; [| lia].
  destruct (is_digit c); [| lia]. specialize (IH (S end_)). lia.
Qed.

Lemma lexIdentifier_loop_ge (fuel : nat) (program : string) (cursor end_ : nat) :
  (end_ ≤ lexIdentifier_loop fuel program cursor end_)%nat.
Proof.
  revert end_. induction fuel as [|fuel IH]; intros end_; simpl; [lia |].
  destruct (String.get end_ program) as [c|]; [| lia].
  destruct (identifier_char cursor end_ c); [| lia]. specialize (IH (S end_)). lia.
Qed.

(** A character that is no digit stops the integer scan. *)
Lemma lexInteger_loop_stop (fuel : nat) (program : string) (end_ j : nat) (c : ascii) :
  (end_ ≤ j)%nat → String.get j program = Some c → is_digit c = false →
  (lexInteger_loop fuel program end_ ≤ j)%nat.
Proof.
  revert end_. induction fuel as [|fuel IH]; intros end_ Hle Hj Hc; simpl; [lia |].
  destruct (String.get end_ program) as [c0|] eqn:Hget; [| lia].
  destruct (is_digit c0) eqn:Hd; [| lia].
  apply IH; [| assumption..].
  destruct (decide (end_ = j)) as [->|]; [congruence | lia].
Qed.

Lemma lexIdentifier_loop_stop (fuel : nat) (program : string) (cursor end_ j : nat)
    (c : ascii) :
  (end_ ≤ j)%nat → String.get j program = Some c → is_identifier_part c = false →
  (lexIdentifier_loop fuel program cursor end_ ≤ j)%nat.
Proof.
  revert end_. induction fuel as [|fuel IH]; intros end_ Hle Hj Hc; simpl; [lia |].
  destruct (String.get end_ program) as [c0|] eqn:Hget; [| lia].
  destruct (identifier_char cursor end_ c0) eqn:Hd; [| lia].
  apply IH; [| assumption..].
  destruct (decide (end_ = j)) as [->|]; [| lia].
  assert (c0 = c) as -> by congruence.
  unfold identifier_char in Hd. unfold is_identifier_part in Hc.
  rewrite !orb_false_iff in Hc. destruct Hc as [[Hl Ho] Hdg].
  rewrite Hl, Ho, Hdg, andb_false_r in Hd. discriminate.
Qed.

(** What [try_lexers] returns lies strictly after [i]. *)
(** The fuel of the two scans, the number of characters left, is never
    what stops them: one more unit changes nothing. *)
Lemma lexInteger_loop_fuel (fuel : nat) (program : string) (end_ : nat) :
  (String.length program - end_ ≤ fuel)%nat →
  lexInteger_loop (S fuel) program end_ = lexInteger_loop fuel program end_.
Proof.
  revert end_. induction fuel as [|fuel IH]; intros end_ Hfuel.
  - simpl. destruct (String.get end_ program) as [c|] eqn:Hget; [| reflexivity].
    apply get_some_length in Hget. lia.
  - change (lexInteger_loop (S (S fuel)) program end_)
      with (match String.get end_ program with
            | Some c => if is_digit c then lexInteger_loop (S fuel) program (S end_)
                        else end_
            | None => end_
            end).
    change (lexInteger_loop (S fuel) program end_)
      with (match String.get end_ program with
            | Some c => if is_digit c then lexInteger_loop fuel program (S end_)
                        else end_
            | None => end_
            end).
    destruct (String.get end_ program) as [c|]; [| reflexivity].
    destruct (is_digit c); [| reflexivity]. apply IH. lia.
Qed.

Lemma lexIdentifier_loop_fuel (fuel : nat) (program : string) (cursor end_ : nat) :
  (String.length program - end_ ≤ fuel)%nat →
  lexIdentifier_loop (S fuel) program cursor end_
  = lexIdentifier_loop fuel program cursor end_.
Proof.
  revert end_. induction fuel as [|fuel IH]; intros end_ Hfuel.
  - simpl. destruct (String.get end_ program) as [c|] eqn:Hget; [| reflexivity].
    apply get_some_length in Hget. lia.
  - change (lexIdentifier_loop (S (S fuel)) program cursor end_)
      with (match String.get end_ program with
            | Some c => if identifier_char cursor end_ c
                        then lexIdentifier_loop (S fuel) program cursor (S end_)
                        else end_
            | None => end_
            end).
    change (lexIdentifier_loop (S fuel) program cursor end_)
      with (match String.get end_ program with
            | Some c => if identifier_char cursor end_ c
                        then lexIdentifier_loop fuel program cursor (S end_)
                        else end_
            | None => end_
            end).
    destruct (String.get end_ program) as [c|]; [| reflexivity].
    destruct (identifier_char cursor end_ c); [| reflexivity]. apply IH. lia.
Qed.

Lemma try_lexers_unfold (program : string) (i : nat) :
  try_lexers lexers program i =
  if Nat.eqb (fst (lexInteger program i)) i
  then if Nat.eqb (fst (lexIdentifier program i)) i then None
       else Some (lexIdentifier program i)
  else Some (lexInteger program i).
Proof. reflexivity. Qed.

Lemma try_lexers_advance (program : string) (i newCursor : nat) (token : Token) :
  try_lexers lexers program i = Some (newCursor, token) → (i < newCursor)%nat.
Proof.
  rewrite try_lexers_unfold.
  pose proof (lexInteger_loop_ge (String.length program - i) program i) as H1.
  pose proof (lexIdentifier_loop_ge (String.length program - i) program i i) as H2.
  destruct (Nat.eqb (fst (lexInteger program i)) i) eqn:E1.
  - destruct (Nat.eqb (fst (lexIdentifier program i)) i) eqn:E2; [discriminate |].
    apply Nat.eqb_neq in E2. unfold lexIdentifier in *. cbn [fst] in E2.
    intros [= <- _]. lia.
  - apply Nat.eqb_neq in E1. unfold lexInteger in *. cbn [fst] in E1.
    intros [= <- _]. lia.
Qed.

Lemma try_lexers_stop (program : string) (i j newCursor : nat) (token : Token) (c : ascii) :
  (i ≤ j)%nat → String.get j program = Some c → lexable c = false →
  try_lexers lexers program i = Some (newCursor, token) → (newCursor ≤ j)%nat.
Proof.
  intros Hle Hj Hc. apply not_lexable_classes in Hc as (_ & _ & Hd & Hl & Ho).
  assert (is_identifier_part c = false) as Hp
    by (unfold is_identifier_part; now rewrite Hl, Ho, Hd).
  rewrite try_lexers_unfold.
  pose proof (lexInteger_loop_stop (String.length program - i) program i j c Hle Hj Hd).
  pose proof (lexIdentifier_loop_stop (String.length program - i) program i i j c Hle Hj Hp).
  destruct (Nat.eqb (fst (lexInteger program i)) i).
  - destruct (Nat.eqb (fst (lexIdentifier program i)) i); [discriminate |].
    unfold lexIdentifier. intros [= <- _]. lia.
  - unfold lexInteger. intros [= <- _]. lia.
Qed.

(** ** [lex] never runs out of fuel *)

Lemma lex_from_S (fuel : nat) (program : string) (i : nat) (tokens : list Token) :
  lex_from (S fuel) program i tokens =
  match String.get i program with
  | None => Ok tokens
  | Some c =>
      if is_whitespace c then lex_from fuel program (S i) tokens
      else if is_paren c then
        lex_from fuel program (S i) (tokens ++ [mkToken (String c EmptyString) Syntax])
      else
        match try_lexers lexers program i with
        | Some (newCursor, token) => lex_from fuel program newCursor (tokens ++ [token])
        | None =>
            Throw (Error ("Unknown token near '" ++ js_slice program i ++
                          "' at index '" ++ string_of_nat i ++ "'"))
        end
  end.
Proof. reflexivity. Qed.

Lemma lex_from_fuel (fuel : nat) (program : string) (i : nat) (tokens : list Token) :
  (String.length program - i < fuel)%nat → lex_from fuel program i tokens ≠ OutOfFuel.
Proof.
  revert i tokens. induction fuel as [|fuel IH]; intros i tokens Hfuel; [lia |].
  rewrite lex_from_S. destruct (String.get i program) as [c|] eqn:Hget; [| differ].
  apply get_some_length in Hget.
  destruct (is_whitespace c); [apply IH; lia |].
  destruct (is_paren c); [apply IH; lia |].
  destruct (try_lexers lexers program i) as [[newCursor token]|] eqn:Htry; [| differ].
  apply try_lexers_advance in Htry. apply IH. lia.
Qed.

Lemma lex_total (program : string) : lex program ≠ OutOfFuel.
Proof. apply lex_from_fuel. lia. Qed.

Lemma lex_not_host_defined (fuel : nat) (program : string) (i : nat) (tokens : list Token) :
  lex_from fuel program i tokens ≠ HostDefined.
Proof.
  revert i tokens. induction fuel as [|fuel IH]; intros i tokens; [differ |].
  rewrite lex_from_S. destruct (String.get i program) as [c|]; [| differ].
  destruct (is_whitespace c); [apply IH |].
  destruct (is_paren c); [apply IH |].
  destruct (try_lexers lexers program i) as [[newCursor token]|]; [apply IH | differ].
Qed.

(** ** A character without a lexer rule makes [lex] fail *)

Lemma lex_from_unlexable (fuel : nat) (program : string) (i j : nat) (c : ascii)
    (tokens : list Token) :
  (i ≤ j)%nat → String.get j program = Some c → lexable c = false →
  (String.length program - i < fuel)%nat →
  ∃ msg, lex_from fuel program i tokens = Throw (Error msg).
Proof.
  revert i tokens. induction fuel as [|fuel IH]; intros i tokens Hle Hj Hc Hfuel; [lia |].
  pose proof (not_lexable_classes c Hc) as (Hw & Hp & _).
  pose proof (get_some_length _ _ _ Hj) as Hlen.
  rewrite lex_from_S. destruct (String.get i program) as [c0|] eqn:Hget.
  2:{ apply get_none_length in Hget. lia. }
  assert (is_whitespace c0 = true ∨ is_paren c0 = true → i < j)%nat as Hlt.
  { intros Hc0. destruct (decide (i = j)) as [->|]; [| lia].
    assert (c0 = c) as -> by congruence. rewrite Hw, Hp in Hc0. now destruct Hc0. }
  destruct (is_whitespace c0).
  { assert (i < j)%nat by auto. apply IH; auto; lia. }
  destruct (is_paren c0).
  { assert (i < j)%nat by auto. apply IH; auto; lia. }
  destruct (try_lexers lexers program i) as [[newCursor token]|] eqn:Htry; [| eauto].
  pose proof (try_lexers_advance _ _ _ _ Htry).
  pose proof (try_lexers_stop _ _ _ _ _ _ Hle Hj Hc Htry).
  apply IH; auto; lia.
Qed.

Lemma string_existsb_get (p : ascii → bool) (s : string) :
  string_existsb p s = true → ∃ j c, String.get j s = Some c ∧ p c = true.
Proof.
  induction s as [|c s IH]; simpl; [discriminate |].
  destruct (p c) eqn:Hp; simpl.
  - intros _. exists 0%nat, c. auto.
  - intros H. destruct (IH H) as (j & c' & ? & ?). exists (S j), c'. auto.
Qed.

Lemma lex_unlexable (program : string) :
  string_existsb (fun c => negb (lexable c)) program = true →
  ∃ msg, lex program = Throw (Error msg).
Proof.
  intros H. apply string_existsb_get in H as (j & c & Hj & Hc).
  apply negb_true_iff in Hc.
  apply (lex_from_unlexable _ program 0 j c); [lia | assumption.. | lia].
Qed.

(** ** Scanning a whole lexeme *)

Lemma stops_get (p : ascii → bool) (pre rest : string) :
  stops p rest = true →
  match String.get (String.length pre) (pre ++ rest) with
  | None => True
  | Some c => p c = false
  end.
Proof.
  rewrite get_app_r0. destruct rest as [|c rest]; simpl; [trivial |].
  now intros ->%negb_true_iff.
Qed.

Lemma lexInteger_loop_run (d pre rest : string) (fuel : nat) :
  string_forallb is_digit d = true → stops is_digit rest = true →
  (String.length d ≤ fuel)%nat →
  lexInteger_loop fuel (pre ++ d ++ rest) (String.length pre)
  = (String.length pre + String.length d)%nat.
Proof.
  revert pre fuel. induction d as [|c d IH]; intros pre fuel Hd Hrest Hfuel.
  - rewrite string_app_nil_l. simpl. rewrite Nat.add_0_r.
    destruct fuel as [|fuel]; [reflexivity |]. simpl.
    pose proof (stops_get _ pre rest Hrest) as Hs.
    destruct (String.get (String.length pre) (pre ++ rest)); [| reflexivity].
    now rewrite Hs.
  - simpl in Hd. apply andb_true_iff in Hd as [Hc Hd].
    destruct fuel as [|fuel]; [simpl in Hfuel; lia |]. simpl in Hfuel.
    simpl. rewrite string_app_cons, get_app_r0. simpl. rewrite Hc.
    rewrite snoc_app, <- (length_snoc pre c). rewrite IH by (auto; lia).
    rewrite length_snoc. simpl. lia.
Qed.

Lemma identifier_char_part (cursor end_ : nat) (c : ascii) :
  (cursor < end_)%nat → identifier_char cursor end_ c = is_identifier_part c.
Proof.
  intros H. unfold identifier_char, is_identifier_part.
  apply Nat.ltb_lt in H. now rewrite H.
Qed.

Lemma identifier_char_start (cursor : nat) (c : ascii) :
  identifier_char cursor cursor c = is_identifier_start c.
Proof.
  unfold identifier_char, is_identifier_start.
  rewrite Nat.ltb_irrefl. simpl. now rewrite orb_false_r.
Qed.

Lemma lexIdentifier_loop_run (d pre rest : string) (cursor fuel : nat) :
  string_forallb is_identifier_part d = true → stops is_identifier_part rest = true →
  (cursor < String.length pre)%nat → (String.length d ≤ fuel)%nat →
  lexIdentifier_loop fuel (pre ++ d ++ rest) cursor (String.length pre)
  = (String.length pre + String.length d)%nat.
Proof.
  revert pre fuel. induction d as [|c d IH]; intros pre fuel Hd Hrest Hcur Hfuel.
  - rewrite string_app_nil_l. simpl. rewrite Nat.add_0_r.
    destruct fuel as [|fuel]; [reflexivity |]. simpl.
    pose proof (stops_get _ pre rest Hrest) as Hs.
    destruct (String.get (String.length pre) (pre ++ rest)); [| reflexivity].
    rewrite identifier_char_part by assumption. now rewrite Hs.
  - simpl in Hd. apply andb_true_iff in Hd as [Hc Hd].
    destruct fuel as [|fuel]; [simpl in Hfuel; lia |]. simpl in Hfuel.
    simpl. rewrite string_app_cons, get_app_r0. simpl.
    rewrite identifier_char_part by assumption. rewrite Hc.
    rewrite snoc_app, <- (length_snoc pre c). rewrite IH; auto; rewrite ?length_snoc; simpl; lia.
Qed.

(** ** One lexeme, one token *)

Lemma whitespace_stops_digit (rest : string) :
  stops (fun c => negb (is_whitespace c)) rest = true → stops is_digit rest = true.
Proof.
  destruct rest as [|c rest]; simpl; [trivial |].
  rewrite negb_involutive. intros H. apply whitespace_classes in H as (_ & -> & _).
  reflexivity.
Qed.

Lemma whitespace_stops_identifier (rest : string) :
  stops (fun c => negb (is_whitespace c)) rest = true →
  stops is_identifier_part rest = true.
Proof.
  destruct rest as [|c rest]; simpl; [trivial |].
  rewrite negb_involutive. intros H.
  apply whitespace_classes in H as (_ & Hd & Hl & Ho).
  unfold is_identifier_part. now rewrite Hd, Hl, Ho.
Qed.

Lemma lex_from_token (t : Token) (pre rest : string) (fuel : nat) (tokens : list Token) :
  valid_token t = true →
  stops (fun c => negb (is_whitespace c)) rest = true →
  lex_from (S fuel) (pre ++ value t ++ rest) (String.length pre) tokens
  = lex_from fuel (pre ++ value t ++ rest)
      (String.length pre + String.length (value t)) (tokens ++ [t]).
Proof.
  destruct t as [v k]. unfold valid_token. cbn [value kind]. intros Hv Hrest.
  rewrite lex_from_S. destruct k.
  - (* Integer *)
    unfold integer_lexeme in Hv. apply andb_true_iff in Hv as [Hne Hd].
    destruct v as [|c d]; [discriminate |].
    pose proof Hd as Hcd. simpl in Hcd. apply andb_true_iff in Hcd as [Hc _].
    apply digit_classes in Hc as (Hw & Hp & _).
    rewrite string_app_cons at 1. rewrite get_app_r0. simpl String.get. cbv iota.
    rewrite Hw, Hp, try_lexers_unfold.
    assert (fst (lexInteger (pre ++ String c d ++ rest) (String.length pre))
            = String.length pre + String.length (String c d))%nat as Hend.
    { unfold lexInteger. cbn [fst]. apply lexInteger_loop_run; auto.
      - now apply whitespace_stops_digit.
      - rewrite !string_length_app. lia. }
    rewrite Hend. replace (Nat.eqb _ _) with false
      by (symmetry; apply Nat.eqb_neq; simpl; lia).
    unfold lexInteger in *. cbn [fst] in Hend. rewrite Hend.
    unfold js_substring.
    replace (String.length pre + String.length (String c d) - String.length pre)%nat
      with (String.length (String c d)) by lia.
    now rewrite substring_app_mid.
  - (* Identifier *)
    unfold identifier_lexeme in Hv. destruct v as [|c d]; [discriminate |].
    apply andb_true_iff in Hv as [Hc Hd].
    pose proof (identifier_start_classes c Hc) as (Hw & Hp & Hdg).
    rewrite string_app_cons at 1. rewrite get_app_r0. simpl String.get. cbv iota.
    rewrite Hw, Hp, try_lexers_unfold.
    assert (Hget : String.get (String.length pre) (pre ++ String c d ++ rest) = Some c)
      by (now rewrite string_app_cons, get_app_r0).
    assert (fst (lexInteger (pre ++ String c d ++ rest) (String.length pre))
            = String.length pre) as Hint.
    { unfold lexInteger. cbn [fst]. apply Nat.le_antisymm.
      - eapply lexInteger_loop_stop; [reflexivity | exact Hget | exact Hdg].
      - apply lexInteger_loop_ge. }
    rewrite Hint, Nat.eqb_refl.
    assert (fst (lexIdentifier (pre ++ String c d ++ rest) (String.length pre))
            = String.length pre + String.length (String c d))%nat as Hend.
    { unfold lexIdentifier. cbn [fst].
      replace (String.length (pre ++ String c d ++ rest) - String.length pre)%nat
        with (S (String.length d + String.length rest))
        by (rewrite !string_length_app; simpl; lia).
      simpl lexIdentifier_loop. rewrite Hget, identifier_char_start, Hc.
      rewrite string_app_cons, snoc_app, <- (length_snoc pre c).
      rewrite lexIdentifier_loop_run; auto.
      - rewrite length_snoc. simpl. lia.
      - now apply whitespace_stops_identifier.
      - rewrite length_snoc. lia.
      - lia. }
    rewrite Hend. replace (Nat.eqb _ _) with false
      by (symmetry; apply Nat.eqb_neq; simpl; lia).
    unfold lexIdentifier in *. cbn [fst] in Hend. rewrite Hend.
    unfold js_substring.
    replace (String.length pre + String.length (String c d) - String.length pre)%nat
      with (String.length (String c d)) by lia.
    now rewrite substring_app_mid.
  - (* Syntax *)
    unfold syntax_lexeme in Hv.
    apply orb_true_iff in Hv as [->%String.eqb_eq | ->%String.eqb_eq];
      rewrite string_app_cons at 1; rewrite get_app_r0; simpl;
      now rewrite Nat.add_1_r.
Qed.

Lemma lex_from_skip_whitespace (ws pre rest : string) (fuel : nat) (tokens : list Token) :
  whitespace_run ws = true →
  lex_from (String.length ws + fuel) (pre ++ ws ++ rest) (String.length pre) tokens
  = lex_from fuel (pre ++ ws ++ rest) (String.length pre + String.length ws) tokens.
Proof.
  revert pre. induction ws as [|c ws IH]; intros pre Hws.
  - simpl. now rewrite Nat.add_0_r.
  - simpl in Hws. apply andb_true_iff in Hws as [Hc Hws].
    simpl String.length. rewrite Nat.add_succ_l, lex_from_S.
    rewrite string_app_cons at 1. rewrite get_app_r0. simpl String.get. cbv iota.
    rewrite Hc, string_app_cons, snoc_app, <- (length_snoc pre c), IH by assumption.
    rewrite length_snoc. f_equal. lia.
Qed.

Lemma lex_from_join (items : list (Token * string)) (pre : string) (fuel : nat)
    (tokens : list Token) :
  well_separated items = true →
  (String.length (join items) < fuel)%nat →
  lex_from fuel (pre ++ join items) (String.length pre) tokens
  = Ok (tokens ++ map fst items)%list.
Proof.
  revert pre fuel tokens.
  induction items as [|[t sep] items IH]; intros pre fuel tokens Hsep Hfuel.
  - destruct fuel as [|fuel]; [lia |]. rewrite lex_from_S. simpl join.
    rewrite get_app_r0. simpl. now rewrite app_nil_r.
  - simpl in Hsep. rewrite !andb_true_iff in Hsep.
    destruct Hsep as [[[Ht Hws] Hne] Hitems].
    simpl join in *. rewrite !string_length_app in Hfuel.
    assert (0 < String.length (value t))%nat as Hlen.
    { destruct t as [[|c v] []]; simpl; try lia; discriminate. }
    destruct fuel as [|fuel]; [lia |].
    rewrite lex_from_token; [| assumption |].
    2:{ destruct sep as [|c sep].
        - destruct items; [reflexivity | discriminate].
        - simpl in Hws. apply andb_true_iff in Hws as [Hc _].
          rewrite string_app_cons. simpl. now rewrite Hc. }
    rewrite <- string_length_app, <- string_app_assoc.
    replace fuel with (String.length sep + (fuel - String.length sep))%nat by lia.
    rewrite lex_from_skip_whitespace by assumption.
    rewrite <- string_length_app, <- string_app_assoc.
    rewrite IH by (auto; lia).
    simpl. now rewrite <- app_assoc.
Qed.

Lemma lex_lead_join (lead : string) (items : list (Token * string)) :
  whitespace_run lead = true → well_separated items = true →
  lex (lead ++ join items) = Ok (map fst items).
Proof.
  intros Hl Hits. unfold lex. rewrite string_length_app.
  replace (S (String.length lead + String.length (join items)))
    with (String.length lead + S (String.length (join items)))%nat by lia.
  change (lead ++ join items) with ("" ++ lead ++ join items).
  change 0%nat with (String.length "").
  rewrite (lex_from_skip_whitespace lead "" (join items)) by assumption.
  change (String.length "" + String.length lead)%nat with (String.length ("" ++ lead)).
  rewrite <- string_app_assoc.
  rewrite lex_from_join by (auto; lia). reflexivity.
Qed.

Lemma lex_whitespace_only (program : string) :
  whitespace_run program = true → lex program = Ok [].
Proof.
  intros Hws. pose proof (lex_lead_join program [] Hws eq_refl) as H.
  simpl in H. now rewrite string_app_nil_r in H.
Qed.

(** C8. For every sequence of valid integer, identifier and syntax lexemes
    written one after the other with non-empty runs of whitespace between
    them (and any whitespace before the first and after the last), [lex]
    returns exactly that sequence of tokens, kinds and values included; so
    two such texts that differ only in their whitespace lex alike. *)
Theorem lex_separated_lexemes (lead : string) (items : list (Token * string)) :
  whitespace_run lead = true → well_separated items = true →
  lex (lead ++ join items) = Ok (map fst items) ∧
  ∀ (lead' : string) (items' : list (Token * string)),
    whitespace_run lead' = true → well_separated items' = true →
    map fst items' = map fst items →
    lex (lead' ++ join items') = lex (lead ++ join items).
Proof.
  intros Hlead Hitems. split; [now apply lex_lead_join |].
  intros lead' items' Hlead' Hitems' Heq.
  rewrite !lex_lead_join by assumption. now rewrite Heq.
Qed.

Lemma lex_separated_lexemes_witness :
  lex "  ( + 12	x1 )" =
  Ok [mkToken "(" Syntax; mkToken "+" Identifier; mkToken "12" Integer;
      mkToken "x1" Identifier; mkToken ")" Syntax].
Proof.
  exact (proj1 (lex_separated_lexemes "  "
    [(mkToken "(" Syntax, " "); (mkToken "+" Identifier, " ");
     (mkToken "12" Integer, String "009" ""); (mkToken "x1" Identifier, " ");
     (mkToken ")" Syntax, "")] eq_refl eq_refl)).
Defined.

(** ** The parser *)

Lemma parse_fuel_S (fuel : nat) (tokens : list Token) (cursor : nat) :
  parse_fuel (S fuel) tokens cursor =
  match tokens !! cursor with
  | None => Throw TypeError
  | Some t0 =>
      if String.eqb (value t0) "(" then parse_loop fuel tokens (S cursor) Null
      else Throw (Error ("Expected opening parenthesis, got '" ++ value t0 ++ "'"))
  end.
Proof. reflexivity. Qed.

Lemma parse_loop_S (fuel : nat) (tokens : list Token) (cursor : nat) (siblings : SexpOrNull) :
  parse_loop (S fuel) tokens cursor siblings =
  match tokens !! cursor with
  | None => Ok (cursor, siblings)
  | Some t =>
      if String.eqb (value t) "(" then
        let? (newCursor, child) := parse_fuel fuel tokens cursor in
        match child with
        | Null => Throw (Error "Expected child.")
        | NotNull _ =>
            let? siblings' := append siblings child in
            parse_loop fuel tokens (S newCursor) (NotNull siblings')
        end
      else if String.eqb (value t) ")" then Ok (cursor, siblings)
      else
        let? siblings' := append siblings (NotNull (makeSexpAtom t)) in
        parse_loop fuel tokens (S cursor) (NotNull siblings')
  end.
Proof. reflexivity. Qed.

(** [append] fails only when both arguments are absent. *)
Lemma append_present (first : SexpOrNull) (second : Sexp) :
  ∃ r, append first (NotNull second) = Ok r.
Proof.
  induction first as [a | p0 IH0 p1 IH1 | | s IH]
    using SexpOrNull_mut
    with (P := fun s => ∃ r, append (NotNull s) (NotNull second) = Ok r).
  - simpl. eauto.
  - simpl. destruct IH1 as [r ->]. simpl. eauto.
  - simpl. eauto.
  - exact IH.
Qed.

Lemma append_outcome (first second : SexpOrNull) :
  (∃ r, append first second = Ok r) ∨
  append first second = Throw (Error "Expected second.").
Proof.
  destruct second as [|second]; [| left; apply append_present].
  induction first as [a | p0 IH0 p1 IH1 | | s IH]
    using SexpOrNull_mut
    with (P := fun s => (∃ r, append (NotNull s) Null = Ok r) ∨
                        append (NotNull s) Null = Throw (Error "Expected second.")).
  - left. simpl. eauto.
  - simpl. destruct IH1 as [[r ->] | ->]; simpl; eauto.
  - right. reflexivity.
  - exact IH.
Qed.

Lemma append_invariant (first second : SexpOrNull) (r : Sexp) :
  pair_invariant_or_null first = true → pair_invariant_or_null second = true →
  append first second = Ok r → pair_invariant r = true.
Proof.
  intros Hfirst Hsecond. revert r Hfirst.
  induction first as [a | p0 IH0 p1 IH1 | | s IH]
    using SexpOrNull_mut
    with (P := fun s => ∀ r, pair_invariant s = true →
                 append (NotNull s) second = Ok r → pair_invariant r = true).
  - intros r _ [= <-]. simpl. now rewrite Hsecond.
  - intros r Hinv. simpl in Hinv. rewrite !andb_true_iff in Hinv.
    destruct Hinv as [[Hp Hp0] Hp1]. simpl.
    destruct (append p1 second) as [rest| | |] eqn:Hrest; simpl; try discriminate.
    intros [= <-]. simpl. rewrite Hp, Hp0. simpl. now apply IH1.
  - intros r _. simpl. destruct second as [|s]; [discriminate |].
    intros [= <-]. simpl. simpl in Hsecond. now rewrite Hsecond.
  - exact IH.
Qed.

(** Every s-expression the parser returns satisfies the invariant. *)
Lemma parse_fuel_invariant (fuel : nat) (tokens : list Token) :
  (∀ cursor c s, parse_fuel fuel tokens cursor = Ok (c, s) →
     pair_invariant_or_null s = true) ∧
  (∀ cursor siblings c s, pair_invariant_or_null siblings = true →
     parse_loop fuel tokens cursor siblings = Ok (c, s) →
     pair_invariant_or_null s = true).
Proof.
  induction fuel as [|fuel [IHp IHl]]; [split; intros; discriminate |].
  split.
  - intros cursor c s. rewrite parse_fuel_S.
    destruct (tokens !! cursor) as [t0|]; [| discriminate].
    destruct (String.eqb (value t0) "("); [| discriminate].
    now apply IHl.
  - intros cursor siblings c s Hsib. rewrite parse_loop_S.
    destruct (tokens !! cursor) as [t|]; [| now intros [= <- <-]].
    destruct (String.eqb (value t) "(").
    + destruct (parse_fuel fuel tokens cursor) as [[newCursor child]| | |] eqn:Hchild;
        simpl; try discriminate.
      destruct child as [|child]; [discriminate |].
      apply IHp in Hchild.
      destruct (append siblings (NotNull child)) as [siblings'| | |] eqn:Happ;
        simpl; try discriminate.
      apply IHl. exact (append_invariant _ _ _ Hsib Hchild Happ).
    + destruct (String.eqb (value t) ")"); [now intros [= <- <-] |].
      destruct (append siblings (NotNull (makeSexpAtom t))) as [siblings'| | |] eqn:Happ;
        simpl; try discriminate.
      apply IHl. exact (append_invariant _ (NotNull (makeSexpAtom t)) _ Hsib eq_refl Happ).
Qed.

Lemma parse_out_of_range (tokens : list Token) (cursor : nat) :
  (length tokens ≤ cursor)%nat → parse tokens cursor = Throw TypeError.
Proof.
  intros Hlen. unfold parse.
  replace (2 * length tokens + 2)%nat with (S (2 * length tokens + 1)) by lia.
  rewrite parse_fuel_S. now rewrite lookup_ge_None_2.
Qed.

(** C9. [append] applied to s-expressions that satisfy the invariant (each
    Pair has a present first component) returns one that satisfies it, and
    every s-expression [parse] returns satisfies it in each of its nodes;
    only the second component of a Pair can be the absence marker. *)
Theorem pair_first_present :
  (∀ (first second : SexpOrNull) (r : Sexp),
     pair_invariant_or_null first = true → pair_invariant_or_null second = true →
     append first second = Ok r → pair_invariant r = true) ∧
  (∀ (tokens : list Token) (cursor c : nat) (s : SexpOrNull),
     parse tokens cursor = Ok (c, s) → pair_invariant_or_null s = true).
Proof.
  split; [exact append_invariant |].
  intros tokens cursor c s. unfold parse. apply parse_fuel_invariant.
Qed.

Lemma pair_first_present_witness :
  pair_invariant (SexpPair (NotNull (SexpAtom (mkToken "a" Identifier)))
                    (NotNull (SexpPair (NotNull (SexpAtom (mkToken "b" Identifier)))
                                Null))) = true ∧
  pair_invariant_or_null
    (NotNull (SexpPair (NotNull (SexpAtom (mkToken "a" Identifier))) Null)) = true.
Proof.
  split.
  - apply (proj1 pair_first_present
             (NotNull (SexpPair (NotNull (SexpAtom (mkToken "a" Identifier))) Null))
             (NotNull (SexpAtom (mkToken "b" Identifier)))); reflexivity.
  - apply (proj2 pair_first_present
             [mkToken "(" Syntax; mkToken "a" Identifier; mkToken ")" Syntax] 0 2).
    reflexivity.
Defined.

(** C10. [parse] called with the cursor at or past the end of the tokens
    fails, with the [TypeError] of reading [value] on a token that does not
    exist, and returns nothing; so a program that lexes to no token at all
    makes [main] fail while it gathers the forms, before any evaluation. *)
Theorem parse_past_end :
  (∀ (tokens : list Token) (cursor : nat),
     (length tokens ≤ cursor)%nat → parse tokens cursor = Throw TypeError) ∧
  (∀ program : string,
     lex program = Ok [] →
     main_forms program = Throw TypeError ∧
     ∀ fuel, main fuel program = Throw TypeError) ∧
  (∀ program : string, whitespace_run program = true → lex program = Ok []).
Proof.
  pose proof parse_out_of_range as Hparse.
  split; [exact Hparse |]. split.
  - intros program Hlex.
    assert (main_forms program = Throw TypeError) as Hforms.
    { unfold main_forms. rewrite Hlex. cbn [obind append].
      rewrite Hparse by (simpl; lia). reflexivity. }
    split; [exact Hforms |]. intros fuel. unfold main. now rewrite Hforms.
  - exact lex_whitespace_only.
Qed.

Lemma parse_past_end_witness :
  parse [mkToken "(" Syntax] 1 = Throw TypeError ∧
  main 10 "  " = Throw TypeError ∧ lex "  " = Ok [].
Proof.
  split; [| split].
  - apply (proj1 parse_past_end). simpl. lia.
  - apply (proj1 (proj2 parse_past_end) "  "). reflexivity.
  - apply (proj2 (proj2 parse_past_end) "  "). reflexivity.
Defined.

(** ** Unterminated forms *)

Lemma close_index_nested (ts : list Token) (e d : nat) :
  close_index (S (e + d)) ts =
  match close_index e ts with
  | Some k => (fun j => S k + j)%nat <$> close_index d (drop (S k) ts)
  | None => None
  end.
Proof.
  revert e. induction ts as [|t ts IH]; intros e; [reflexivity |].
  cbn [close_index]. destruct (String.eqb (value t) "(").
  - pose proof (IH (S e)) as IH1. cbn [Nat.add] in IH1. rewrite IH1.
    destruct (close_index (S e) ts) as [k|]; [| reflexivity].
    simpl. destruct (close_index d (drop (S k) ts)); reflexivity.
  - destruct (String.eqb (value t) ")").
    + destruct e as [|e].
      * simpl. rewrite drop_0. destruct (close_index d ts); reflexivity.
      * cbn [Nat.add]. rewrite (IH e).
        destruct (close_index e ts) as [k|]; [| reflexivity].
        simpl. destruct (close_index d (drop (S k) ts)); reflexivity.
    + rewrite (IH e). destruct (close_index e ts) as [k|]; [| reflexivity].
      simpl. destruct (close_index d (drop (S k) ts)); reflexivity.
Qed.

Lemma no_empty_form_drop (ts : list Token) (n : nat) :
  no_empty_form ts = true → no_empty_form (drop n ts) = true.
Proof.
  revert ts. induction n as [|n IH]; intros ts H; [now rewrite drop_0 |].
  destruct ts as [|t ts]; [reflexivity |]. simpl.
  apply IH. simpl in H. now apply andb_true_iff in H as [_ H].
Qed.

Lemma parse_fuel_returns (fuel : nat) (tokens : list Token) :
  (∀ cursor t0,
     tokens !! cursor = Some t0 → value t0 = "(" →
     no_empty_form (drop (S cursor) tokens) = true →
     (2 * (length tokens - cursor) ≤ fuel)%nat →
     loop_returns tokens (S cursor) Null (parse_fuel fuel tokens cursor)) ∧
  (∀ cursor siblings,
     no_empty_form (drop cursor tokens) = true →
     (2 * (length tokens - cursor) < fuel)%nat →
     loop_returns tokens cursor siblings (parse_loop fuel tokens cursor siblings)).
Proof.
  induction fuel as [|fuel [IHp IHl]].
  { split; [| intros; lia]. intros cursor t0 Ht0 _ _ Hfuel.
    apply lookup_lt_Some in Ht0. lia. }
  split.
  - intros cursor t0 Ht0 Hopen Hne Hfuel. rewrite parse_fuel_S, Ht0, Hopen. simpl.
    apply lookup_lt_Some in Ht0. apply IHl; [assumption | lia].
  - intros cursor siblings Hne Hfuel. rewrite parse_loop_S.
    destruct (tokens !! cursor) as [t|] eqn:Ht.
    2:{ apply lookup_ge_None in Ht. exists cursor, siblings.
        rewrite (drop_ge tokens cursor) by assumption. simpl. auto. }
    pose proof (lookup_lt_Some _ _ _ Ht) as Hlt.
    unfold loop_returns. rewrite (drop_S _ _ _ Ht) in Hne |- *.
    cbn [close_index]. cbn [no_empty_form] in Hne.
    apply andb_true_iff in Hne as [Hhead Hne].
    destruct (String.eqb (value t) "(") eqn:Hopen.
    + (* a nested form *)
      apply String.eqb_eq in Hopen.
      destruct (IHp cursor t Ht Hopen Hne ltac:(lia)) as (c' & child & -> & Hc' & Hchild).
      cbn [obind]. destruct child as [|child].
      { destruct Hchild as [_ Hchild]; [reflexivity |].
        destruct (drop (S cursor) tokens) as [|t' ?]; [discriminate |].
        rewrite Hchild in Hhead. discriminate. }
      destruct (append_present siblings child) as [siblings' ->]. cbn [obind].
      assert (S cursor ≤ c')%nat as Hge.
      { destruct (close_index 0 (drop (S cursor) tokens)); lia. }
      destruct (IHl (S c') (NotNull siblings')) as (c & s & -> & Hc & Hs);
        [now apply (no_empty_form_drop tokens (S c')) in Hne'
         || (rewrite <- (Nat.sub_add (S cursor) (S c')) by lia;
             rewrite Nat.add_comm, <- drop_drop; now apply no_empty_form_drop)
        | lia |].
      exists c, s. split; [reflexivity |]. split; [| intros ->; now destruct Hs].
      rewrite (close_index_nested _ 0 0).
      destruct (close_index 0 (drop (S cursor) tokens)) as [k|] eqn:Hk.
      * subst c'. rewrite drop_drop.
        replace (S cursor + S k)%nat with (S (S cursor + k)) by lia.
        destruct (close_index 0 (drop (S (S cursor + k)) tokens)); simpl; lia.
      * simpl. rewrite (drop_ge tokens (S c')) in Hc by lia. exact Hc.
    + destruct (String.eqb (value t) ")") eqn:Hclose.
      * (* the closing parenthesis of this form *)
        apply String.eqb_eq in Hclose.
        exists cursor, siblings. split; [reflexivity |]. split; [lia | auto].
      * (* an atom *)
        destruct (append_present siblings (makeSexpAtom t)) as [siblings' ->].
        cbn [obind].
        destruct (IHl (S cursor) (NotNull siblings') Hne ltac:(lia))
          as (c & s & -> & Hc & Hs).
        exists c, s. split; [reflexivity |]. split; [| intros ->; now destruct Hs].
        destruct (close_index 0 (drop (S cursor) tokens)); simpl; lia.
Qed.

(** ** [parse] and the loop of [main] never run out of fuel *)

Lemma parse_fuel_cursor (fuel : nat) (tokens : list Token) :
  (∀ cursor c s, parse_fuel fuel tokens cursor = Ok (c, s) → (S cursor ≤ c)%nat) ∧
  (∀ cursor siblings c s,
     parse_loop fuel tokens cursor siblings = Ok (c, s) → (cursor ≤ c)%nat).
Proof.
  induction fuel as [|fuel [IHp IHl]]; [split; intros; discriminate |].
  split.
  - intros cursor c s. rewrite parse_fuel_S.
    destruct (tokens !! cursor) as [t0|]; [| discriminate].
    destruct (String.eqb (value t0) "("); [| discriminate].
    intros H%IHl. lia.
  - intros cursor siblings c s. rewrite parse_loop_S.
    destruct (tokens !! cursor) as [t|]; [| intros [= <- _]; lia].
    destruct (String.eqb (value t) "(").
    + destruct (parse_fuel fuel tokens cursor) as [[newCursor child]| | |] eqn:Hchild;
        cbn [obind]; try discriminate.
      apply IHp in Hchild. destruct child as [|child]; [discriminate |].
      destruct (append siblings (NotNull child)); cbn [obind]; try discriminate.
      intros H%IHl. lia.
    + destruct (String.eqb (value t) ")"); [intros [= <- _]; lia |].
      destruct (append siblings (NotNull (makeSexpAtom t))); cbn [obind];
        try discriminate.
      intros H%IHl. lia.
Qed.

Lemma parse_fuel_enough (fuel : nat) (tokens : list Token) :
  (∀ cursor, (0 < fuel)%nat → (2 * (length tokens - cursor) ≤ fuel)%nat →
     parse_fuel fuel tokens cursor ≠ OutOfFuel ∧
     parse_fuel fuel tokens cursor ≠ HostDefined) ∧
  (∀ cursor siblings, (2 * (length tokens - cursor) < fuel)%nat →
     parse_loop fuel tokens cursor siblings ≠ OutOfFuel ∧
     parse_loop fuel tokens cursor siblings ≠ HostDefined).
Proof.
  induction fuel as [|fuel [IHp IHl]]; [split; intros; lia |].
  split.
  - intros cursor _ Hfuel. rewrite parse_fuel_S.
    destruct (tokens !! cursor) as [t0|] eqn:Ht0; [| split; differ].
    apply lookup_lt_Some in Ht0.
    destruct (String.eqb (value t0) "("); [| split; differ].
    apply IHl. lia.
  - intros cursor siblings Hfuel. rewrite parse_loop_S.
    destruct (tokens !! cursor) as [t|] eqn:Ht; [| split; differ].
    apply lookup_lt_Some in Ht.
    destruct (String.eqb (value t) "(").
    + destruct (IHp cursor ltac:(lia) ltac:(lia)) as [Hp1 Hp2].
      destruct (parse_fuel fuel tokens cursor) as [[newCursor child]| | |] eqn:Hchild;
        cbn [obind]; [| split; differ | done | done].
      apply (proj1 (parse_fuel_cursor fuel tokens)) in Hchild.
      destruct child as [|child]; [split; differ |].
      destruct (append_present siblings child) as [siblings' ->]. cbn [obind].
      apply IHl. lia.
    + destruct (String.eqb (value t) ")"); [split; differ |].
      destruct (append_present siblings (makeSexpAtom t)) as [siblings' ->].
      cbn [obind]. apply IHl. lia.
Qed.

Lemma parse_total (tokens : list Token) (cursor : nat) :
  parse tokens cursor ≠ OutOfFuel ∧ parse tokens cursor ≠ HostDefined.
Proof. apply parse_fuel_enough; lia. Qed.

Lemma main_loop_S (fuel : nat) (tokens : list Token) (cursor : nat) (begin : Sexp) :
  main_loop (S fuel) tokens cursor begin =
  if Nat.eqb (S cursor) (length tokens) then Ok begin
  else
    let? (cursor', child) := parse tokens (cursor + 1) in
    let? begin' := append (NotNull begin) child in
    main_loop fuel tokens cursor' begin'.
Proof. reflexivity. Qed.

Lemma main_loop_total (fuel : nat) (tokens : list Token) (cursor : nat) (begin : Sexp) :
  (0 < fuel)%nat → (length tokens < fuel + S cursor)%nat →
  main_loop fuel tokens cursor begin ≠ OutOfFuel.
Proof.
  revert cursor begin. induction fuel as [|fuel IH]; intros cursor begin Hpos Hfuel; [lia |].
  rewrite main_loop_S. destruct (Nat.eqb (S cursor) (length tokens)); [differ |].
  destruct (Nat.le_gt_cases (length tokens) (cursor + 1)) as [Hout|Hin].
  { rewrite parse_out_of_range by assumption. differ. }
  pose proof (parse_total tokens (cursor + 1)) as [Hp _].
  destruct (parse tokens (cursor + 1)) as [[cursor' child]| | |] eqn:Hparse;
    cbn [obind]; [| differ | differ | done].
  apply (proj1 (parse_fuel_cursor _ tokens)) in Hparse.
  destruct (append_outcome (NotNull begin) child) as [[begin' ->] | ->];
    cbn [obind]; [| differ].
  apply IH; lia.
Qed.

Lemma main_forms_total (program : string) : main_forms program ≠ OutOfFuel.
Proof.
  unfold main_forms. pose proof (lex_total program) as Hlex.
  destruct (lex program) as [tokens| | |]; cbn [obind]; [| differ | differ | done].
  change (append (NotNull begin_atom) Null)
    with (Ok (makeSexpPair (NotNull begin_atom) Null)). cbn [obind].
  pose proof (parse_total tokens 0) as [Hp _].
  destruct (parse tokens 0) as [[cursor child]| | |] eqn:Hparse;
    cbn [obind]; [| differ | differ | done].
  pose proof Hparse as Hparse'.
  apply (proj1 (parse_fuel_cursor _ tokens)) in Hparse.
  destruct (append_outcome (NotNull (makeSexpPair (NotNull begin_atom) Null)) child)
    as [[begin' ->] | ->]; cbn [obind]; [| differ].
  destruct (Nat.le_gt_cases (length tokens) 0) as [Hout|Hin].
  { rewrite parse_out_of_range in Hparse' by assumption. discriminate. }
  apply main_loop_total; lia.
Qed.

(** ** The printer and the lexer *)

Lemma string_existsb_app (p : ascii → bool) (a b : string) :
  string_existsb p (a ++ b) = string_existsb p a || string_existsb p b.
Proof.
  induction a as [|c a IH]; [reflexivity |].
  rewrite string_app_cons. simpl. now rewrite IH, orb_assoc.
Qed.

(** [pretty] succeeds on every s-expression that satisfies the invariant. *)
Lemma pretty_invariant (s : Sexp) :
  pair_invariant s = true → ∃ text, pretty (NotNull s) = Ok text.
Proof.
  induction s as [a | p0 IH0 p1 IH1 | | s IH]
    using Sexp_mut
    with (P0 := fun o => pair_invariant_or_null o = true →
                  match o with
                  | Null => True
                  | NotNull s => ∃ text, pretty (NotNull s) = Ok text
                  end).
  - intros _. simpl. eauto.
  - intros H. simpl in H. rewrite !andb_true_iff in H. destruct H as [[Hp Hp0] Hp1].
    destruct p0 as [|f]; [discriminate |].
    destruct (IH0 Hp0) as [text0 H0].
    destruct p1 as [|r].
    + cbn [pretty] in *. rewrite H0. cbn [obind]. eauto.
    + destruct (IH1 Hp1) as [text1 H1].
      cbn [pretty] in *. rewrite H0. cbn [obind]. rewrite H1. cbn [obind]. eauto.
  - trivial.
  - exact IH.
Qed.

(** The text of a Pair holds a dot, for which the lexer has no rule. *)
Lemma pretty_pair_dot (p0 p1 : SexpOrNull) (text : string) :
  pretty (NotNull (SexpPair p0 p1)) = Ok text →
  string_existsb (fun c => negb (lexable c)) text = true.
Proof.
  cbn [pretty]. destruct (pretty p0) as [text0| | |]; try (destruct p1; discriminate).
  destruct p1 as [|r]; cbn [obind].
  - intros [= <-]. rewrite !string_existsb_app. cbn. now rewrite !orb_true_r.
  - destruct (pretty (NotNull r)) as [text1| | |]; cbn [obind]; try discriminate.
    intros [= <-]. rewrite !string_existsb_app. cbn. now rewrite !orb_true_r.
Qed.

(** A list built by [append] is a Pair. *)
Lemma append_pair (first second : SexpOrNull) (r : Sexp) :
  append first second = Ok r → ∃ p0 p1, r = SexpPair p0 p1.
Proof.
  destruct first as [|[a|p0 p1]]; cbn [append].
  - destruct second; [discriminate |]. intros [= <-]. unfold makeSexpPair. eauto.
  - intros [= <-]. unfold makeSexpPair. eauto.
  - destruct (append p1 second); cbn [obind]; try discriminate.
    intros [= <-]. unfold makeSexpPair. eauto.
Qed.

Lemma parse_fuel_pair (fuel : nat) (tokens : list Token) :
  (∀ cursor c s, parse_fuel fuel tokens cursor = Ok (c, s) → pair_or_null s) ∧
  (∀ cursor siblings c s, pair_or_null siblings →
     parse_loop fuel tokens cursor siblings = Ok (c, s) → pair_or_null s).
Proof.
  induction fuel as [|fuel [IHp IHl]]; [split; intros; discriminate |].
  split.
  - intros cursor c s. rewrite parse_fuel_S.
    destruct (tokens !! cursor) as [t0|]; [| discriminate].
    destruct (String.eqb (value t0) "("); [| discriminate].
    now apply IHl.
  - intros cursor siblings c s Hsib. rewrite parse_loop_S.
    destruct (tokens !! cursor) as [t|]; [| now intros [= <- <-]].
    destruct (String.eqb (value t) "(").
    + destruct (parse_fuel fuel tokens cursor) as [[newCursor child]| | |];
        cbn [obind]; try discriminate.
      destruct child as [|child]; [discriminate |].
      destruct (append siblings (NotNull child)) as [siblings'| | |] eqn:Happ;
        cbn [obind]; try discriminate.
      apply IHl. apply append_pair in Happ as (p0 & p1 & ->). exact I.
    + destruct (String.eqb (value t) ")"); [now intros [= <- <-] |].
      destruct (append siblings (NotNull (makeSexpAtom t))) as [siblings'| | |] eqn:Happ;
        cbn [obind]; try discriminate.
      apply IHl. apply append_pair in Happ as (p0 & p1 & ->). exact I.
Qed.

(** C6 (as amended). For every program whose first form parses to an
    s-expression, [pretty] prints it as dotted-pair text and [lex] rejects
    that text with an unknown-token error, the dot being no lexeme: the
    printed output cannot be parsed again, so there is no round trip
    through the printer. *)
Theorem pretty_output_not_lexable (program : string) (tokens : list Token) (c : nat)
    (s : Sexp) :
  lex program = Ok tokens → parse tokens 0 = Ok (c, NotNull s) →
  ∃ text msg,
    pretty (NotNull s) = Ok text ∧
    lex text = Throw (Error msg) ∧
    print_and_reparse program = Throw (Error msg).
Proof.
  intros Hlex Hparse.
  pose proof (proj1 (parse_fuel_invariant _ tokens) _ _ _ Hparse) as Hinv.
  pose proof (proj1 (parse_fuel_pair _ tokens) _ _ _ Hparse) as Hpair.
  destruct s as [a | p0 p1]; [destruct Hpair |].
  destruct (pretty_invariant (SexpPair p0 p1) Hinv) as [text Htext].
  destruct (lex_unlexable text (pretty_pair_dot _ _ _ Htext)) as [msg Hmsg].
  exists text, msg. split; [assumption |]. split; [assumption |].
  unfold print_and_reparse. rewrite Hlex. cbn [obind]. rewrite Hparse. cbn [obind].
  rewrite Htext. cbn [obind]. now rewrite Hmsg.
Qed.

Lemma pretty_output_not_lexable_witness :
  ∃ text msg,
    pretty (NotNull (SexpPair (NotNull (SexpAtom (mkToken "a" Identifier))) Null))
    = Ok text ∧
    lex text = Throw (Error msg) ∧
    print_and_reparse "(a)" = Throw (Error msg).
Proof.
  apply (pretty_output_not_lexable "(a)"
           [mkToken "(" Syntax; mkToken "a" Identifier; mkToken ")" Syntax] 2);
    reflexivity.
Defined.

(** C6 as stated fails: ["(a b)"] parses to a two-element list, printed
    as ["(a . (b . NIL))"], and lexing that text stops at the first dot;
    nothing is parsed again. *)
Lemma print_and_reparse_fails :
  (let? tokens := lex "(a b)" in let? (_, s) := parse tokens 0 in pretty s)
  = Ok "(a . (b . NIL))" ∧
  lex "(a . (b . NIL))" = Throw (Error "Unknown token near '. (b . NIL))' at index '3'") ∧
  print_and_reparse "(a b)"
  = Throw (Error "Unknown token near '. (b . NIL))' at index '3'").
Proof. repeat split. Qed.

(** ** The evaluator, step by step *)

(** What the table inherits is a function or [Object.prototype]. *)
Lemma builtins_get_inherited (key : string) (v : Value) :
  builtins_get key = Inherited v → (∃ f, v = VInherited f) ∨ v = VObjectPrototype.
Proof.
  unfold builtins_get, object_prototype_get.
  repeat match goal with
         | |- context [if ?c then _ else _] => destruct c; try discriminate
         end;
    intros [= <-]; eauto.
Qed.

Lemma evalLisp_atom (fuel : nat) (atom : Token) (ctx : CtxRef) (st : Store) :
  kind atom ≠ Integer →
  evalLisp (S fuel) (NotNull (SexpAtom atom)) ctx st =
  if truthy (store_get st ctx (value atom))
  then Ok (store_get st ctx (value atom), st)
  else lookup_builtin (value atom) ctx st.
Proof.
  intros Hkind. cbn [evalLisp]. destruct (kind atom); [congruence | |];
    unfold ebind, ctx_get; cbn [obind];
    destruct (truthy (store_get st ctx (value atom))); reflexivity.
Qed.

(** An identifier the context leaves to the table, and the table has. *)
Lemma evalLisp_builtin (fuel : nat) (name : string) (b : Builtin) (ctx : CtxRef)
    (st : Store) :
  truthy (store_get st ctx name) = false → builtins_get name = Own b →
  evalLisp (S fuel) (NotNull (SexpAtom (mkToken name Identifier))) ctx st
  = Ok (VBuiltin b ctx, st).
Proof.
  intros Hfalsy Hown. rewrite evalLisp_atom by discriminate. cbn [value].
  rewrite Hfalsy. unfold lookup_builtin. now rewrite Hown.
Qed.

Lemma evalLisp_pair (fuel : nat) (pair0 pair1 : SexpOrNull) (ctx : CtxRef) :
  evalLisp (S fuel) (NotNull (SexpPair pair0 pair1)) ctx =
  do fn <- evalLisp fuel pair0 ctx;
  if negb (truthy fn) then
    do p <- lift (pretty pair0);
    throw (Error ("Unknown function: " ++ p))
  else if negb (is_function fn) then
    do p <- lift (pretty pair0);
    throw (Error ("Not a function: " ++ p))
  else
    match pair1 with
    | NotNull (SexpPair args0 args1) => call (evalLisp fuel) fn args0 args1 ctx
    | NotNull (SexpAtom _) =>
        do p <- lift (pretty pair1);
        throw (Error ("Not a linked list: " ++ p))
    | Null => throw (Error "Not a linked list: null")
    end.
Proof. reflexivity. Qed.

(** A call form whose head is such an identifier runs the builtin. *)
Lemma evalLisp_call_builtin (fuel : nat) (name : string) (b : Builtin)
    (args0 args1 : SexpOrNull) (ctx : CtxRef) (st : Store) :
  truthy (store_get st ctx name) = false → builtins_get name = Own b →
  evalLisp (S (S fuel)) (call_form name (NotNull (SexpPair args0 args1))) ctx st
  = call_builtin (evalLisp (S fuel)) b ctx args0 args1 st.
Proof.
  intros Hfalsy Hown. unfold call_form. rewrite evalLisp_pair.
  unfold ebind at 1. rewrite (evalLisp_builtin fuel name b ctx st Hfalsy Hown).
  reflexivity.
Qed.

(** A call form without arguments never reaches its callable. *)
Lemma evalLisp_call_no_arguments (fuel : nat) (name : string) (b : Builtin)
    (ctx : CtxRef) (st : Store) :
  truthy (store_get st ctx name) = false → builtins_get name = Own b →
  evalLisp (S (S fuel)) (call_form name Null) ctx st
  = Throw (Error "Not a linked list: null").
Proof.
  intros Hfalsy Hown. unfold call_form. rewrite evalLisp_pair.
  unfold ebind at 1. rewrite (evalLisp_builtin fuel name b ctx st Hfalsy Hown).
  reflexivity.
Qed.

(** A call form whose head is a name the table inherits calls the
    inherited function. *)
Lemma evalLisp_call_inherited (fuel : nat) (name : string) (f : PrototypeFunction)
    (args0 args1 : SexpOrNull) (ctx : CtxRef) (st : Store) :
  truthy (store_get st ctx name) = false → builtins_get name = Inherited (VInherited f) →
  evalLisp (S (S fuel)) (call_form name (NotNull (SexpPair args0 args1))) ctx st
  = call_inherited f args0 args1 st.
Proof.
  intros Hfalsy Hget. unfold call_form. rewrite evalLisp_pair. unfold ebind at 1.
  rewrite evalLisp_atom by discriminate. cbn [value]. rewrite Hfalsy.
  unfold lookup_builtin. rewrite Hget. reflexivity.
Qed.




(** ** More fuel, same result *)

Lemma outcome_le_refl {A : Type} (r : Outcome A) : outcome_le r r.
Proof. now right. Qed.

Lemma ebind_le {A B : Type} (m m' : Eval A) (k k' : A → Eval B) (st : Store) :
  outcome_le (m st) (m' st) →
  (∀ a st1, outcome_le (k a st1) (k' a st1)) →
  outcome_le (ebind m k st) (ebind m' k' st).
Proof.
  intros [Hm | Hm] Hk; unfold ebind; rewrite Hm; [now left |].
  destruct (m' st) as [[a st1]| | |]; cbn [obind]; [apply Hk | now right..].
Qed.

Section Monotone.

Variables ev ev' : SexpOrNull → CtxRef → Eval Value.
Hypothesis Hev : evaluator_le ev ev'.

Lemma evalLispArgs_le (args : SexpOrNull) (ctx : CtxRef) (st : Store) :
  outcome_le (evalLispArgs ev args ctx st) (evalLispArgs ev' args ctx st).
Proof.
  revert st.
  induction args as [a | p0 IH0 p1 IH1 | | s IH]
    using SexpOrNull_mut
    with (P := fun s => ∀ st, outcome_le (evalLispArgs ev (NotNull s) ctx st)
                                (evalLispArgs ev' (NotNull s) ctx st)); intros st.
  - apply outcome_le_refl.
  - cbn [evalLispArgs]. apply ebind_le; [apply Hev |]. intros v st1.
    apply ebind_le; [apply IH1 |]. intros; apply outcome_le_refl.
  - apply outcome_le_refl.
  - apply IH.
Qed.

Lemma begin_loop_le (res : Value) (current : SexpOrNull) (ctx : CtxRef) (st : Store) :
  outcome_le (begin_loop ev res current ctx st) (begin_loop ev' res current ctx st).
Proof.
  revert res st.
  induction current as [a | p0 IH0 p1 IH1 | | s IH]
    using SexpOrNull_mut
    with (P := fun s => ∀ res st, outcome_le (begin_loop ev res (NotNull s) ctx st)
                                    (begin_loop ev' res (NotNull s) ctx st));
    intros res st.
  - apply outcome_le_refl.
  - cbn [begin_loop]. apply ebind_le; [apply Hev |]. intros v st1. apply IH1.
  - apply outcome_le_refl.
  - apply IH.
Qed.

Lemma call_builtin_le (b : Builtin) (ctx : CtxRef) (args0 args1 : SexpOrNull) (st : Store) :
  outcome_le (call_builtin ev b ctx args0 args1 st) (call_builtin ev' b ctx args0 args1 st).
Proof.
  destruct b; cbn [call_builtin].
  - apply ebind_le; [apply evalLispArgs_le |]. intros; apply outcome_le_refl.
  - destruct args1 as [|[a|then_ args11]]; try apply outcome_le_refl.
    destruct args11 as [|[a|else_ rest]]; try apply outcome_le_refl.
    apply ebind_le; [apply Hev |]. intros test st1.
    destruct (truthy test); apply Hev.
  - destruct args0 as [|[name|? ?]]; try apply outcome_le_refl.
    destruct args1 as [|[a|body rest]]; try apply outcome_le_refl.
    apply ebind_le; [apply Hev |]. intros; apply outcome_le_refl.
  - apply outcome_le_refl.
  - apply ebind_le; [apply Hev |]. intros res st1. apply begin_loop_le.
  - apply ebind_le; [apply evalLispArgs_le |]. intros; apply outcome_le_refl.
  - apply ebind_le; [apply evalLispArgs_le |]. intros; apply outcome_le_refl.
Qed.

Lemma call_lambda_le (params body args0 args1 : SexpOrNull) (callCtx : CtxRef) (st : Store) :
  outcome_le (call_lambda ev params body args0 args1 callCtx st)
    (call_lambda ev' params body args0 args1 callCtx st).
Proof.
  unfold call_lambda. apply ebind_le; [apply evalLispArgs_le |]. intros vs st1.
  apply ebind_le; [apply outcome_le_refl |]. intros child st2.
  apply ebind_le; [apply outcome_le_refl |]. intros _ st3.
  apply ebind_le; [apply outcome_le_refl |]. intros begin st4. apply Hev.
Qed.

Lemma call_le (fn : Value) (args0 args1 : SexpOrNull) (callCtx : CtxRef) (st : Store) :
  outcome_le (call ev fn args0 args1 callCtx st) (call ev' fn args0 args1 callCtx st).
Proof.
  destruct fn; cbn [call]; try apply outcome_le_refl;
    [apply call_builtin_le | apply call_lambda_le].
Qed.

End Monotone.

Lemma evalLisp_step_le (fuel : nat) : evaluator_le (evalLisp fuel) (evalLisp (S fuel)).
Proof.
  induction fuel as [|fuel IH]; [intros ast ctx st; now left |].
  intros ast ctx st. destruct ast as [|[atom|pair0 pair1]]; try apply outcome_le_refl.
  rewrite !evalLisp_pair. apply ebind_le; [apply IH |]. intros fn st1.
  destruct (negb (truthy fn)); [apply outcome_le_refl |].
  destruct (negb (is_function fn)); [apply outcome_le_refl |].
  destruct pair1 as [|[a|args0 args1]]; try apply outcome_le_refl.
  now apply call_le.
Qed.

Lemma evalLisp_fuel_le (fuel fuel' : nat) :
  (fuel ≤ fuel')%nat → evaluator_le (evalLisp fuel) (evalLisp fuel').
Proof.
  induction 1 as [|fuel' _ IH]; [intros ? ? ?; apply outcome_le_refl |].
  intros ast ctx st. destruct (IH ast ctx st) as [H | H]; [now left |].
  rewrite H. apply evalLisp_step_le.
Qed.

(** Once [main] has a result, every larger fuel gives the same one. *)
Lemma main_fuel_le (fuel fuel' : nat) (program : string) (r : Outcome Value) :
  (fuel ≤ fuel')%nat → main fuel program = r → r ≠ OutOfFuel → main fuel' program = r.
Proof.
  intros Hle <- Hr. unfold main in *.
  destruct (main_forms program) as [begin| | |]; cbn [obind] in *; try reflexivity.
  destruct (evalLisp_fuel_le fuel fuel' Hle (NotNull begin) 0 [∅]) as [H | H].
  - rewrite H in Hr. now contradiction Hr.
  - now rewrite H.
Qed.

(** ** Falsy bindings *)




(** ** The builtin [if] *)

(** C2. In a call form [(if test then else)] whose head resolves to the
    builtin, the test is evaluated first; a truthy value makes the result
    that of evaluating the then-expression, any other value that of
    evaluating the else-expression, in the store the test left, so the
    branch not selected is not evaluated and its effects do not occur; a
    form without a then slot or without an else slot fails. *)
Theorem if_selects_branch (fuel : nat) (test then_ else_ rest : SexpOrNull)
    (ctx : CtxRef) (st : Store) :
  truthy (store_get st ctx "if") = false →
  (∀ v st1,
     evalLisp (S fuel) test ctx st = Ok (v, st1) →
     evalLisp (S (S fuel))
       (call_form "if"
          (NotNull (SexpPair test
             (NotNull (SexpPair then_ (NotNull (SexpPair else_ rest))))))) ctx st
     = if truthy v then evalLisp (S fuel) then_ ctx st1
       else evalLisp (S fuel) else_ ctx st1) ∧
  (∀ tail, (tail = Null ∨ ∃ a, tail = NotNull (SexpAtom a)) →
     evalLisp (S (S fuel)) (call_form "if" (NotNull (SexpPair test tail))) ctx st
     = Throw (Error "Expected a true-branch")) ∧
  (∀ tail, (tail = Null ∨ ∃ a, tail = NotNull (SexpAtom a)) →
     evalLisp (S (S fuel))
       (call_form "if" (NotNull (SexpPair test (NotNull (SexpPair then_ tail))))) ctx st
     = Throw (Error "Expected a false-branch")) ∧
  main 8 "(if (<= 1 2) (def a 1) (def b 2)) (+ b)" = Throw (Error "Undefined value: b") ∧
  main 8 "(if (<= 2 1) (def a 1) (def b 2)) (+ a)" = Throw (Error "Undefined value: a").
Proof.
  intros Hif. repeat split.
  - intros v st1 Htest. rewrite (evalLisp_call_builtin _ "if" BIf) by auto.
    cbn [call_builtin]. unfold ebind. rewrite Htest. cbn [obind].
    destruct (truthy v); reflexivity.
  - intros tail Htail. rewrite (evalLisp_call_builtin _ "if" BIf) by auto.
    cbn [call_builtin]. destruct Htail as [-> | [a ->]]; reflexivity.
  - intros tail Htail. rewrite (evalLisp_call_builtin _ "if" BIf) by auto.
    cbn [call_builtin]. destruct Htail as [-> | [a ->]]; reflexivity.
Qed.

Lemma if_selects_branch_witness :
  evalLisp 3
    (call_form "if"
       (NotNull (SexpPair (NotNull (SexpAtom (mkToken "1" Integer)))
          (NotNull (SexpPair (NotNull (SexpAtom (mkToken "10" Integer)))
             (NotNull (SexpPair (NotNull (SexpAtom (mkToken "20" Integer))) Null))))))) 0 [∅]
  = evalLisp 2 (NotNull (SexpAtom (mkToken "10" Integer))) 0 [∅].
Proof.
  assert (truthy (store_get [∅] 0 "if") = false) as Hif by (vm_compute; reflexivity).
  exact (proj1 (if_selects_branch 1
                  (NotNull (SexpAtom (mkToken "1" Integer)))
                  (NotNull (SexpAtom (mkToken "10" Integer)))
                  (NotNull (SexpAtom (mkToken "20" Integer))) Null 0 [∅] Hif)
           (VNumber (Finite 1)) [∅] eq_refl).
Defined.

(** ** Numbers are doubles *)

Section Numbers.

Local Open Scope Z_scope.

(** An integer with at most 53 significant bits, below the overflow
    threshold, is a double, and so is its opposite. *)
Lemma round_double_exact (a : Z) (e : Z) (k : Z) :
  0 < e → 2 ^ 52 ≤ k < 2 ^ 53 → a = k * 2 ^ e → a < 2 ^ 1024 →
  round_double a = Finite a ∧ round_double (- a) = Finite (- a).
Proof.
  intros He Hk Ha Hlt.
  assert (0 < 2 ^ e) as Hpow by (apply Z.pow_pos_nonneg; lia).
  assert (2 ^ 53 ≤ a) as Hbig.
  { subst a. replace (2 ^ 53) with (2 ^ 52 * 2 ^ 1) by reflexivity.
    apply Z.mul_le_mono_nonneg; try lia.
    apply Z.pow_le_mono_r; lia. }
  assert (Z.log2 a = 52 + e) as Hlog.
  { apply Z.log2_unique; [lia |]. rewrite Z.pow_succ_r, !Z.pow_add_r by lia.
    subst a. split.
    - apply Z.mul_le_mono_nonneg_r; lia.
    - rewrite Z.mul_assoc. apply Z.mul_lt_mono_pos_r; lia. }
  assert (Hcore : ∀ z, Z.abs z = a → round_double z = Finite z).
  { intros z Hz. unfold round_double. rewrite Hz.
    replace (a <? 2 ^ 53) with false by (symmetry; apply Z.ltb_ge; lia).
    rewrite Hlog. replace (52 + e - 52) with e by lia.
    assert (a / 2 ^ e = k) as -> by (subst a; apply Z.div_mul; lia).
    assert (a mod 2 ^ e = 0) as -> by (subst a; apply Z.mod_mul; lia).
    assert (0 < 2 ^ (e - 1)) as Hhalf by (apply Z.pow_pos_nonneg; lia).
    replace (2 ^ (e - 1) <? 0) with false by (symmetry; apply Z.ltb_ge; lia).
    replace (0 =? 2 ^ (e - 1)) with false by (symmetry; apply Z.eqb_neq; lia).
    cbn [orb andb]. rewrite <- Ha.
    replace (2 ^ 1024 <=? a) with false by (symmetry; apply Z.leb_gt; lia).
    f_equal. rewrite <- Hz, Z.mul_comm. apply Z.abs_sgn. }
  split; apply Hcore; lia.
Qed.

(** What [round_double] returns is a double. *)
Lemma round_double_idempotent (z y : Z) :
  round_double z = Finite y → round_double y = Finite y.
Proof.
  unfold round_double at 1. cbv zeta. destruct (Z.abs z <? 2 ^ 53) eqn:Hsmall.
  { intros [= <-]. unfold round_double. now rewrite Hsmall. }
  apply Z.ltb_ge in Hsmall.
  set (a := Z.abs z) in *. set (e := Z.log2 a - 52).
  assert (53 ≤ Z.log2 a) as Hlog.
  { rewrite <- (Z.log2_pow2 53) by lia. apply Z.log2_le_mono. exact Hsmall. }
  assert (0 < e) as He by (unfold e; lia).
  assert (0 < 2 ^ e) as Hpow by (apply Z.pow_pos_nonneg; lia).
  assert (0 < a) as Hpos by lia.
  pose proof (Z.log2_spec a Hpos) as [Hlo Hhi].
  replace (Z.log2 a) with (52 + e) in Hlo, Hhi by (unfold e; lia).
  rewrite Z.pow_succ_r, Z.pow_add_r in Hhi by lia. rewrite Z.pow_add_r in Hlo by lia.
  set (q := a / 2 ^ e).
  assert (2 ^ 52 ≤ q < 2 ^ 53) as Hq.
  { unfold q. split.
    - apply Z.div_le_lower_bound; lia.
    - apply Z.div_lt_upper_bound; [lia |].
      change (2 ^ 53) with (2 * 2 ^ 52). lia. }
  set (q' := if (2 ^ (e - 1) <? a mod 2 ^ e) || ((a mod 2 ^ e =? 2 ^ (e - 1)) && Z.odd q)
             then q + 1 else q).
  assert (q' = q ∨ q' = q + 1) as Hq'
    by (unfold q'; destruct ((2 ^ (e - 1) <? a mod 2 ^ e) || _); auto).
  destruct (2 ^ 1024 <=? q' * 2 ^ e) eqn:Hover; [destruct (0 <? z); discriminate |].
  apply Z.leb_gt in Hover. intros [= <-].
  assert (∃ k e', 0 < e' ∧ 2 ^ 52 ≤ k < 2 ^ 53 ∧ q' * 2 ^ e = k * 2 ^ e')
    as (k & e' & He' & Hk & Heq).
  { destruct (Z.eq_dec q' (2 ^ 53)) as [Htop | Hne].
    - exists (2 ^ 52), (e + 1). split; [lia |]. split; [lia |].
      rewrite Htop, Z.pow_add_r by lia. change (2 ^ 53) with (2 ^ 52 * 2 ^ 1). ring.
    - exists q', e. split; [lia |]. split; [lia | reflexivity]. }
  destruct (round_double_exact (q' * 2 ^ e) e' k He' Hk Heq Hover) as [Hp Hn].
  assert (z ≠ 0) as Hz by (unfold a in Hsmall; lia).
  destruct (Z.sgn_spec z) as [[_ ->] | [[? _] | [_ ->]]]; [| lia |].
  - now rewrite Z.mul_1_l.
  - replace (-1 * (q' * 2 ^ e)) with (- (q' * 2 ^ e)) by ring. exact Hn.
Qed.

(** Sums, differences and literals are doubles. *)
Lemma num_add_double (a b : Number) : number_is_double (num_add a b).
Proof.
  destruct a as [x| | |], b as [y| | |]; simpl; trivial.
  destruct (round_double (x + y)) as [s| | |] eqn:Hs; simpl; trivial.
  exact (round_double_idempotent _ _ Hs).
Qed.

Lemma num_sub_double (a b : Number) :
  number_is_double a → number_is_double b → number_is_double (num_sub a b).
Proof.
  destruct a as [x| | |], b as [y| | |]; simpl; trivial.
  intros _ _. destruct (round_double (x - y)) as [s| | |] eqn:Hs; simpl; trivial.
  exact (round_double_idempotent _ _ Hs).
Qed.

Lemma to_number_double (s : string) (n : Number) :
  to_number s = Ok n → number_is_double n.
Proof.
  unfold to_number. destruct s as [|c s]; [discriminate |].
  destruct (all_digits (String c s)); [| discriminate].
  intros [= <-]. destruct (round_double _) as [y| | |] eqn:Hy; simpl; trivial.
  exact (round_double_idempotent _ _ Hy).
Qed.

End Numbers.

(** ** The builtins [+], [-] and [<=] *)

Lemma plus_loop_numbers (ns : list Number) (res : Number) :
  plus_loop res (map VNumber ns) = Ok (fold_left num_add ns res).
Proof. revert res. induction ns as [|n ns IH]; intros res; simpl; [reflexivity | apply IH]. Qed.

Lemma minus_loop_numbers (ns : list Number) (res : Number) :
  minus_loop res (map VNumber ns) = Ok (fold_left num_sub ns res).
Proof. revert res. induction ns as [|n ns IH]; intros res; simpl; [reflexivity | apply IH]. Qed.

Lemma plus_loop_non_number (vs : list Value) (res : Number) :
  existsb (fun v => negb (is_number v)) vs = true →
  plus_loop res vs = Throw (Error "+ expects number arguments.").
Proof.
  revert res. induction vs as [|v vs IH]; intros res; simpl; [discriminate |].
  destruct v; simpl; try reflexivity. apply IH.
Qed.

Lemma minus_loop_non_number (vs : list Value) (res : Number) :
  existsb (fun v => negb (is_number v)) vs = true →
  minus_loop res vs = Throw (Error "- expects number arguments.").
Proof.
  revert res. induction vs as [|v vs IH]; intros res; simpl; [discriminate |].
  destruct v; simpl; try reflexivity. apply IH.
Qed.

Lemma round_double_small (z : Z) : (Z.abs z < 2 ^ 53)%Z → round_double z = Finite z.
Proof. intros H. unfold round_double. apply Z.ltb_lt in H. now rewrite H. Qed.

Lemma sum_numbers_safe (zs : list Z) (acc : Z) :
  partial_sums_safe acc zs →
  fold_left num_add (map Finite zs) (Finite acc) = Finite (fold_left Z.add zs acc).
Proof.
  revert acc. induction zs as [|z zs IH]; intros acc; simpl; [reflexivity |].
  intros [Hz Hzs]. rewrite round_double_small by assumption. now apply IH.
Qed.

(** A call of [+] whose arguments hold a value that is no Number fails. *)
Lemma plus_rejects_non_number (fuel : nat) (args0 args1 : SexpOrNull) (ctx : CtxRef)
    (st st1 : Store) (vs : list Value) :
  truthy (store_get st ctx "+") = false →
  evalLispArgs (evalLisp (S fuel)) (NotNull (SexpPair args0 args1)) ctx st = Ok (vs, st1) →
  existsb (fun v => negb (is_number v)) vs = true →
  evalLisp (S (S fuel)) (call_form "+" (NotNull (SexpPair args0 args1))) ctx st
  = Throw (Error "+ expects number arguments.").
Proof.
  intros Hplus Hargs Hvs. rewrite (evalLisp_call_builtin _ "+" BPlus) by auto.
  cbn [call_builtin]. unfold ebind at 1. rewrite Hargs. cbn [obind].
  unfold ebind, lift. now rewrite plus_loop_non_number.
Qed.

(** A call of [-] whose arguments hold a value that is no Number fails. *)
Lemma minus_rejects_non_number (fuel : nat) (args0 args1 : SexpOrNull) (ctx : CtxRef)
    (st st1 : Store) (vs : list Value) :
  truthy (store_get st ctx "-") = false →
  evalLispArgs (evalLisp (S fuel)) (NotNull (SexpPair args0 args1)) ctx st = Ok (vs, st1) →
  existsb (fun v => negb (is_number v)) vs = true →
  evalLisp (S (S fuel)) (call_form "-" (NotNull (SexpPair args0 args1))) ctx st
  = Throw (Error "- expects number arguments.").
Proof.
  intros Hminus Hargs Hvs. rewrite (evalLisp_call_builtin _ "-" BMinus) by auto.
  cbn [call_builtin]. unfold ebind at 1. rewrite Hargs. cbn [obind].
  destruct vs as [|v vs]; [discriminate |]. simpl in Hvs. cbn [lookup list_lookup default].
  destruct v; try reflexivity. simpl in Hvs.
  unfold ebind, lift, id. cbn [drop]. now rewrite minus_loop_non_number.
Qed.

(** [<=] applied to two Numbers is the numeric comparison. *)
Lemma less_eq_numbers (fuel : nat) (args0 args1 : SexpOrNull) (ctx : CtxRef)
    (st st1 : Store) (a b : Number) (rest : list Value) :
  truthy (store_get st ctx "<=") = false →
  evalLispArgs (evalLisp (S fuel)) (NotNull (SexpPair args0 args1)) ctx st
  = Ok (VNumber a :: VNumber b :: rest, st1) →
  evalLisp (S (S fuel)) (call_form "<=" (NotNull (SexpPair args0 args1))) ctx st
  = Ok (VBoolean (num_le a b), st1).
Proof.
  intros Hle Hargs. rewrite (evalLisp_call_builtin _ "<=" BLessEq) by auto.
  cbn [call_builtin]. unfold ebind at 1. rewrite Hargs. now destruct a, b.
Qed.

(** C1 (as amended). A call form of [+] with at least one argument, all of
    whose arguments evaluate to Numbers, evaluates to their sum: JavaScript
    addition from 0, left to right, which is the exact integer sum as long
    as the partial sums stay below [2^53] in magnitude. [(+ a)] is [a],
    and ["(+ 1 2 3)"] evaluates to 6. A form without arguments, [(+ )],
    never reaches the builtin: [evalLisp] fails on the absent argument
    list with "Not a linked list: null". *)
Theorem plus_sums (fuel : nat) (args0 args1 : SexpOrNull) (ctx : CtxRef)
    (st st1 : Store) (ns : list Number) :
  truthy (store_get st ctx "+") = false →
  evalLispArgs (evalLisp (S fuel)) (NotNull (SexpPair args0 args1)) ctx st
  = Ok (map VNumber ns, st1) →
  evalLisp (S (S fuel)) (call_form "+" (NotNull (SexpPair args0 args1))) ctx st
  = Ok (VNumber (sum_numbers ns), st1) ∧
  (∀ n, ns = [n] → number_is_double n → sum_numbers ns = n) ∧
  (∀ zs, ns = map Finite zs → partial_sums_safe 0 zs →
     sum_numbers ns = Finite (fold_left Z.add zs 0%Z)) ∧
  evalLisp (S (S fuel)) (call_form "+" Null) ctx st
  = Throw (Error "Not a linked list: null") ∧
  (∀ fuel', main (5 + fuel') "(+ 1 2 3)" = Ok (VNumber (Finite 6))) ∧
  (∀ fuel', main (4 + fuel') "(+ )" = Throw (Error "Not a linked list: null")).
Proof.
  intros Hplus Hargs. refine (conj _ (conj _ (conj _ (conj _ (conj _ _))))).
  - rewrite (evalLisp_call_builtin _ "+" BPlus) by auto.
    cbn [call_builtin]. unfold ebind at 1. rewrite Hargs. cbn [obind].
    unfold ebind, lift. now rewrite plus_loop_numbers.
  - intros n -> Hn. unfold sum_numbers. simpl.
    destruct n as [z| | |]; try reflexivity. exact Hn.
  - intros zs -> Hzs. unfold sum_numbers. now apply sum_numbers_safe.
  - now apply (evalLisp_call_no_arguments _ "+" BPlus).
  - intros fuel'. apply (main_fuel_le 5); [lia | reflexivity | discriminate].
  - intros fuel'. apply (main_fuel_le 4); [lia | reflexivity | discriminate].
Qed.

Lemma plus_sums_witness :
  evalLisp 3
    (call_form "+"
       (NotNull (SexpPair (NotNull (SexpAtom (mkToken "1" Integer)))
          (NotNull (SexpPair (NotNull (SexpAtom (mkToken "2" Integer)))
             (NotNull (SexpPair (NotNull (SexpAtom (mkToken "3" Integer))) Null))))))) 0 [∅]
  = Ok (VNumber (sum_numbers [Finite 1; Finite 2; Finite 3]), [∅]) ∧
  sum_numbers [Finite 1; Finite 2; Finite 3] = Finite 6 ∧
  sum_numbers [Finite 9007199254740992] = Finite 9007199254740992.
Proof.
  assert (truthy (store_get [∅] 0 "+") = false) as Hplus by (vm_compute; reflexivity).
  pose proof (plus_sums 1
                (NotNull (SexpAtom (mkToken "1" Integer)))
                (NotNull (SexpPair (NotNull (SexpAtom (mkToken "2" Integer)))
                   (NotNull (SexpPair (NotNull (SexpAtom (mkToken "3" Integer))) Null))))
                0 [∅] [∅] [Finite 1; Finite 2; Finite 3] Hplus eq_refl)
    as (Hsum & _ & Hsafe & _).
  pose proof (plus_sums 1 (NotNull (SexpAtom (mkToken "9007199254740992" Integer))) Null
                0 [∅] [∅] [Finite 9007199254740992] Hplus eq_refl)
    as (_ & Hone & _).
  split; [exact Hsum |]. split.
  - apply (Hsafe [1; 2; 3]%Z); [reflexivity |]. simpl. lia.
  - apply Hone; reflexivity.
Defined.

(** C1 as stated fails: the program ["(+ )"] does not evaluate to 0. Its
    form has no argument list, and [evalLisp] throws before it calls the
    builtin. *)
Lemma plus_without_arguments_fails :
  main_forms "(+ )"
  = Ok (SexpPair (NotNull begin_atom) (NotNull (SexpPair (call_form "+" Null) Null))) ∧
  main 4 "(+ )" = Throw (Error "Not a linked list: null").
Proof. split; reflexivity. Qed.

(** C5: [<=] does not check the type of its arguments, unlike [+] and [-].
    In ["(<= (<= 1 2) 3)"] the first argument evaluates to the Boolean
    true, and the comparison returns true instead of failing. *)
Theorem less_eq_accepts_boolean :
  ∀ fuel, main (5 + fuel) "(<= (<= 1 2) 3)" = Ok (VBoolean true).
Proof.
  intros fuel. apply (main_fuel_le 5); [lia | reflexivity | discriminate].
Qed.

(** ** What an evaluation can write *)

(** A builtin keeps a reference to the context its table was built over, a
    lambda call works on a fresh copy. So an evaluation under a context
    other than [p] leaves [p] alone as long as no stored builtin refers
    to [p]. *)

Lemma frame_bind {A B : Type} (p : CtxRef) (okA : A → Prop) (okB : B → Prop)
    (m : Eval A) (k : A → Eval B) (st : Store) :
  frame_result p st okA (m st) →
  (∀ a st1, okA a → unaliased p st1 → frame_result p st1 okB (k a st1)) →
  frame_result p st okB (ebind m k st).
Proof.
  unfold ebind. destruct (m st) as [[a st1]| | |]; cbn [obind frame_result]; try tauto.
  intros (Hp & Hun & Ha) Hk. specialize (Hk a st1 Ha Hun).
  destruct (k a st1) as [[b st2]| | |]; cbn [frame_result] in *; [| trivial..].
  destruct Hk as (Hp2 & Hun2 & Hb). split; [congruence | tauto].
Qed.

Lemma frame_ret {A : Type} (p : CtxRef) (ok : A → Prop) (a : A) (st : Store) :
  unaliased p st → ok a → frame_result p st ok (ret a st).
Proof. intros Hun Ha. cbn. auto. Qed.

Lemma frame_lift {A : Type} (p : CtxRef) (ok : A → Prop) (m : Outcome A) (st : Store) :
  unaliased p st → (∀ a, m = Ok a → ok a) → frame_result p st ok (lift m st).
Proof. intros Hun Ha. unfold lift. destruct m; cbn; auto. Qed.

Lemma stored_value_unaliased (p : CtxRef) (st : Store) (ctx : CtxRef) (name : string) :
  unaliased p st → refers p (store_get st ctx name) = false.
Proof.
  intros [_ Hun]. unfold store_get.
  destruct (st !! ctx) as [m|] eqn:Hctx; [| reflexivity]. simpl.
  destruct (m !! name) as [v|] eqn:Hname; [| reflexivity]. simpl.
  destruct (refers p v) eqn:Hv; [| reflexivity].
  exfalso. apply Hun. exists ctx, m, name, v. auto.
Qed.

Lemma frame_ctx_get (p ctx : CtxRef) (name : string) (st : Store) :
  unaliased p st →
  frame_result p st (fun v => refers p v = false) (ctx_get ctx name st).
Proof.
  intros Hun. cbn. split; [reflexivity |]. split; [assumption |].
  now apply stored_value_unaliased.
Qed.

Lemma frame_ctx_set (p ctx : CtxRef) (name : string) (v : Value) (st : Store) :
  ctx ≠ p → refers p v = false → unaliased p st →
  frame_result p st (fun _ => True) (ctx_set ctx name v st).
Proof.
  intros Hctx Hv [Hlen Hun]. cbn. split; [now apply list_lookup_alter_ne |].
  split; [| trivial]. split; [now rewrite length_alter |].
  intros (c & m' & n & v' & Hc & Hn & Hv'). apply Hun.
  destruct (decide (c = ctx)) as [-> | Hne].
  - rewrite list_lookup_alter_eq in Hc.
    destruct (st !! ctx) as [m|] eqn:Hm; [| discriminate].
    injection Hc as <-.
    destruct (decide (n = name)) as [-> | Hname].
    + rewrite lookup_insert_eq in Hn. congruence.
    + rewrite lookup_insert_ne in Hn by congruence. exists ctx, m, n, v'. auto.
  - rewrite list_lookup_alter_ne in Hc by congruence. exists c, m', n, v'. auto.
Qed.

Lemma frame_ctx_copy (p ctx : CtxRef) (st : Store) :
  unaliased p st → frame_result p st (fun child => child ≠ p) (ctx_copy ctx st).
Proof.
  intros [Hlen Hun]. cbn. split; [now apply lookup_app_l |].
  split; [| lia]. split; [rewrite length_app; lia |].
  intros (c & m' & n & v' & Hc & Hn & Hv'). apply Hun.
  destruct (Nat.lt_ge_cases c (length st)) as [Hin | Hout].
  - rewrite lookup_app_l in Hc by assumption. exists c, m', n, v'. auto.
  - rewrite lookup_app_r in Hc by assumption.
    destruct (c - length st)%nat; [| now destruct n0].
    injection Hc as <-. destruct (st !! ctx) as [m|] eqn:Hm.
    + exists ctx, m, n, v'. auto.
    + simpl in Hn. now rewrite lookup_empty in Hn.
Qed.

Lemma frame_bind_params (p : CtxRef) (iter : SexpOrNull) (i : nat) (vs : list Value)
    (child : CtxRef) (st : Store) :
  child ≠ p → Forall (fun v => refers p v = false) vs → unaliased p st →
  frame_result p st (fun _ => True) (bind_params iter i vs child st).
Proof.
  intros Hchild Hvs. revert i st.
  induction iter as [a | p0 IH0 p1 IH1 | | s IH]
    using SexpOrNull_mut
    with (P := fun s => ∀ i st, unaliased p st →
                 frame_result p st (fun _ => True) (bind_params (NotNull s) i vs child st));
    intros i st Hun.
  - exact I.
  - cbn [bind_params]. destruct p0 as [|[a|? ?]]; try exact I.
    eapply frame_bind.
    + apply frame_ctx_set; [assumption | | assumption].
      destruct (vs !! i) as [v|] eqn:Hv; [| reflexivity]. simpl.
      rewrite Forall_forall in Hvs. apply Hvs. now apply list_elem_of_lookup_2 in Hv.
    + intros _ st1 _ Hun1. now apply IH1.
  - now apply frame_ret.
  - now apply IH.
Qed.

Section Frames.

Variable p : CtxRef.
Variable ev : SexpOrNull → CtxRef → Eval Value.
Hypothesis Hev : frames p ev.

Lemma frame_evalLispArgs (args : SexpOrNull) (ctx : CtxRef) (st : Store) :
  ctx ≠ p → unaliased p st →
  frame_result p st (Forall (fun v => refers p v = false)) (evalLispArgs ev args ctx st).
Proof.
  intros Hctx. revert st.
  induction args as [a | p0 IH0 p1 IH1 | | s IH]
    using SexpOrNull_mut
    with (P := fun s => ∀ st, unaliased p st →
                 frame_result p st (Forall (fun v => refers p v = false))
                   (evalLispArgs ev (NotNull s) ctx st));
    intros st Hun.
  - exact I.
  - cbn [evalLispArgs]. eapply frame_bind; [now apply Hev |].
    intros v st1 Hv Hun1. eapply frame_bind; [now apply IH1 |].
    intros vs st2 Hvs Hun2. apply frame_ret; auto.
  - apply frame_ret; auto.
  - now apply IH.
Qed.

Lemma frame_begin_loop (res : Value) (current : SexpOrNull) (ctx : CtxRef) (st : Store) :
  ctx ≠ p → refers p res = false → unaliased p st →
  frame_result p st (fun v => refers p v = false) (begin_loop ev res current ctx st).
Proof.
  intros Hctx. revert res st.
  induction current as [a | p0 IH0 p1 IH1 | | s IH]
    using SexpOrNull_mut
    with (P := fun s => ∀ res st, refers p res = false → unaliased p st →
                 frame_result p st (fun v => refers p v = false)
                   (begin_loop ev res (NotNull s) ctx st));
    intros res st Hres Hun.
  - exact I.
  - cbn [begin_loop]. eapply frame_bind; [now apply Hev |].
    intros v st1 Hv Hun1. now apply IH1.
  - now apply frame_ret.
  - now apply IH.
Qed.

Lemma frame_call_builtin (b : Builtin) (ctx : CtxRef) (args0 args1 : SexpOrNull)
    (st : Store) :
  ctx ≠ p → unaliased p st →
  frame_result p st (fun v => refers p v = false) (call_builtin ev b ctx args0 args1 st).
Proof.
  intros Hctx Hun. destruct b; cbn [call_builtin].
  - eapply frame_bind; [now apply frame_evalLispArgs |]. intros vs st1 _ Hun1.
    eapply frame_bind with (okA := fun _ => True); [now apply frame_lift |].
    intros r st2 _ Hun2. now apply frame_ret.
  - destruct args1 as [|[a|then_ args11]]; try exact I.
    destruct args11 as [|[a|else_ rest]]; try exact I.
    eapply frame_bind; [now apply Hev |]. intros test st1 _ Hun1.
    destruct (truthy test); now apply Hev.
  - destruct args0 as [|[name|? ?]]; try exact I.
    destruct args1 as [|[a|body rest]]; try exact I.
    eapply frame_bind; [now apply Hev |]. intros v st1 Hv Hun1.
    eapply frame_bind; [now apply frame_ctx_set |]. intros _ st2 _ Hun2.
    now apply frame_ret.
  - now apply frame_ret.
  - eapply frame_bind; [now apply Hev |]. intros res st1 Hres Hun1.
    now apply frame_begin_loop.
  - eapply frame_bind; [now apply frame_evalLispArgs |]. intros vs st1 _ Hun1.
    eapply frame_bind with (okA := fun _ => True); [now apply frame_lift |].
    intros r st2 _ Hun2. now apply frame_ret.
  - eapply frame_bind; [now apply frame_evalLispArgs |]. intros vs st1 _ Hun1.
    destruct (default VUndefined (vs !! 0)); try exact I.
    eapply frame_bind with (okA := fun _ => True); [now apply frame_lift |].
    intros r st2 _ Hun2. now apply frame_ret.
Qed.

(** The part of a lambda call that follows the evaluation of the
    arguments: copy, parameters, body. *)
Lemma frame_lambda_body (params body : SexpOrNull) (vs : list Value) (callCtx : CtxRef)
    (st : Store) :
  Forall (fun v => refers p v = false) vs → unaliased p st →
  frame_result p st (fun v => refers p v = false)
    (ebind (ctx_copy callCtx) (fun childCallCtx =>
       ebind (bind_params params 0 vs childCallCtx) (fun _ =>
         ebind (lift (append (NotNull begin_atom) body)) (fun begin =>
           ev (NotNull begin) childCallCtx))) st).
Proof.
  intros Hvs Hun.
  eapply frame_bind; [now apply frame_ctx_copy |]. intros child st1 Hchild Hun1.
  eapply frame_bind; [now apply frame_bind_params |]. intros _ st2 _ Hun2.
  eapply frame_bind with (okA := fun _ => True); [now apply frame_lift |].
  intros begin st3 _ Hun3. now apply Hev.
Qed.

Lemma frame_call_lambda (params body args0 args1 : SexpOrNull) (callCtx : CtxRef)
    (st : Store) :
  callCtx ≠ p → unaliased p st →
  frame_result p st (fun v => refers p v = false)
    (call_lambda ev params body args0 args1 callCtx st).
Proof.
  intros Hctx Hun. unfold call_lambda.
  eapply frame_bind; [now apply frame_evalLispArgs |]. intros vs st1 Hvs Hun1.
  now apply frame_lambda_body.
Qed.

Lemma frame_call (fn : Value) (args0 args1 : SexpOrNull) (callCtx : CtxRef) (st : Store) :
  refers p fn = false → callCtx ≠ p → unaliased p st →
  frame_result p st (fun v => refers p v = false) (call ev fn args0 args1 callCtx st).
Proof.
  intros Hfn Hctx Hun. destruct fn; cbn [call]; try exact I.
  - apply frame_call_builtin; [| assumption]. simpl in Hfn. now apply Nat.eqb_neq.
  - now apply frame_call_lambda.
  - destruct f; cbn [call_inherited]; try exact I; now apply frame_ret.
Qed.

End Frames.

Lemma frames_evalLisp (fuel : nat) (p : CtxRef) : frames p (evalLisp fuel).
Proof.
  induction fuel as [|fuel IH]; intros ast ctx st Hctx Hun; [exact I |].
  destruct ast as [|[atom|pair0 pair1]]; [exact I | |].
  - cbn [evalLisp]. destruct (kind atom).
    + eapply frame_bind with (okA := fun _ => True); [now apply frame_lift |].
      intros n st1 _ Hun1. now apply frame_ret.
    + eapply frame_bind; [now apply frame_ctx_get |]. intros v st1 Hv Hun1.
      destruct (truthy v); [now apply frame_ret |].
      unfold lookup_builtin.
      destruct (builtins_get (value atom)) as [b|w|] eqn:Hget; try exact I.
      * apply frame_ret; [assumption |]. simpl. now apply Nat.eqb_neq.
      * apply frame_ret; [assumption |].
        now destruct (builtins_get_inherited _ _ Hget) as [[f ->] | ->].
    + eapply frame_bind; [now apply frame_ctx_get |]. intros v st1 Hv Hun1.
      destruct (truthy v); [now apply frame_ret |].
      unfold lookup_builtin.
      destruct (builtins_get (value atom)) as [b|w|] eqn:Hget; try exact I.
      * apply frame_ret; [assumption |]. simpl. now apply Nat.eqb_neq.
      * apply frame_ret; [assumption |].
        now destruct (builtins_get_inherited _ _ Hget) as [[f ->] | ->].
  - rewrite evalLisp_pair. eapply frame_bind; [now apply IH |].
    intros fn st1 Hfn Hun1.
    destruct (negb (truthy fn)).
    { eapply frame_bind with (okA := fun _ => True); [now apply frame_lift |].
      intros; exact I. }
    destruct (negb (is_function fn)).
    { eapply frame_bind with (okA := fun _ => True); [now apply frame_lift |].
      intros; exact I. }
    destruct pair1 as [|[a|args0 args1]]; [exact I | |].
    + eapply frame_bind with (okA := fun _ => True); [now apply frame_lift |].
      intros; exact I.
    + now apply frame_call.
Qed.

(** ** Lambda calls *)

(** C4 (as amended). A call of a lambda evaluates the arguments under the
    caller's context, then runs the body in a new context that starts as a
    copy of the caller's and receives the parameter bindings. Provided
    that, once the arguments are evaluated, no context of the store and no
    argument value holds a builtin looked up under the caller's context,
    the caller's context is after the call exactly what the evaluation of
    the arguments left: neither the parameter bindings nor a [def] in the
    body reach it. *)
Theorem lambda_call_frame (fuel : nat) (params body callArgs0 callArgs1 : SexpOrNull)
    (callCtx : CtxRef) (st st1 st' : Store) (vs : list Value) (v : Value) :
  evalLispArgs (evalLisp fuel) (NotNull (SexpPair callArgs0 callArgs1)) callCtx st
  = Ok (vs, st1) →
  unaliased callCtx st1 → Forall (fun a => refers callCtx a = false) vs →
  call_lambda (evalLisp fuel) params body callArgs0 callArgs1 callCtx st = Ok (v, st') →
  ∃ (m : Context) (st2 : Store),
    st1 !! callCtx = Some m ∧
    bind_params params 0 vs (length st1) (st1 ++ [m])%list = Ok (tt, st2) ∧
    st2 !! callCtx = Some m ∧
    evalLisp fuel (NotNull (SexpPair (NotNull begin_atom) body)) (length st1) st2
    = Ok (v, st') ∧
    st' !! callCtx = Some m ∧
    (st !! callCtx = Some m → st' !! callCtx = st !! callCtx).
Proof.
  intros Hargs Hun Hvs Hcall.
  destruct (lookup_lt_is_Some_2 st1 callCtx (proj1 Hun)) as [m Hm].
  exists m.
  unfold call_lambda in Hcall. unfold ebind at 1 in Hcall.
  rewrite Hargs in Hcall. cbn [obind] in Hcall.
  pose proof (frame_ctx_copy callCtx callCtx st1 Hun) as Hcopy.
  unfold ebind at 1 in Hcall. unfold ctx_copy in Hcall, Hcopy.
  rewrite Hm in Hcall, Hcopy. cbn [obind default id] in Hcall.
  cbn [frame_result default id] in Hcopy. destruct Hcopy as (Hcopy & Hun1 & Hchild).
  pose proof (frame_bind_params callCtx params 0 vs (length st1) (st1 ++ [m])%list
                Hchild Hvs Hun1) as Hbind.
  unfold ebind at 1 in Hcall.
  destruct (bind_params params 0 vs (length st1) (st1 ++ [m])%list) as [[[] st2]| | |];
    cbn [obind] in Hcall; try discriminate.
  cbn [frame_result] in Hbind. destruct Hbind as (Hst2 & Hun2 & _).
  exists st2. split; [exact Hm |]. split; [reflexivity |].
  assert (st2 !! callCtx = Some m) as Hm2 by congruence.
  split; [assumption |].
  change (evalLisp fuel (NotNull (SexpPair (NotNull begin_atom) body)) (length st1) st2
          = Ok (v, st')) in Hcall.
  split; [assumption |].
  pose proof (frames_evalLisp fuel callCtx
                (NotNull (SexpPair (NotNull begin_atom) body)) (length st1) st2
                Hchild Hun2) as Hbody.
  rewrite Hcall in Hbody. cbn [frame_result] in Hbody. destruct Hbody as (Hst' & _).
  split; congruence.
Qed.

Lemma lambda_call_frame_witness :
  let root : Context := {["x" := VNumber (Finite 1)]} in
  let child : Context :=
    <["x" := VNumber (Finite 2)]> (<["y" := VNumber (Finite 7)]> root) in
  let params := NotNull (SexpPair (NotNull (SexpAtom (mkToken "y" Identifier))) Null) in
  let body :=
    NotNull (SexpPair
      (call_form "def"
         (NotNull (SexpPair (NotNull (SexpAtom (mkToken "x" Identifier)))
            (NotNull (SexpPair (NotNull (SexpAtom (mkToken "2" Integer))) Null)))))
      Null) in
  ∃ (m : Context) (st2 : Store),
    [root] !! 0%nat = Some m ∧
    bind_params params 0 [VNumber (Finite 7)] 1 ([root] ++ [m])%list = Ok (tt, st2) ∧
    st2 !! 0%nat = Some m ∧
    evalLisp 4 (NotNull (SexpPair (NotNull begin_atom) body)) 1 st2
    = Ok (VNumber (Finite 2), [root; child]) ∧
    [root; child] !! 0%nat = Some m ∧
    ([root] !! 0%nat = Some m → [root; child] !! 0%nat = [root] !! 0%nat).
Proof.
  intros root child params body.
  apply (lambda_call_frame 4 params body
           (NotNull (SexpAtom (mkToken "7" Integer))) Null 0
           [root] [root] [root; child] [VNumber (Finite 7)] (VNumber (Finite 2))).
  - reflexivity.
  - split; [simpl; lia |].
    intros (c & m & name & v & Hc & Hn & Hv).
    destruct c as [|c]; [| discriminate].
    injection Hc as <-. apply lookup_singleton_Some in Hn as [_ <-]. discriminate.
  - repeat constructor.
  - vm_compute. reflexivity.
Defined.

(** C4 as stated fails. A [def] in an argument of the call is evaluated
    under the caller's context and rebinds [x] there; and once [def] itself
    has been bound in the caller's context, the copy made for the call
    holds that same builtin, which still writes to the caller's context, so
    the [def] in the lambda body rebinds the caller's [x]. *)
Lemma lambda_call_changes_caller :
  main 8 "(def x 1) ((lambda (y) y) (def x 2)) (+ x)" = Ok (VNumber (Finite 2)) ∧
  main 8 "(def def def) (def x 1) ((lambda (y) (def x 2)) 0) (+ x)"
  = Ok (VNumber (Finite 2)) ∧
  store_get [<["def" := VBuiltin BDef 0]> {["x" := VNumber (Finite 1)]}] 0 "x"
  = VNumber (Finite 1) ∧
  (let? (_, st') :=
     call_lambda (evalLisp 4)
       (NotNull (SexpPair (NotNull (SexpAtom (mkToken "y" Identifier))) Null))
       (NotNull (SexpPair
          (call_form "def"
             (NotNull (SexpPair (NotNull (SexpAtom (mkToken "x" Identifier)))
                (NotNull (SexpPair (NotNull (SexpAtom (mkToken "2" Integer))) Null)))))
          Null))
       (NotNull (SexpAtom (mkToken "0" Integer))) Null 0
       [<["def" := VBuiltin BDef 0]> {["x" := VNumber (Finite 1)]}]
   in Ok (store_get st' 0 "x")) = Ok (VNumber (Finite 2)).
Proof. repeat split; vm_compute; reflexivity. Qed.

(** * Further properties of the code *)

(** ** The outcome of [lex] *)

Lemma find_unlexable_some (s : string) (j : nat) :
  find_unlexable s = Some j →
  (∃ c, String.get j s = Some c ∧ lexable c = false) ∧
  ∀ k c, (k < j)%nat → String.get k s = Some c → lexable c = true.
Proof.
  revert j. induction s as [|c s IH]; intros j; simpl; [discriminate |].
  destruct (lexable c) eqn:Hc.
  - destruct (find_unlexable s) as [j'|]; [| discriminate]. intros [= <-].
    destruct (IH j' eq_refl) as [Hj Hlt]. split; [exact Hj |].
    intros [|k] c' Hk; simpl; [intros [= <-]; exact Hc |].
    apply Hlt. lia.
  - intros [= <-]. split; [exists c; auto |]. intros k c' Hk. lia.
Qed.

Lemma find_unlexable_none (s : string) (k : nat) (c : ascii) :
  find_unlexable s = None → String.get k s = Some c → lexable c = true.
Proof.
  revert k. induction s as [|c0 s IH]; intros k; simpl; [discriminate |].
  destruct (lexable c0) eqn:Hc0; [| discriminate].
  destruct (find_unlexable s); [discriminate |]. intros _.
  destruct k as [|k]; [intros [= <-]; exact Hc0 | now apply IH].
Qed.

(** When no lexer consumes anything at [i], the character there starts
    neither an integer nor an identifier. *)
Lemma try_lexers_none (program : string) (i : nat) (c : ascii) :
  String.get i program = Some c → try_lexers lexers program i = None →
  is_digit c = false ∧ is_identifier_start c = false.
Proof.
  intros Hget. rewrite try_lexers_unfold.
  pose proof (get_some_length _ _ _ Hget) as Hlen.
  unfold lexInteger, lexIdentifier. cbn [fst].
  replace (String.length program - i)%nat with (S (String.length program - S i)) by lia.
  cbn [lexInteger_loop lexIdentifier_loop]. rewrite Hget, identifier_char_start.
  destruct (is_digit c).
  { pose proof (lexInteger_loop_ge (String.length program - S i) program (S i)).
    replace (Nat.eqb _ i) with false by (symmetry; apply Nat.eqb_neq; lia).
    discriminate. }
  rewrite Nat.eqb_refl. destruct (is_identifier_start c); [| auto].
  pose proof (lexIdentifier_loop_ge (String.length program - S i) program i (S i)).
  replace (Nat.eqb _ i) with false by (symmetry; apply Nat.eqb_neq; lia).
  discriminate.
Qed.

Lemma lex_from_first_unlexable (fuel : nat) (program : string) (i j : nat) (c : ascii)
    (tokens : list Token) :
  (i ≤ j)%nat → String.get j program = Some c → lexable c = false →
  (∀ k c', (k < j)%nat → String.get k program = Some c' → lexable c' = true) →
  (String.length program - i < fuel)%nat →
  lex_from fuel program i tokens = Throw (unknown_token program j).
Proof.
  revert i tokens.
  induction fuel as [|fuel IH]; intros i tokens Hle Hj Hc Hmin Hfuel; [lia |].
  pose proof (not_lexable_classes c Hc) as (Hw & Hp & _).
  pose proof (get_some_length _ _ _ Hj) as Hlen.
  rewrite lex_from_S. destruct (String.get i program) as [c0|] eqn:Hget.
  2:{ apply get_none_length in Hget. lia. }
  assert (is_whitespace c0 = true ∨ is_paren c0 = true → i < j)%nat as Hlt.
  { intros Hc0. destruct (decide (i = j)) as [->|]; [| lia].
    assert (c0 = c) as -> by congruence. rewrite Hw, Hp in Hc0. now destruct Hc0. }
  destruct (is_whitespace c0) eqn:Hw0.
  { assert (i < j)%nat by auto. apply IH; auto; lia. }
  destruct (is_paren c0) eqn:Hp0.
  { assert (i < j)%nat by auto. apply IH; auto; lia. }
  destruct (try_lexers lexers program i) as [[newCursor token]|] eqn:Htry.
  - pose proof (try_lexers_advance _ _ _ _ Htry).
    pose proof (try_lexers_stop _ _ _ _ _ _ Hle Hj Hc Htry).
    apply IH; auto; lia.
  - destruct (try_lexers_none _ _ _ Hget Htry) as [Hd Hs].
    destruct (decide (i = j)) as [-> | Hne]; [reflexivity |].
    assert (lexable c0 = true) as Hlex by (apply (Hmin i); [lia | assumption]).
    unfold lexable in Hlex. unfold is_identifier_start in Hs.
    apply orb_false_iff in Hs as [Hl Ho].
    rewrite Hw0, Hp0, Hd, Hl, Ho in Hlex. discriminate.
Qed.

Lemma lex_from_all_lexable (fuel : nat) (program : string) (i : nat) (tokens : list Token) :
  (∀ k c, String.get k program = Some c → lexable c = true) →
  (String.length program - i < fuel)%nat →
  ∃ tokens', lex_from fuel program i tokens = Ok tokens'.
Proof.
  intros Hall. revert i tokens.
  induction fuel as [|fuel IH]; intros i tokens Hfuel; [lia |].
  rewrite lex_from_S. destruct (String.get i program) as [c0|] eqn:Hget; [| eauto].
  pose proof (get_some_length _ _ _ Hget) as Hlen.
  destruct (is_whitespace c0) eqn:Hw0; [apply IH; lia |].
  destruct (is_paren c0) eqn:Hp0; [apply IH; lia |].
  destruct (try_lexers lexers program i) as [[newCursor token]|] eqn:Htry.
  - pose proof (try_lexers_advance _ _ _ _ Htry). apply IH. lia.
  - destruct (try_lexers_none _ _ _ Hget Htry) as [Hd Hs].
    pose proof (Hall i c0 Hget) as Hlex. unfold lexable in Hlex.
    unfold is_identifier_start in Hs. apply orb_false_iff in Hs as [Hl Ho].
    rewrite Hw0, Hp0, Hd, Hl, Ho in Hlex. discriminate.
Qed.

(** X1. [lex] returns tokens exactly when every character of the program
    is whitespace, a parenthesis, a digit, a letter or an operator
    character; otherwise it throws "Unknown token", and the error names the
    index of the first character that is none of these and the text from
    there to the end. *)
Theorem lex_outcome (program : string) :
  match find_unlexable program with
  | None => ∃ tokens, lex program = Ok tokens
  | Some j => lex program = Throw (unknown_token program j)
  end.
Proof.
  destruct (find_unlexable program) as [j|] eqn:Hfind.
  - apply find_unlexable_some in Hfind as [(c & Hj & Hc) Hmin].
    apply (lex_from_first_unlexable _ program 0 j c); auto; lia.
  - apply lex_from_all_lexable; [| lia].
    intros k c. now apply find_unlexable_none.
Qed.

(** ** Substrings *)

Lemma substring_empty (i n : nat) : String.substring i n "" = "".
Proof. destruct i, n; reflexivity. Qed.

Lemma substring_cons (s : string) (i n : nat) (c : ascii) :
  String.get i s = Some c →
  String.substring i (S n) s = String c (String.substring (S i) n s).
Proof.
  revert i. induction s as [|c0 s IH]; intros i; [destruct i; discriminate |].
  destruct i as [|i]; simpl.
  - intros [= ->]. reflexivity.
  - intros H. rewrite (IH i H). reflexivity.
Qed.

Lemma substring_add (s : string) (i n m : nat) :
  String.substring i (n + m) s
  = String.substring i n s ++ String.substring (i + n) m s.
Proof.
  revert i n. induction s as [|c s IH]; intros i n.
  - now rewrite !substring_empty.
  - destruct i as [|i].
    + destruct n as [|n]; [reflexivity |].
      cbn [Nat.add String.substring]. rewrite string_app_cons. f_equal.
      exact (IH 0%nat n).
    + cbn [Nat.add String.substring]. apply IH.
Qed.

Lemma substring_length_ge (s : string) (i n : nat) :
  (String.length s ≤ i)%nat → String.substring i n s = "".
Proof.
  revert i. induction s as [|c s IH]; intros i Hlen; [apply substring_empty |].
  destruct i as [|i]; [simpl in Hlen; lia |]. simpl. apply IH. simpl in Hlen. lia.
Qed.

Lemma substring_forallb (p : ascii → bool) (s : string) (n i : nat) :
  (∀ k, (i ≤ k < i + n)%nat → ∃ c, String.get k s = Some c ∧ p c = true) →
  string_forallb p (String.substring i n s) = true.
Proof.
  revert i. induction n as [|n IH]; intros i Hall.
  - replace (String.substring i 0 s) with "".
    + reflexivity.
    + clear. revert i. induction s as [|c s IH]; intros [|i]; simpl; auto.
  - destruct (Hall i ltac:(lia)) as (c & Hget & Hc).
    rewrite (substring_cons _ _ _ _ Hget). simpl. rewrite Hc. simpl.
    apply IH. intros k Hk. apply Hall. lia.
Qed.

Lemma js_slice_cons (program : string) (i : nat) (c : ascii) :
  String.get i program = Some c →
  js_slice program i = String c (js_slice program (S i)).
Proof.
  intros Hget. pose proof (get_some_length _ _ _ Hget). unfold js_slice.
  replace (String.length program - i)%nat with (S (String.length program - S i)) by lia.
  now apply substring_cons.
Qed.

Lemma js_slice_end (program : string) (i : nat) :
  String.get i program = None → js_slice program i = "".
Proof. intros H%get_none_length. unfold js_slice. now apply substring_length_ge. Qed.

Lemma js_slice_split (program : string) (i e : nat) :
  (i ≤ e)%nat → (e ≤ String.length program)%nat →
  js_slice program i = js_substring program i e ++ js_slice program e.
Proof.
  intros Hie Hel. unfold js_slice, js_substring.
  replace (String.length program - i)%nat
    with ((e - i) + (String.length program - e))%nat by lia.
  rewrite substring_add. do 2 f_equal. lia.
Qed.

(** ** What the scanners consume *)

Lemma lexInteger_loop_digits (fuel : nat) (program : string) (end_ k : nat) :
  (end_ ≤ k < lexInteger_loop fuel program end_)%nat →
  ∃ c, String.get k program = Some c ∧ is_digit c = true.
Proof.
  revert end_. induction fuel as [|fuel IH]; intros end_; simpl; [lia |].
  destruct (String.get end_ program) as [c|] eqn:Hget; [| lia].
  destruct (is_digit c) eqn:Hc; [| lia]. intros Hk.
  destruct (decide (k = end_)) as [-> | Hne]; [eauto |]. apply (IH (S end_)). lia.
Qed.

Lemma lexIdentifier_loop_chars (fuel : nat) (program : string) (cursor end_ k : nat) :
  (end_ ≤ k < lexIdentifier_loop fuel program cursor end_)%nat →
  ∃ c, String.get k program = Some c ∧ identifier_char cursor k c = true.
Proof.
  revert end_. induction fuel as [|fuel IH]; intros end_; simpl; [lia |].
  destruct (String.get end_ program) as [c|] eqn:Hget; [| lia].
  destruct (identifier_char cursor end_ c) eqn:Hc; [| lia]. intros Hk.
  destruct (decide (k = end_)) as [-> | Hne]; [eauto |]. apply (IH (S end_)). lia.
Qed.

Lemma lexInteger_loop_end (fuel : nat) (program : string) (end_ : nat) :
  (String.length program - end_ ≤ fuel)%nat →
  match String.get (lexInteger_loop fuel program end_) program with
  | None => True
  | Some c => is_digit c = false
  end.
Proof.
  revert end_. induction fuel as [|fuel IH]; intros end_ Hfuel; simpl.
  - replace (String.get end_ program) with (@None ascii); [trivial |].
    symmetry. apply get_none_length. lia.
  - destruct (String.get end_ program) as [c|] eqn:Hget; [| now rewrite Hget].
    destruct (is_digit c) eqn:Hc; [apply IH; lia |]. now rewrite Hget.
Qed.

Lemma lexIdentifier_loop_end (fuel : nat) (program : string) (cursor end_ : nat) :
  (String.length program - end_ ≤ fuel)%nat →
  match String.get (lexIdentifier_loop fuel program cursor end_) program with
  | None => True
  | Some c =>
      identifier_char cursor (lexIdentifier_loop fuel program cursor end_) c = false
  end.
Proof.
  revert end_. induction fuel as [|fuel IH]; intros end_ Hfuel; simpl.
  - replace (String.get end_ program) with (@None ascii); [trivial |].
    symmetry. apply get_none_length. lia.
  - destruct (String.get end_ program) as [c|] eqn:Hget; [| now rewrite Hget].
    destruct (identifier_char cursor end_ c) eqn:Hc; [apply IH; lia |].
    now rewrite Hget.
Qed.

(** X2. Both scanners are maximal munch. From [cursor], [lexInteger] takes
    exactly the run of digits that starts there, and [lexIdentifier] the run
    of identifier characters (a digit counts only after the first
    character): every character taken is of the class, the character after
    the run, if there is one, is not, and the token text is that run. *)
Theorem scanners_maximal_munch (program : string) (cursor : nat) :
  (let (end_, token) := lexInteger program cursor in
   (cursor ≤ end_)%nat ∧
   (∀ k, (cursor ≤ k < end_)%nat →
         ∃ c, String.get k program = Some c ∧ is_digit c = true) ∧
   match String.get end_ program with
   | None => True
   | Some c => is_digit c = false
   end ∧
   token = mkToken (js_substring program cursor end_) Integer) ∧
  (let (end_, token) := lexIdentifier program cursor in
   (cursor ≤ end_)%nat ∧
   (∀ k, (cursor ≤ k < end_)%nat →
         ∃ c, String.get k program = Some c ∧ identifier_char cursor k c = true) ∧
   match String.get end_ program with
   | None => True
   | Some c => identifier_char cursor end_ c = false
   end ∧
   token = mkToken (js_substring program cursor end_) Identifier).
Proof.
  split.
  - unfold lexInteger. repeat split.
    + apply lexInteger_loop_ge.
    + intros k. apply lexInteger_loop_digits.
    + apply lexInteger_loop_end. lia.
  - unfold lexIdentifier. repeat split.
    + apply lexIdentifier_loop_ge.
    + intros k. apply lexIdentifier_loop_chars.
    + apply lexIdentifier_loop_end. lia.
Qed.

Lemma scanners_maximal_munch_witness :
  (let (end_, token) := lexInteger "12ab" 0 in
   (0 ≤ end_)%nat ∧
   (∀ k, (0 ≤ k < end_)%nat → ∃ c, String.get k "12ab" = Some c ∧ is_digit c = true) ∧
   match String.get end_ "12ab" with
   | None => True
   | Some c => is_digit c = false
   end ∧
   token = mkToken (js_substring "12ab" 0 end_) Integer) ∧
  (let (end_, token) := lexIdentifier "12ab" 0 in
   (0 ≤ end_)%nat ∧
   (∀ k, (0 ≤ k < end_)%nat →
         ∃ c, String.get k "12ab" = Some c ∧ identifier_char 0 k c = true) ∧
   match String.get end_ "12ab" with
   | None => True
   | Some c => identifier_char 0 end_ c = false
   end ∧
   token = mkToken (js_substring "12ab" 0 end_) Identifier).
Proof. exact (scanners_maximal_munch "12ab" 0). Defined.

(** ** The tokens [lex] returns *)

Lemma lexInteger_token_valid (program : string) (i : nat) :
  fst (lexInteger program i) ≠ i → valid_token (snd (lexInteger program i)) = true.
Proof.
  unfold lexInteger. cbn [fst snd]. set (e := lexInteger_loop _ program i).
  intros Hne. pose proof (lexInteger_loop_ge (String.length program - i) program i).
  assert (i < e)%nat as Hlt by (fold e in H; lia).
  unfold valid_token, integer_lexeme, js_substring. cbn [value kind].
  destruct (lexInteger_loop_digits (String.length program - i) program i i) as (c & Hget & Hc);
    [fold e; lia |].
  replace (e - i)%nat with (S (e - S i)) by lia.
  rewrite (substring_cons _ _ _ _ Hget). cbn [String.eqb negb andb string_forallb].
  rewrite Hc. cbn [andb]. apply substring_forallb.
  intros k Hk. apply (lexInteger_loop_digits (String.length program - i) program i).
  fold e. lia.
Qed.

Lemma lexIdentifier_token_valid (program : string) (i : nat) :
  fst (lexIdentifier program i) ≠ i → valid_token (snd (lexIdentifier program i)) = true.
Proof.
  unfold lexIdentifier. cbn [fst snd]. set (e := lexIdentifier_loop _ program i i).
  intros Hne. pose proof (lexIdentifier_loop_ge (String.length program - i) program i i).
  assert (i < e)%nat as Hlt by (fold e in H; lia).
  unfold valid_token, identifier_lexeme, js_substring. cbn [value kind].
  destruct (lexIdentifier_loop_chars (String.length program - i) program i i i)
    as (c & Hget & Hc); [fold e; lia |].
  replace (e - i)%nat with (S (e - S i)) by lia.
  rewrite (substring_cons _ _ _ _ Hget). rewrite identifier_char_start in Hc.
  rewrite Hc. cbn [andb]. apply substring_forallb.
  intros k Hk.
  destruct (lexIdentifier_loop_chars (String.length program - i) program i i k)
    as (c' & Hget' & Hc'); [fold e; lia |].
  rewrite identifier_char_part in Hc' by lia. eauto.
Qed.

Lemma try_lexers_valid (program : string) (i newCursor : nat) (token : Token) :
  try_lexers lexers program i = Some (newCursor, token) → valid_token token = true.
Proof.
  rewrite try_lexers_unfold.
  destruct (Nat.eqb (fst (lexInteger program i)) i) eqn:E1.
  - destruct (Nat.eqb (fst (lexIdentifier program i)) i) eqn:E2; [discriminate |].
    apply Nat.eqb_neq in E2.
    pose proof (lexIdentifier_token_valid program i E2) as Hv.
    destruct (lexIdentifier program i) as [e t]. now intros [= _ <-].
  - apply Nat.eqb_neq in E1.
    pose proof (lexInteger_token_valid program i E1) as Hv.
    destruct (lexInteger program i) as [e t]. now intros [= _ <-].
Qed.

Lemma lex_from_valid (fuel : nat) (program : string) (i : nat) (tokens result : list Token) :
  Forall (fun t => valid_token t = true) tokens →
  lex_from fuel program i tokens = Ok result →
  Forall (fun t => valid_token t = true) result.
Proof.
  revert i tokens. induction fuel as [|fuel IH]; intros i tokens Hacc; [discriminate |].
  rewrite lex_from_S. destruct (String.get i program) as [c|]; [| now intros [= <-]].
  destruct (is_whitespace c); [now apply IH |].
  destruct (is_paren c) eqn:Hp.
  { apply IH. apply Forall_app. split; [assumption |]. constructor; [| constructor].
    apply paren_classes in Hp as [_ [-> | ->]]; reflexivity. }
  destruct (try_lexers lexers program i) as [[newCursor token]|] eqn:Htry; [| discriminate].
  apply IH. apply Forall_app. split; [assumption |]. constructor; [| constructor].
  now apply try_lexers_valid in Htry.
Qed.

(** The number of a lexeme that is a run of digits. *)
Lemma to_number_digits (s : string) :
  integer_lexeme s = true → to_number s = Ok (round_double (decimal_value 0 s)).
Proof.
  unfold integer_lexeme, to_number. destruct s as [|c s]; [discriminate |].
  cbn [String.eqb negb andb]. intros H.
  replace (all_digits (String c s)) with true; [reflexivity |].
  symmetry. revert H. generalize (String c s). clear.
  induction s as [|c s IH]; simpl; [reflexivity |].
  intros H. apply andb_true_iff in H as [-> H]. now apply IH.
Qed.

(** X3. Every token [lex] returns is a lexeme of its kind: an Integer token
    is a non-empty run of digits, an Identifier token starts with a letter
    or an operator character and goes on with letters, operator characters
    and digits, a Syntax token is one parenthesis. So the unary plus that
    [evalLisp] applies to an Integer token always reads a decimal numeral. *)
Theorem lex_tokens_valid (program : string) (tokens : list Token) :
  lex program = Ok tokens →
  Forall (fun t => valid_token t = true) tokens ∧
  Forall (fun t => kind t = Integer →
                   to_number (value t) = Ok (round_double (decimal_value 0 (value t))))
         tokens.
Proof.
  intros Hlex. assert (Forall (fun t => valid_token t = true) tokens) as Hvalid.
  { unfold lex in Hlex. eapply lex_from_valid; [| exact Hlex]. constructor. }
  split; [exact Hvalid |].
  eapply Forall_impl; [exact Hvalid |]. intros t Ht Hk.
  unfold valid_token in Ht. rewrite Hk in Ht. now apply to_number_digits.
Qed.

Lemma lex_tokens_valid_witness :
  Forall (fun t => valid_token t = true)
    [mkToken "(" Syntax; mkToken "x1" Identifier; mkToken "007" Integer;
     mkToken ")" Syntax] ∧
  Forall (fun t => kind t = Integer →
                   to_number (value t) = Ok (round_double (decimal_value 0 (value t))))
    [mkToken "(" Syntax; mkToken "x1" Identifier; mkToken "007" Integer;
     mkToken ")" Syntax].
Proof. apply (lex_tokens_valid "(x1 007)"). reflexivity. Defined.

(** ** [lex] drops whitespace and nothing else *)

Lemma strip_whitespace_app (a b : string) :
  strip_whitespace (a ++ b) = strip_whitespace a ++ strip_whitespace b.
Proof.
  induction a as [|c a IH]; [reflexivity |].
  rewrite string_app_cons. simpl. destruct (is_whitespace c); [exact IH |].
  rewrite string_app_cons. now rewrite IH.
Qed.

Lemma strip_whitespace_forallb (p : ascii → bool) (s : string) :
  (∀ c, p c = true → is_whitespace c = false) →
  string_forallb p s = true → strip_whitespace s = s.
Proof.
  intros Hp. induction s as [|c s IH]; simpl; [reflexivity |].
  intros H. apply andb_true_iff in H as [Hc Hs]. rewrite (Hp c Hc). now rewrite IH.
Qed.

Lemma identifier_part_not_whitespace (c : ascii) :
  is_identifier_part c = true → is_whitespace c = false.
Proof.
  unfold is_identifier_part. destruct (is_letter c || is_operator_char c) eqn:Hs.
  - intros _. now apply (identifier_start_classes c).
  - simpl. intros Hd. now apply digit_classes in Hd as (Hw & _).
Qed.

Lemma valid_token_no_whitespace (t : Token) :
  valid_token t = true → strip_whitespace (value t) = value t.
Proof.
  destruct t as [v k]. unfold valid_token. cbn [value kind]. destruct k.
  - unfold integer_lexeme. intros H. apply andb_true_iff in H as [_ H].
    apply (strip_whitespace_forallb is_digit); [| assumption].
    intros c Hc. now apply digit_classes in Hc as (Hw & _).
  - unfold identifier_lexeme. destruct v as [|c v]; [discriminate |].
    intros H. apply andb_true_iff in H as [Hc Hv]. simpl.
    destruct (identifier_start_classes c Hc) as (-> & _). f_equal.
    apply (strip_whitespace_forallb is_identifier_part); [| assumption].
    exact identifier_part_not_whitespace.
  - unfold syntax_lexeme. intros H.
    apply orb_true_iff in H as [->%String.eqb_eq | ->%String.eqb_eq]; reflexivity.
Qed.

Lemma concat_values_app (a b : list Token) :
  concat_values (a ++ b) = concat_values a ++ concat_values b.
Proof.
  induction a as [|t a IH]; [reflexivity |].
  simpl. now rewrite IH, string_app_assoc.
Qed.

Lemma try_lexers_value (program : string) (i newCursor : nat) (token : Token) :
  try_lexers lexers program i = Some (newCursor, token) →
  value token = js_substring program i newCursor.
Proof.
  rewrite try_lexers_unfold.
  destruct (Nat.eqb (fst (lexInteger program i)) i).
  - destruct (Nat.eqb (fst (lexIdentifier program i)) i); [discriminate |].
    unfold lexIdentifier. now intros [= <- <-].
  - unfold lexInteger. now intros [= <- <-].
Qed.

Lemma try_lexers_in_range (program : string) (i newCursor : nat) (token : Token) :
  try_lexers lexers program i = Some (newCursor, token) →
  (newCursor ≤ String.length program)%nat.
Proof.
  intros Htry. pose proof (try_lexers_advance _ _ _ _ Htry) as Hadv.
  revert Htry. rewrite try_lexers_unfold.
  destruct (Nat.eqb (fst (lexInteger program i)) i).
  - destruct (Nat.eqb (fst (lexIdentifier program i)) i); [discriminate |].
    unfold lexIdentifier. intros [= <- _].
    destruct (lexIdentifier_loop_chars (String.length program - i) program i i
                (lexIdentifier_loop (String.length program - i) program i i - 1))
      as (c & Hget & _); [lia |].
    apply get_some_length in Hget. lia.
  - unfold lexInteger. intros [= <- _].
    destruct (lexInteger_loop_digits (String.length program - i) program i
                (lexInteger_loop (String.length program - i) program i - 1))
      as (c & Hget & _); [lia |].
    apply get_some_length in Hget. lia.
Qed.

Lemma lex_from_text (fuel : nat) (program : string) (i : nat) (tokens result : list Token) :
  lex_from fuel program i tokens = Ok result →
  concat_values result = concat_values tokens ++ strip_whitespace (js_slice program i).
Proof.
  revert i tokens. induction fuel as [|fuel IH]; intros i tokens; [discriminate |].
  rewrite lex_from_S. destruct (String.get i program) as [c|] eqn:Hget.
  2:{ intros [= <-]. rewrite js_slice_end by assumption. simpl.
      now rewrite string_app_nil_r. }
  rewrite (js_slice_cons _ _ _ Hget). cbn [strip_whitespace].
  destruct (is_whitespace c) eqn:Hw; [apply IH |].
  destruct (is_paren c).
  { intros H%IH. rewrite H, concat_values_app. simpl.
    now rewrite string_app_assoc. }
  destruct (try_lexers lexers program i) as [[newCursor token]|] eqn:Htry; [| discriminate].
  intros H%IH. rewrite H, concat_values_app. simpl. rewrite string_app_nil_r.
  rewrite string_app_assoc. f_equal.
  pose proof (try_lexers_advance _ _ _ _ Htry) as Hadv.
  pose proof (try_lexers_in_range _ _ _ _ Htry) as Hrange.
  pose proof (try_lexers_value _ _ _ _ Htry) as Hvalue.
  pose proof (valid_token_no_whitespace _ (try_lexers_valid _ _ _ _ Htry)) as Hstrip.
  replace (String c (strip_whitespace (js_slice program (S i))))
    with (strip_whitespace (js_slice program i))
    by (rewrite (js_slice_cons _ _ _ Hget); simpl; now rewrite Hw).
  rewrite (js_slice_split program i newCursor) by lia.
  now rewrite strip_whitespace_app, <- Hvalue, Hstrip.
Qed.

Lemma js_slice_all (program : string) : js_slice program 0 = program.
Proof.
  unfold js_slice. rewrite Nat.sub_0_r.
  rewrite <- (string_app_nil_r program) at 2.
  apply substring_app_prefix.
Qed.

(** X4. [lex] drops whitespace and nothing else: the texts of the tokens
    it returns, written one after the other, are the program without its
    whitespace characters. *)
Theorem lex_keeps_text (program : string) (tokens : list Token) :
  lex program = Ok tokens → concat_values tokens = strip_whitespace program.
Proof.
  intros Hlex. unfold lex in Hlex. apply lex_from_text in Hlex.
  now rewrite js_slice_all in Hlex.
Qed.

Lemma lex_keeps_text_witness :
  concat_values [mkToken "(" Syntax; mkToken "x1" Identifier; mkToken "007" Integer;
                 mkToken ")" Syntax]
  = strip_whitespace "(x1 007)".
Proof. apply (lex_keeps_text "(x1 007)"). reflexivity. Defined.

(** ** [append] on proper lists *)

Lemma append_of_list (l : list SexpOrNull) (x : Sexp) :
  (let? r := append (of_list l) (NotNull x) in Ok (NotNull r))
  = Ok (of_list (l ++ [NotNull x])).
Proof.
  induction l as [|y l IH]; [reflexivity |].
  cbn [of_list app append].
  destruct (append (of_list l) (NotNull x)) as [r| | |]; cbn [obind] in *;
    try discriminate.
  injection IH as ->. reflexivity.
Qed.

Lemma append_of_list_null (l : list SexpOrNull) :
  append (of_list l) Null = Throw (Error "Expected second.").
Proof.
  induction l as [|y l IH]; [reflexivity |].
  cbn [of_list append]. now rewrite IH.
Qed.

(** X5. On a proper list, [append] adds the second argument as the new
    last element: the result is the proper list of the elements followed by
    that one. With an absent second argument it fails with
    "Expected second.", whatever the length of the list. *)
Theorem append_adds_last (l : list SexpOrNull) (x : Sexp) :
  (let? r := append (of_list l) (NotNull x) in Ok (NotNull r))
  = Ok (of_list (l ++ [NotNull x])) ∧
  append (of_list l) Null = Throw (Error "Expected second.").
Proof. split; [apply append_of_list | apply append_of_list_null]. Qed.

(** ** [pretty] and the invariant *)

Lemma pretty_not_invariant (s : Sexp) :
  pair_invariant s = false → pretty (NotNull s) = Throw TypeError.
Proof.
  induction s as [a | p0 IH0 p1 IH1 | | s IH]
    using Sexp_mut
    with (P0 := fun o => match o with
                         | Null => True
                         | NotNull s => pair_invariant s = false →
                                        pretty (NotNull s) = Throw TypeError
                         end).
  - discriminate.
  - intros H. destruct p0 as [|f].
    { cbn [pretty]. destruct p1; reflexivity. }
    cbn [pair_invariant pair_invariant_or_null andb] in H.
    destruct (pair_invariant f) eqn:Hf.
    + destruct p1 as [|r]; [discriminate |]. cbn [andb pair_invariant_or_null] in H.
      destruct (pretty_invariant f Hf) as [text Htext].
      cbn [pretty] in *. rewrite Htext. cbn [obind]. now rewrite (IH1 H).
    + cbn [pretty] in *. rewrite (IH0 eq_refl). destruct p1; reflexivity.
  - exact I.
  - exact IH.
Qed.

(** X6. [pretty] prints exactly the s-expressions in which every Pair has
    a present first component; on any other it fails with the [TypeError]
    of reading a property of [null]. *)
Theorem pretty_outcome (s : Sexp) :
  if pair_invariant s
  then ∃ text, pretty (NotNull s) = Ok text
  else pretty (NotNull s) = Throw TypeError.
Proof.
  destruct (pair_invariant s) eqn:H;
    [now apply pretty_invariant | now apply pretty_not_invariant].
Qed.

(** ** [parse] without the fuel *)

Lemma parse_fuel_stable (fuel : nat) (tokens : list Token) :
  (∀ fuel' cursor,
     (0 < fuel)%nat → (2 * (length tokens - cursor) ≤ fuel)%nat →
     (0 < fuel')%nat → (2 * (length tokens - cursor) ≤ fuel')%nat →
     parse_fuel fuel tokens cursor = parse_fuel fuel' tokens cursor) ∧
  (∀ fuel' cursor siblings,
     (2 * (length tokens - cursor) < fuel)%nat →
     (2 * (length tokens - cursor) < fuel')%nat →
     parse_loop fuel tokens cursor siblings = parse_loop fuel' tokens cursor siblings).
Proof.
  induction fuel as [|fuel [IHp IHl]]; [split; intros; lia |].
  split.
  - intros [|fuel'] cursor _ Hfuel Hpos' Hfuel'; [lia |].
    rewrite !parse_fuel_S. destruct (tokens !! cursor) as [t0|] eqn:Ht0; [| reflexivity].
    apply lookup_lt_Some in Ht0.
    destruct (String.eqb (value t0) "("); [| reflexivity]. apply IHl; lia.
  - intros [|fuel'] cursor siblings Hfuel Hfuel'; [lia |].
    rewrite !parse_loop_S. destruct (tokens !! cursor) as [t|] eqn:Ht; [| reflexivity].
    apply lookup_lt_Some in Ht.
    destruct (String.eqb (value t) "(").
    + rewrite (IHp fuel' cursor) by lia.
      destruct (parse_fuel fuel' tokens cursor) as [[newCursor child]| | |] eqn:Hchild;
        cbn [obind]; try reflexivity.
      apply (proj1 (parse_fuel_cursor fuel' tokens)) in Hchild.
      destruct child as [|child]; [reflexivity |].
      destruct (append siblings (NotNull child)); cbn [obind]; try reflexivity.
      apply IHl; lia.
    + destruct (String.eqb (value t) ")"); [reflexivity |].
      destruct (append siblings (NotNull (makeSexpAtom t))); cbn [obind];
        try reflexivity.
      apply IHl; lia.
Qed.

Lemma parse_eq (tokens : list Token) (cursor : nat) :
  parse tokens cursor =
  match tokens !! cursor with
  | None => Throw TypeError
  | Some t0 =>
      if String.eqb (value t0) "(" then parse_siblings tokens (S cursor) Null
      else Throw (Error ("Expected opening parenthesis, got '" ++ value t0 ++ "'"))
  end.
Proof.
  unfold parse, parse_siblings.
  replace (2 * length tokens + 2)%nat with (S (2 * length tokens + 1)) at 1 by lia.
  rewrite parse_fuel_S. destruct (tokens !! cursor) as [t0|] eqn:Ht0; [| reflexivity].
  apply lookup_lt_Some in Ht0.
  destruct (String.eqb (value t0) "("); [| reflexivity].
  apply (proj2 (parse_fuel_stable _ tokens)); lia.
Qed.

Lemma parse_siblings_eq (tokens : list Token) (cursor : nat) (siblings : SexpOrNull) :
  parse_siblings tokens cursor siblings =
  match tokens !! cursor with
  | None => Ok (cursor, siblings)
  | Some t =>
      if String.eqb (value t) "(" then
        let? (newCursor, child) := parse tokens cursor in
        match child with
        | Null => Throw (Error "Expected child.")
        | NotNull _ =>
            let? siblings' := append siblings child in
            parse_siblings tokens (S newCursor) (NotNull siblings')
        end
      else if String.eqb (value t) ")" then Ok (cursor, siblings)
      else
        let? siblings' := append siblings (NotNull (makeSexpAtom t)) in
        parse_siblings tokens (S cursor) (NotNull siblings')
  end.
Proof.
  unfold parse, parse_siblings.
  replace (2 * length tokens + 2)%nat with (S (2 * length tokens + 1)) at 1 by lia.
  rewrite parse_loop_S. destruct (tokens !! cursor) as [t|] eqn:Ht; [| reflexivity].
  apply lookup_lt_Some in Ht.
  destruct (String.eqb (value t) "(").
  - rewrite (proj1 (parse_fuel_stable (2 * length tokens + 1) tokens)
               (2 * length tokens + 2)%nat cursor) by lia.
    destruct (parse_fuel (2 * length tokens + 2) tokens cursor)
      as [[newCursor child]| | |] eqn:Hchild; cbn [obind]; try reflexivity.
    destruct child as [|child]; [reflexivity |].
    destruct (append siblings (NotNull child)); cbn [obind]; try reflexivity.
    apply (proj2 (parse_fuel_stable _ tokens)); lia.
  - destruct (String.eqb (value t) ")"); [reflexivity |].
    destruct (append siblings (NotNull (makeSexpAtom t))); cbn [obind]; try reflexivity.
    apply (proj2 (parse_fuel_stable _ tokens)); lia.
Qed.

(** ** The outcomes of [parse] *)

Lemma parse_fuel_errors (fuel : nat) (tokens : list Token) :
  (∀ cursor t0,
     tokens !! cursor = Some t0 → value t0 = "(" →
     (∃ r, parse_fuel fuel tokens cursor = Ok r) ∨
     parse_fuel fuel tokens cursor = Throw (Error "Expected child.") ∨
     parse_fuel fuel tokens cursor = OutOfFuel) ∧
  (∀ cursor siblings,
     (∃ r, parse_loop fuel tokens cursor siblings = Ok r) ∨
     parse_loop fuel tokens cursor siblings = Throw (Error "Expected child.") ∨
     parse_loop fuel tokens cursor siblings = OutOfFuel).
Proof.
  induction fuel as [|fuel [IHp IHl]]; [split; intros; auto |].
  split.
  - intros cursor t0 Ht0 Hopen. rewrite parse_fuel_S, Ht0, Hopen. apply IHl.
  - intros cursor siblings. rewrite parse_loop_S.
    destruct (tokens !! cursor) as [t|] eqn:Ht; [| eauto].
    destruct (String.eqb (value t) "(") eqn:Hopen.
    + apply String.eqb_eq in Hopen.
      destruct (IHp cursor t Ht Hopen) as [[[newCursor child] ->] | [-> | ->]];
        cbn [obind]; auto.
      destruct child as [|child]; [auto |].
      destruct (append_present siblings child) as [siblings' ->]. cbn [obind].
      apply IHl.
    + destruct (String.eqb (value t) ")"); [eauto |].
      destruct (append_present siblings (makeSexpAtom t)) as [siblings' ->].
      cbn [obind]. apply IHl.
Qed.

(** X7. The outcomes of [parse]. With no token at the cursor it throws the
    [TypeError] of the failed read; with a token that is no opening
    parenthesis it throws "Expected opening parenthesis, got" and the text
    of that token; and from an opening parenthesis it either returns or
    throws "Expected child.", the error of an empty nested form: it throws
    nothing else. *)
Theorem parse_outcome (tokens : list Token) (cursor : nat) :
  match tokens !! cursor with
  | None => parse tokens cursor = Throw TypeError
  | Some t0 =>
      if String.eqb (value t0) "("
      then (∃ r, parse tokens cursor = Ok r) ∨
           parse tokens cursor = Throw (Error "Expected child.")
      else parse tokens cursor
           = Throw (Error ("Expected opening parenthesis, got '" ++ value t0 ++ "'"))
  end.
Proof.
  destruct (tokens !! cursor) as [t0|] eqn:Ht0.
  - destruct (String.eqb (value t0) "(") eqn:Hopen.
    + apply String.eqb_eq in Hopen.
      destruct (proj1 (parse_fuel_errors (2 * length tokens + 2) tokens) cursor t0 Ht0 Hopen)
        as [H | [H | H]]; [now left | now right |].
      now destruct (parse_total tokens cursor).
    + rewrite parse_eq, Ht0, Hopen. reflexivity.
  - rewrite parse_eq, Ht0. reflexivity.
Qed.

(** ** The shape of what [parse] returns *)

Lemma append_form (first : SexpOrNull) (x r : Sexp) :
  is_tail first = true → is_element (NotNull x) = true →
  append first (NotNull x) = Ok r → is_form r = true.
Proof.
  intros Hfirst Hx. revert r Hfirst.
  induction first as [a | p0 IH0 p1 IH1 | | s IH]
    using SexpOrNull_mut
    with (P := fun s => ∀ r, is_form s = true →
                 append (NotNull s) (NotNull x) = Ok r → is_form r = true).
  - discriminate.
  - intros r Hs. cbn [is_form] in Hs. apply andb_true_iff in Hs as [Hp0 Hp1].
    cbn [append]. destruct (append p1 (NotNull x)) as [rest| | |] eqn:Hrest;
      cbn [obind]; try discriminate.
    intros [= <-]. unfold makeSexpPair. cbn [is_form is_tail]. rewrite Hp0.
    now apply IH1.
  - intros r _ [= <-]. unfold makeSexpPair. cbn [is_form is_tail].
    now rewrite Hx.
  - exact IH.
Qed.

Lemma parse_fuel_form (fuel : nat) (tokens : list Token) :
  (∀ cursor c s, parse_fuel fuel tokens cursor = Ok (c, s) → is_tail s = true) ∧
  (∀ cursor siblings c s, is_tail siblings = true →
     parse_loop fuel tokens cursor siblings = Ok (c, s) → is_tail s = true).
Proof.
  induction fuel as [|fuel [IHp IHl]]; [split; intros; discriminate |].
  split.
  - intros cursor c s. rewrite parse_fuel_S.
    destruct (tokens !! cursor) as [t0|]; [| discriminate].
    destruct (String.eqb (value t0) "("); [| discriminate].
    now apply IHl.
  - intros cursor siblings c s Hsib. rewrite parse_loop_S.
    destruct (tokens !! cursor) as [t|]; [| now intros [= <- <-]].
    destruct (String.eqb (value t) "(") eqn:Hopen.
    + destruct (parse_fuel fuel tokens cursor) as [[newCursor child]| | |] eqn:Hchild;
        cbn [obind]; try discriminate.
      destruct child as [|child]; [discriminate |].
      apply IHp in Hchild. cbn [is_tail] in Hchild.
      destruct (append siblings (NotNull child)) as [siblings'| | |] eqn:Happ;
        cbn [obind]; try discriminate.
      apply IHl. cbn [is_tail]. apply (append_form _ _ _ Hsib) in Happ; [assumption |].
      cbn [is_element]. destruct child; [discriminate | assumption].
    + destruct (String.eqb (value t) ")") eqn:Hclose; [now intros [= <- <-] |].
      destruct (append siblings (NotNull (makeSexpAtom t))) as [siblings'| | |] eqn:Happ;
        cbn [obind]; try discriminate.
      apply IHl. cbn [is_tail]. apply (append_form _ _ _ Hsib) in Happ; [assumption |].
      unfold makeSexpAtom. cbn [is_element]. unfold is_paren_text.
      now rewrite Hopen, Hclose.
Qed.

(** X8. What [parse] returns is absent or a form: a non-empty proper list
    (a chain of Pairs ended by the absence marker) whose elements are atoms
    with a text that is no parenthesis, or forms again. It never returns a
    bare atom, a dotted pair or a list with an empty list in it. *)
Theorem parse_returns_form (tokens : list Token) (cursor c : nat) (s : Sexp) :
  parse tokens cursor = Ok (c, NotNull s) → is_form s = true.
Proof. intros H. exact (proj1 (parse_fuel_form _ tokens) _ _ _ H). Qed.

Lemma parse_returns_form_witness :
  is_form (SexpPair (NotNull (SexpAtom (mkToken "a" Identifier))) Null) = true.
Proof.
  apply (parse_returns_form
           [mkToken "(" Syntax; mkToken "a" Identifier; mkToken ")" Syntax] 0 2).
  reflexivity.
Defined.

(** ** Tokens to s-expression and back *)

Section TokenForms.

Local Open Scope list_scope.

Lemma of_list_elems (s : Sexp) : is_form s = true → of_list (elems s) = NotNull s.
Proof.
  induction s as [a | p0 IH0 p1 IH1 | | s IH]
    using Sexp_mut
    with (P0 := fun o => is_tail o = true → of_list (tail_elems o) = o).
  - discriminate.
  - intros H. cbn [is_form] in H. apply andb_true_iff in H as [_ Hp1].
    change (elems (SexpPair p0 p1)) with (p0 :: tail_elems p1).
    cbn [of_list]. now rewrite IH1.
  - reflexivity.
  - exact IH.
Qed.

Lemma append_element (l : list SexpOrNull) (x : Sexp) :
  ∃ r, append (of_list l) (NotNull x) = Ok r ∧ NotNull r = of_list (l ++ [NotNull x]).
Proof.
  pose proof (append_of_list l x) as H.
  destruct (append (of_list l) (NotNull x)) as [r| | |]; cbn [obind] in H;
    try discriminate.
  exists r. split; [reflexivity | congruence].
Qed.

Lemma parse_siblings_close (tokens : list Token) (cursor : nat) (siblings : SexpOrNull)
    (tc : Token) (rest : list Token) :
  drop cursor tokens = tc :: rest → value tc = ")" →
  parse_siblings tokens cursor siblings = Ok (cursor, siblings).
Proof.
  intros Hdrop Hclose. rewrite parse_siblings_eq.
  assert (tokens !! cursor = Some tc) as ->.
  { rewrite <- (Nat.add_0_r cursor), <- lookup_drop, Hdrop. reflexivity. }
  now rewrite Hclose.
Qed.

Lemma drop_app_tail (tokens a b : list Token) (cursor : nat) :
  drop cursor tokens = a ++ b → drop (cursor + length a) tokens = b.
Proof.
  intros H. rewrite <- drop_drop, H. apply drop_app_length.
Qed.

(** The loop of [parse] over the tokens of the elements of a form. *)
Lemma parse_siblings_elements (s : Sexp) :
  is_form s = true →
  ∀ (tokens : list Token) (cursor : nat) (l : list SexpOrNull) (tc : Token)
    (rest : list Token),
    drop cursor tokens = elements_tokens s ++ tc :: rest → value tc = ")" →
    parse_siblings tokens cursor (of_list l)
    = Ok ((cursor + length (elements_tokens s))%nat, of_list (l ++ elems s)).
Proof.
  induction s as [a | p0 IH0 p1 IH1 | | s IH]
    using Sexp_mut
    with (P0 := fun o =>
      (is_element o = true →
       ∀ (tokens : list Token) (cursor : nat) (l : list SexpOrNull) (rest : list Token),
         drop cursor tokens = element_tokens o ++ rest →
         parse_siblings tokens cursor (of_list l)
         = parse_siblings tokens (cursor + length (element_tokens o)) (of_list (l ++ [o]))) ∧
      (is_tail o = true →
       ∀ (tokens : list Token) (cursor : nat) (l : list SexpOrNull) (tc : Token)
         (rest : list Token),
         drop cursor tokens = tail_tokens o ++ tc :: rest → value tc = ")" →
         parse_siblings tokens cursor (of_list l)
         = Ok ((cursor + length (tail_tokens o))%nat, of_list (l ++ tail_elems o)))).
  - discriminate.
  - (* a chain: one element, then the tail *)
    intros Hform tokens cursor l tc rest Hdrop Hclose.
    cbn [is_form] in Hform. apply andb_true_iff in Hform as [Hp0 Hp1].
    change (elements_tokens (SexpPair p0 p1)) with (element_tokens p0 ++ tail_tokens p1)
      in *.
    change (elems (SexpPair p0 p1)) with (p0 :: tail_elems p1).
    rewrite <- app_assoc in Hdrop.
    rewrite (proj1 IH0 Hp0 tokens cursor l _ Hdrop).
    rewrite (proj2 IH1 Hp1 tokens _ (l ++ [p0]) tc rest (drop_app_tail _ _ _ _ Hdrop) Hclose).
    rewrite length_app, <- app_assoc. do 2 f_equal. lia.
  - (* the absence marker: no element, an empty tail *)
    split; [discriminate |].
    intros _ tokens cursor l tc rest Hdrop Hclose. cbn [tail_tokens app] in Hdrop.
    rewrite (parse_siblings_close _ _ _ _ _ Hdrop Hclose).
    cbn [tail_tokens tail_elems length]. now rewrite Nat.add_0_r, app_nil_r.
  - split; [| exact IH].
    (* one element: an atom or a nested form *)
    intros Helem tokens cursor l rest Hdrop.
    destruct s as [atom | q0 q1].
    + cbn [is_element] in Helem. cbn [element_tokens app] in Hdrop.
      rewrite parse_siblings_eq.
      assert (tokens !! cursor = Some atom) as ->.
      { rewrite <- (Nat.add_0_r cursor), <- lookup_drop, Hdrop. reflexivity. }
      unfold is_paren_text in Helem. apply negb_true_iff, orb_false_iff in Helem as [-> ->].
      destruct (append_element l (makeSexpAtom atom)) as (r & -> & Hr). cbn [obind].
      rewrite Hr. cbn [element_tokens length]. now rewrite Nat.add_1_r.
    + cbn [is_element] in Helem.
      change (element_tokens (NotNull (SexpPair q0 q1)))
        with (open_paren :: elements_tokens (SexpPair q0 q1) ++ [close_paren]) in *.
      cbn [app] in Hdrop. rewrite <- app_assoc in Hdrop. cbn [app] in Hdrop.
      assert (tokens !! cursor = Some open_paren) as Hopen.
      { rewrite <- (Nat.add_0_r cursor), <- lookup_drop, Hdrop. reflexivity. }
      assert (drop (S cursor) tokens
              = elements_tokens (SexpPair q0 q1) ++ close_paren :: rest) as Hinner.
      { rewrite <- Nat.add_1_r. exact (drop_app_tail _ [open_paren] _ _ Hdrop). }
      rewrite parse_siblings_eq, Hopen. cbn [open_paren value String.eqb Ascii.eqb
                                              Bool.eqb].
      rewrite parse_eq, Hopen. cbn [open_paren value String.eqb Ascii.eqb Bool.eqb].
      pose proof (IH Helem tokens (S cursor) [] close_paren rest Hinner eq_refl) as Hin.
      cbn [of_list app] in Hin. rewrite Hin.
      cbn [obind]. rewrite (of_list_elems _ Helem).
      destruct (append_element l (SexpPair q0 q1)) as (r & -> & Hr). cbn [obind].
      rewrite Hr. f_equal. cbn [length]. rewrite length_app. cbn [length]. lia.
Qed.

Lemma parse_form_tokens_at (s : Sexp) (pre post : list Token) :
  is_form s = true →
  parse (pre ++ form_tokens s ++ post) (length pre)
  = Ok ((length pre + length (form_tokens s) - 1)%nat, NotNull s).
Proof.
  intros Hform.
  assert (drop (length pre) (pre ++ form_tokens s ++ post)
          = open_paren :: elements_tokens s ++ close_paren :: post) as Hdrop.
  { rewrite drop_app_length. unfold form_tokens. cbn [app].
    now rewrite <- app_assoc. }
  rewrite parse_eq.
  assert ((pre ++ form_tokens s ++ post) !! length pre = Some open_paren) as ->.
  { rewrite <- (Nat.add_0_r (length pre)), <- lookup_drop, Hdrop. reflexivity. }
  cbn [open_paren value String.eqb Ascii.eqb Bool.eqb].
  pose proof (parse_siblings_elements s Hform (pre ++ form_tokens s ++ post)
                (S (length pre)) [] close_paren post) as Hin.
  cbn [of_list app] in Hin. rewrite Hin.
  - rewrite (of_list_elems _ Hform). f_equal. f_equal.
    unfold form_tokens. cbn [length]. rewrite length_app. cbn [length]. lia.
  - rewrite <- Nat.add_1_r. exact (drop_app_tail _ [open_paren] _ _ Hdrop).
  - reflexivity.
Qed.

Lemma parse_empty_form_at (pre post : list Token) :
  parse (pre ++ open_paren :: close_paren :: post) (length pre)
  = Ok ((length pre + 1)%nat, Null).
Proof.
  rewrite parse_eq.
  assert ((pre ++ open_paren :: close_paren :: post) !! length pre = Some open_paren)
    as -> by (now rewrite list_lookup_middle).
  cbn [open_paren value String.eqb Ascii.eqb Bool.eqb].
  rewrite (parse_siblings_close _ (S (length pre)) Null close_paren post);
    [now rewrite Nat.add_1_r | | reflexivity].
  rewrite <- Nat.add_1_r.
  apply (drop_app_tail _ [open_paren]). now rewrite drop_app_length.
Qed.

(** X9. Tokens to s-expression and back. A form written as tokens, each
    atom as its token and each nested form between parentheses, is parsed
    back to that same form wherever it stands in the token sequence, and
    the cursor [parse] returns is on its closing parenthesis; the empty
    form [()] is parsed to the absence marker. *)
Theorem parse_form_tokens (s : Sexp) (pre post : list Token) :
  is_form s = true →
  parse (pre ++ form_tokens s ++ post) (length pre)
  = Ok ((length pre + length (form_tokens s) - 1)%nat, NotNull s) ∧
  parse (pre ++ open_paren :: close_paren :: post) (length pre)
  = Ok ((length pre + 1)%nat, Null).
Proof.
  intros Hform. split; [now apply parse_form_tokens_at | apply parse_empty_form_at].
Qed.

Lemma parse_form_tokens_witness :
  parse ([mkToken "x" Identifier] ++
         form_tokens (SexpPair (NotNull (SexpAtom (mkToken "a" Identifier))) Null) ++ [])
    1
  = Ok (3%nat, NotNull (SexpPair (NotNull (SexpAtom (mkToken "a" Identifier))) Null)).
Proof.
  exact (proj1 (parse_form_tokens
                  (SexpPair (NotNull (SexpAtom (mkToken "a" Identifier))) Null)
                  [mkToken "x" Identifier] [] eq_refl)).
Defined.

(** ** Text to s-expression and back *)

Lemma append_atoms_valid (first second : SexpOrNull) (r : Sexp) :
  atoms_valid_or_null first = true → atoms_valid_or_null second = true →
  append first second = Ok r → atoms_valid r = true.
Proof.
  intros Hfirst Hsecond. revert r Hfirst.
  induction first as [a | p0 IH0 p1 IH1 | | s IH]
    using SexpOrNull_mut
    with (P := fun s => ∀ r, atoms_valid s = true →
                 append (NotNull s) second = Ok r → atoms_valid r = true).
  - intros r Ha [= <-]. unfold makeSexpPair. cbn [atoms_valid atoms_valid_or_null].
    cbn [atoms_valid] in Ha. now rewrite Ha, Hsecond.
  - intros r Hinv. cbn [atoms_valid] in Hinv. apply andb_true_iff in Hinv as [Hp0 Hp1].
    cbn [append]. destruct (append p1 second) as [rest| | |] eqn:Hrest; cbn [obind];
      try discriminate.
    intros [= <-]. unfold makeSexpPair. cbn [atoms_valid atoms_valid_or_null].
    rewrite Hp0. now apply IH1.
  - intros r _. cbn [append]. destruct second as [|s]; [discriminate |].
    intros [= <-]. unfold makeSexpPair. cbn [atoms_valid atoms_valid_or_null] in *.
    now rewrite Hsecond.
  - exact IH.
Qed.

Lemma parse_fuel_atoms_valid (fuel : nat) (tokens : list Token) :
  Forall (fun t => valid_token t = true) tokens →
  (∀ cursor c s, parse_fuel fuel tokens cursor = Ok (c, s) →
     atoms_valid_or_null s = true) ∧
  (∀ cursor siblings c s, atoms_valid_or_null siblings = true →
     parse_loop fuel tokens cursor siblings = Ok (c, s) → atoms_valid_or_null s = true).
Proof.
  intros Hvalid. induction fuel as [|fuel [IHp IHl]]; [split; intros; discriminate |].
  split.
  - intros cursor c s. rewrite parse_fuel_S.
    destruct (tokens !! cursor) as [t0|]; [| discriminate].
    destruct (String.eqb (value t0) "("); [| discriminate].
    now apply IHl.
  - intros cursor siblings c s Hsib. rewrite parse_loop_S.
    destruct (tokens !! cursor) as [t|] eqn:Ht; [| now intros [= <- <-]].
    destruct (String.eqb (value t) "(") eqn:Hopen.
    + destruct (parse_fuel fuel tokens cursor) as [[newCursor child]| | |] eqn:Hchild;
        cbn [obind]; try discriminate.
      destruct child as [|child]; [discriminate |].
      apply IHp in Hchild.
      destruct (append siblings (NotNull child)) as [siblings'| | |] eqn:Happ;
        cbn [obind]; try discriminate.
      apply IHl. exact (append_atoms_valid _ _ _ Hsib Hchild Happ).
    + destruct (String.eqb (value t) ")") eqn:Hclose; [now intros [= <- <-] |].
      destruct (append siblings (NotNull (makeSexpAtom t))) as [siblings'| | |] eqn:Happ;
        cbn [obind]; try discriminate.
      apply IHl. apply (append_atoms_valid _ (NotNull (makeSexpAtom t)) _ Hsib);
        [| exact Happ].
      unfold makeSexpAtom. cbn [atoms_valid_or_null atoms_valid].
      rewrite Forall_forall in Hvalid.
      pose proof (Hvalid t (list_elem_of_lookup_2 _ _ _ Ht)) as Hv. rewrite Hv.
      unfold valid_token in Hv. destruct (kind t); try reflexivity.
      unfold syntax_lexeme in Hv. rewrite Hopen, Hclose in Hv. discriminate.
Qed.

Lemma form_tokens_valid (s : Sexp) :
  atoms_valid s = true → Forall (fun t => valid_token t = true) (elements_tokens s).
Proof.
  induction s as [a | p0 IH0 p1 IH1 | | s IH]
    using Sexp_mut
    with (P0 := fun o => atoms_valid_or_null o = true →
                  Forall (fun t => valid_token t = true) (element_tokens o) ∧
                  Forall (fun t => valid_token t = true) (tail_tokens o)).
  - cbn [atoms_valid elements_tokens]. intros H. apply andb_true_iff in H as [H _].
    now repeat constructor.
  - intros H. cbn [atoms_valid] in H. apply andb_true_iff in H as [Hp0 Hp1].
    change (elements_tokens (SexpPair p0 p1)) with (element_tokens p0 ++ tail_tokens p1).
    apply Forall_app. split; [apply (IH0 Hp0) | apply (IH1 Hp1)].
  - intros _. split; constructor.
  - intros H. cbn [atoms_valid_or_null] in H. specialize (IH H).
    split; [| exact IH]. destruct s as [a | q0 q1]; [exact IH |].
    change (element_tokens (NotNull (SexpPair q0 q1)))
      with (open_paren :: elements_tokens (SexpPair q0 q1) ++ [close_paren]).
    constructor; [reflexivity |]. apply Forall_app. split; [exact IH |].
    now repeat constructor.
Qed.

Lemma well_separated_spaces (ts : list Token) :
  Forall (fun t => valid_token t = true) ts →
  well_separated (map (fun t => (t, " ")) ts) = true.
Proof.
  induction 1 as [|t ts Ht _ IH]; [reflexivity |].
  cbn [map well_separated]. rewrite Ht, IH. reflexivity.
Qed.

Lemma lex_write_form (s : Sexp) :
  atoms_valid s = true → lex (write_form s) = Ok (form_tokens s).
Proof.
  intros Hs. unfold write_form.
  pose proof (lex_lead_join "" (map (fun t => (t, " ")) (form_tokens s)) eq_refl) as H.
  rewrite string_app_nil_l in H. rewrite H.
  - f_equal. rewrite map_map. cbn [fst]. apply map_id.
  - apply well_separated_spaces. unfold form_tokens.
    constructor; [reflexivity |]. apply Forall_app.
    split; [now apply form_tokens_valid | now repeat constructor].
Qed.

(** X10. Text to s-expression and back. Whatever form [parse] returns on
    the tokens of a lexed program, writing that form as bare-list text (its
    tokens separated by spaces, nested forms between parentheses) and
    lexing and parsing the text gives the same form again. *)
Theorem write_and_reparse (program : string) (tokens : list Token) (cursor c : nat)
    (s : Sexp) :
  lex program = Ok tokens → parse tokens cursor = Ok (c, NotNull s) →
  lex (write_form s) = Ok (form_tokens s) ∧
  (let? tokens' := lex (write_form s) in parse tokens' 0)
  = Ok ((length (form_tokens s) - 1)%nat, NotNull s).
Proof.
  intros Hlex Hparse.
  assert (Forall (fun t => valid_token t = true) tokens) as Hvalid.
  { unfold lex in Hlex. eapply lex_from_valid; [| exact Hlex]. constructor. }
  pose proof (proj1 (parse_fuel_atoms_valid _ tokens Hvalid) _ _ _ Hparse) as Hatoms.
  pose proof (proj1 (parse_fuel_form _ tokens) _ _ _ Hparse) as Hform.
  cbn [atoms_valid_or_null is_tail] in Hatoms, Hform.
  rewrite (lex_write_form s Hatoms). split; [reflexivity |]. cbn [obind].
  pose proof (parse_form_tokens_at s [] [] Hform) as H.
  cbn [app length Nat.add] in H. now rewrite app_nil_r in H.
Qed.

Lemma write_and_reparse_witness :
  lex (write_form (SexpPair (NotNull (SexpAtom (mkToken "+" Identifier)))
                     (NotNull (SexpPair (NotNull (SexpAtom (mkToken "1" Integer))) Null))))
  = Ok (form_tokens
          (SexpPair (NotNull (SexpAtom (mkToken "+" Identifier)))
             (NotNull (SexpPair (NotNull (SexpAtom (mkToken "1" Integer))) Null)))) ∧
  (let? tokens' :=
     lex (write_form (SexpPair (NotNull (SexpAtom (mkToken "+" Identifier)))
                        (NotNull (SexpPair (NotNull (SexpAtom (mkToken "1" Integer)))
                                    Null))))
   in parse tokens' 0)
  = Ok (3%nat,
        NotNull (SexpPair (NotNull (SexpAtom (mkToken "+" Identifier)))
                   (NotNull (SexpPair (NotNull (SexpAtom (mkToken "1" Integer))) Null)))).
Proof.
  apply (write_and_reparse "(+ 1)"
           [mkToken "(" Syntax; mkToken "+" Identifier; mkToken "1" Integer;
            mkToken ")" Syntax] 0 3); reflexivity.
Defined.

End TokenForms.

(** ** S-expression to tokens and back *)

Section ParsedTokens.

Local Open Scope list_scope.

Lemma valid_open_paren (t : Token) :
  valid_token t = true → value t = "(" → t = open_paren.
Proof.
  destruct t as [v k]. unfold valid_token. cbn [value kind]. intros Hv ->.
  now destruct k.
Qed.

Lemma valid_close_paren (t : Token) :
  valid_token t = true → value t = ")" → t = close_paren.
Proof.
  destruct t as [v k]. unfold valid_token. cbn [value kind]. intros Hv ->.
  now destruct k.
Qed.

Lemma tail_tokens_of_list (l : list SexpOrNull) :
  tail_tokens (of_list l) = flat_map element_tokens l.
Proof.
  induction l as [|x l IH]; [reflexivity |].
  cbn [of_list flat_map]. rewrite <- IH. reflexivity.
Qed.

Lemma append_tail_tokens (first : SexpOrNull) (x r : Sexp) :
  is_tail first = true → append first (NotNull x) = Ok r →
  elements_tokens r = tail_tokens first ++ element_tokens (NotNull x).
Proof.
  intros Hfirst Happ.
  assert (first = of_list (tail_elems first)) as Hl.
  { destruct first as [|s]; [reflexivity |]. symmetry. now apply of_list_elems. }
  rewrite Hl in Happ |- *.
  destruct (append_element (tail_elems first) x) as (r' & Hr' & Hlist).
  rewrite Hr' in Happ. injection Happ as <-.
  change (elements_tokens r') with (tail_tokens (NotNull r')).
  rewrite Hlist, !tail_tokens_of_list, flat_map_app. cbn [flat_map].
  now rewrite app_nil_r.
Qed.

Lemma slice_cons (tokens : list Token) (cursor c : nat) (t : Token) :
  tokens !! cursor = Some t → (cursor < c)%nat →
  take (c - cursor) (drop cursor tokens)
  = t :: take (c - S cursor) (drop (S cursor) tokens).
Proof.
  intros Ht Hlt. rewrite (drop_S _ _ _ Ht).
  replace (c - cursor)%nat with (S (c - S cursor)) by lia. reflexivity.
Qed.

Lemma slice_split (tokens : list Token) (a b c : nat) :
  (a ≤ b)%nat → (b ≤ c)%nat →
  take (c - a) (drop a tokens)
  = take (b - a) (drop a tokens) ++ take (c - b) (drop b tokens).
Proof.
  intros Hab Hbc. replace (c - a)%nat with ((b - a) + (c - b))%nat by lia.
  rewrite <- take_take_drop, drop_drop. do 3 f_equal. lia.
Qed.

Lemma slice_snoc (tokens : list Token) (cursor c : nat) (t : Token) :
  tokens !! c = Some t → (cursor ≤ c)%nat →
  take (S c - cursor) (drop cursor tokens)
  = take (c - cursor) (drop cursor tokens) ++ [t].
Proof.
  intros Ht Hle. rewrite (slice_split tokens cursor c (S c)) by lia.
  f_equal. replace (S c - c)%nat with 1%nat by lia.
  now rewrite (drop_S _ _ _ Ht).
Qed.

Lemma parse_fuel_close (fuel : nat) (tokens : list Token) :
  (∀ cursor c s, parse_fuel fuel tokens cursor = Ok (c, s) →
     ∀ t, tokens !! c = Some t → value t = ")") ∧
  (∀ cursor siblings c s, parse_loop fuel tokens cursor siblings = Ok (c, s) →
     ∀ t, tokens !! c = Some t → value t = ")").
Proof.
  induction fuel as [|fuel [IHp IHl]]; [split; intros; discriminate |].
  split.
  - intros cursor c s. rewrite parse_fuel_S.
    destruct (tokens !! cursor) as [t0|]; [| discriminate].
    destruct (String.eqb (value t0) "("); [| discriminate].
    apply IHl.
  - intros cursor siblings c s. rewrite parse_loop_S.
    destruct (tokens !! cursor) as [t|] eqn:Ht.
    + destruct (String.eqb (value t) "(") eqn:Hopen.
      * destruct (parse_fuel fuel tokens cursor) as [[newCursor child]| | |];
          cbn [obind]; try discriminate.
        destruct child as [|child]; [discriminate |].
        destruct (append siblings (NotNull child)); cbn [obind]; try discriminate.
        apply IHl.
      * destruct (String.eqb (value t) ")") eqn:Hclose.
        -- intros [= <- <-] t' Ht'. rewrite Ht in Ht'. injection Ht' as <-.
           now apply String.eqb_eq.
        -- destruct (append siblings (NotNull (makeSexpAtom t))); cbn [obind];
             try discriminate.
           apply IHl.
    + intros [= <- <-] t' Ht'. rewrite Ht in Ht'. discriminate.
Qed.

Lemma parse_fuel_reads (fuel : nat) (tokens : list Token) :
  Forall (fun t => valid_token t = true) tokens →
  (∀ cursor c s, parse_fuel fuel tokens cursor = Ok (c, s) → (c < length tokens)%nat →
     take (S c - cursor) (drop cursor tokens)
     = open_paren :: tail_tokens s ++ [close_paren]) ∧
  (∀ cursor siblings c s, is_tail siblings = true →
     parse_loop fuel tokens cursor siblings = Ok (c, s) → (c < length tokens)%nat →
     tail_tokens s = tail_tokens siblings ++ take (c - cursor) (drop cursor tokens)).
Proof.
  intros Hvalid. rewrite Forall_forall in Hvalid.
  induction fuel as [|fuel [IHp IHl]]; [split; intros; discriminate |].
  split.
  - intros cursor c s Hparse Hc.
    pose proof (proj1 (parse_fuel_cursor _ tokens) _ _ _ Hparse) as Hlt.
    destruct (lookup_lt_is_Some_2 tokens c Hc) as [tc Htc].
    pose proof (proj1 (parse_fuel_close _ tokens) _ _ _ Hparse _ Htc) as Hclose.
    rewrite parse_fuel_S in Hparse.
    destruct (tokens !! cursor) as [t0|] eqn:Ht0; [| discriminate].
    destruct (String.eqb (value t0) "(") eqn:Hopen; [| discriminate].
    apply String.eqb_eq in Hopen.
    rewrite (slice_snoc _ _ _ _ Htc) by lia.
    rewrite (slice_cons _ _ _ _ Ht0) by lia.
    rewrite (IHl (S cursor) Null c s eq_refl Hparse Hc). cbn [tail_tokens app].
    rewrite (valid_open_paren t0 (Hvalid _ (list_elem_of_lookup_2 _ _ _ Ht0)) Hopen).
    rewrite (valid_close_paren tc (Hvalid _ (list_elem_of_lookup_2 _ _ _ Htc)) Hclose).
    reflexivity.
  - intros cursor siblings c s Hsib Hloop Hc. rewrite parse_loop_S in Hloop.
    destruct (tokens !! cursor) as [t|] eqn:Ht.
    + destruct (String.eqb (value t) "(") eqn:Hopen.
      * destruct (parse_fuel fuel tokens cursor) as [[newCursor child]| | |] eqn:Hchild;
          cbn [obind] in Hloop; try discriminate.
        destruct child as [|child]; [discriminate |].
        destruct (append siblings (NotNull child)) as [siblings'| | |] eqn:Happ;
          cbn [obind] in Hloop; try discriminate.
        pose proof (proj1 (parse_fuel_cursor _ tokens) _ _ _ Hchild) as Hlt.
        pose proof (proj2 (parse_fuel_cursor _ tokens) _ _ _ _ Hloop) as Hle.
        pose proof (proj1 (parse_fuel_form _ tokens) _ _ _ Hchild) as Hform.
        cbn [is_tail] in Hform.
        assert (is_element (NotNull child) = true) as Helem.
        { destruct child; [discriminate | exact Hform]. }
        rewrite (IHl _ (NotNull siblings') _ _ (append_form _ _ _ Hsib Helem Happ) Hloop Hc).
        cbn [tail_tokens]. rewrite (append_tail_tokens _ _ _ Hsib Happ).
        rewrite <- app_assoc. f_equal.
        rewrite (slice_split tokens cursor (S newCursor) c) by lia. f_equal.
        rewrite (IHp _ _ _ Hchild) by lia.
        destruct child; [discriminate | reflexivity].
      * destruct (String.eqb (value t) ")") eqn:Hclose.
        -- injection Hloop as <- <-. rewrite Nat.sub_diag. cbn [take].
           now rewrite app_nil_r.
        -- destruct (append siblings (NotNull (makeSexpAtom t))) as [siblings'| | |]
             eqn:Happ; cbn [obind] in Hloop; try discriminate.
           pose proof (proj2 (parse_fuel_cursor _ tokens) _ _ _ _ Hloop) as Hle.
           assert (is_element (NotNull (makeSexpAtom t)) = true) as Helem.
           { unfold makeSexpAtom. cbn [is_element]. unfold is_paren_text.
             now rewrite Hopen, Hclose. }
           rewrite (IHl _ (NotNull siblings') _ _ (append_form _ _ _ Hsib Helem Happ) Hloop Hc).
           cbn [tail_tokens]. rewrite (append_tail_tokens _ _ _ Hsib Happ).
           rewrite <- app_assoc. f_equal.
           now rewrite (slice_cons _ _ _ _ Ht) by lia.
    + injection Hloop as <- <-. rewrite Nat.sub_diag. cbn [take].
      now rewrite app_nil_r.
Qed.

(** X11. S-expression to tokens and back. When [parse] returns on the
    tokens of a lexed program, its cursor is past the one it started from
    and stands on a closing parenthesis if it stands on a token at all; and
    then the tokens from the starting cursor to the returned one are the
    returned form written as tokens: no token is skipped or read twice. *)
Theorem parse_reads_form_tokens (program : string) (tokens : list Token)
    (cursor c : nat) (s : Sexp) :
  lex program = Ok tokens → parse tokens cursor = Ok (c, NotNull s) →
  (cursor < c)%nat ∧
  (∀ t, tokens !! c = Some t → t = close_paren) ∧
  ((c < length tokens)%nat →
   take (S c - cursor) (drop cursor tokens) = form_tokens s).
Proof.
  intros Hlex Hparse.
  assert (Forall (fun t => valid_token t = true) tokens) as Hvalid.
  { unfold lex in Hlex. eapply lex_from_valid; [| exact Hlex]. constructor. }
  refine (conj _ (conj _ _)).
  - exact (proj1 (parse_fuel_cursor _ tokens) _ _ _ Hparse).
  - intros t Ht. rewrite Forall_forall in Hvalid.
    apply valid_close_paren; [exact (Hvalid _ (list_elem_of_lookup_2 _ _ _ Ht)) |].
    exact (proj1 (parse_fuel_close _ tokens) _ _ _ Hparse _ Ht).
  - intros Hc. exact (proj1 (parse_fuel_reads _ tokens Hvalid) _ _ _ Hparse Hc).
Qed.

Lemma parse_reads_form_tokens_witness :
  (1 < 3)%nat ∧
  (∀ t, [mkToken "(" Syntax; mkToken "(" Syntax; mkToken "a" Identifier;
         mkToken ")" Syntax; mkToken ")" Syntax] !! 3%nat = Some t → t = close_paren) ∧
  ((3 < 5)%nat →
   take (4 - 1) (drop 1 [mkToken "(" Syntax; mkToken "(" Syntax; mkToken "a" Identifier;
                         mkToken ")" Syntax; mkToken ")" Syntax])
   = form_tokens (SexpPair (NotNull (SexpAtom (mkToken "a" Identifier))) Null)).
Proof.
  apply (parse_reads_form_tokens "((a))"); reflexivity.
Defined.

End ParsedTokens.

(** ** Unterminated forms, completed *)

Section Unterminated.

Local Open Scope list_scope.

Lemma parse_fuel_mono (fuel : nat) (tokens : list Token) :
  (∀ fuel' cursor r, (fuel ≤ fuel')%nat →
     parse_fuel fuel tokens cursor = Ok r → parse_fuel fuel' tokens cursor = Ok r) ∧
  (∀ fuel' cursor siblings r, (fuel ≤ fuel')%nat →
     parse_loop fuel tokens cursor siblings = Ok r →
     parse_loop fuel' tokens cursor siblings = Ok r).
Proof.
  induction fuel as [|fuel [IHp IHl]]; [split; intros; discriminate |].
  split.
  - intros [|fuel'] cursor r Hle; [lia |]. rewrite !parse_fuel_S.
    destruct (tokens !! cursor) as [t0|]; [| discriminate].
    destruct (String.eqb (value t0) "("); [| discriminate].
    apply IHl. lia.
  - intros [|fuel'] cursor siblings r Hle; [lia |]. rewrite !parse_loop_S.
    destruct (tokens !! cursor) as [t|]; [| easy].
    destruct (String.eqb (value t) "(").
    + destruct (parse_fuel fuel tokens cursor) as [[newCursor child]| | |] eqn:Hchild;
        cbn [obind]; try discriminate.
      rewrite (IHp fuel' _ _ ltac:(lia) Hchild). cbn [obind].
      destruct child as [|child]; [discriminate |].
      destruct (append siblings (NotNull child)); cbn [obind]; try discriminate.
      apply IHl. lia.
    + destruct (String.eqb (value t) ")"); [easy |].
      destruct (append siblings (NotNull (makeSexpAtom t))); cbn [obind];
        try discriminate.
      apply IHl. lia.
Qed.

(** A form closed inside the tokens is read the same whatever follows. *)
Lemma parse_fuel_prefix (fuel : nat) (tokens extra : list Token) :
  (∀ cursor c s, parse_fuel fuel tokens cursor = Ok (c, s) → (c < length tokens)%nat →
     parse_fuel fuel (tokens ++ extra) cursor = Ok (c, s)) ∧
  (∀ cursor siblings c s,
     parse_loop fuel tokens cursor siblings = Ok (c, s) → (c < length tokens)%nat →
     parse_loop fuel (tokens ++ extra) cursor siblings = Ok (c, s)).
Proof.
  induction fuel as [|fuel [IHp IHl]]; [split; intros; discriminate |].
  split.
  - intros cursor c s. rewrite !parse_fuel_S.
    destruct (tokens !! cursor) as [t0|] eqn:Ht0; [| discriminate].
    rewrite (lookup_app_l_Some _ _ _ _ Ht0).
    destruct (String.eqb (value t0) "("); [| discriminate].
    apply IHl.
  - intros cursor siblings c s. rewrite !parse_loop_S.
    destruct (tokens !! cursor) as [t|] eqn:Ht.
    + rewrite (lookup_app_l_Some _ _ _ _ Ht).
      destruct (String.eqb (value t) "(").
      * destruct (parse_fuel fuel tokens cursor) as [[newCursor child]| | |] eqn:Hchild;
          cbn [obind]; try discriminate.
        destruct child as [|child]; [discriminate |].
        destruct (append siblings (NotNull child)) as [siblings'| | |] eqn:Happ;
          cbn [obind]; try discriminate.
        intros Hloop Hc.
        pose proof (proj2 (parse_fuel_cursor _ tokens) _ _ _ _ Hloop) as Hle.
        rewrite (IHp _ _ _ Hchild) by lia. cbn [obind]. rewrite Happ. cbn [obind].
        now apply IHl.
      * destruct (String.eqb (value t) ")"); [easy |].
        destruct (append siblings (NotNull (makeSexpAtom t))); cbn [obind];
          try discriminate.
        apply IHl.
    + intros [= <- <-] Hc. apply lookup_ge_None in Ht. lia.
Qed.

(** A form the tokens leave open is read as it is once the missing
    closing parentheses are supplied. *)
Lemma parse_fuel_completed (fuel : nat) (tokens : list Token) :
  (∀ cursor c s, parse_fuel fuel tokens cursor = Ok (c, s) → (length tokens ≤ c)%nat →
     parse_fuel fuel (tokens ++ replicate (S c - length tokens) close_paren) cursor
     = Ok (c, s)) ∧
  (∀ cursor siblings c s,
     parse_loop fuel tokens cursor siblings = Ok (c, s) → (length tokens ≤ c)%nat →
     parse_loop fuel (tokens ++ replicate (S c - length tokens) close_paren) cursor siblings
     = Ok (c, s)).
Proof.
  induction fuel as [|fuel [IHp IHl]]; [split; intros; discriminate |].
  split.
  - intros cursor c s. rewrite !parse_fuel_S.
    destruct (tokens !! cursor) as [t0|] eqn:Ht0; [| discriminate].
    rewrite (lookup_app_l_Some _ _ _ _ Ht0).
    destruct (String.eqb (value t0) "("); [| discriminate].
    apply IHl.
  - intros cursor siblings c s. rewrite !parse_loop_S.
    destruct (tokens !! cursor) as [t|] eqn:Ht.
    + rewrite (lookup_app_l_Some _ _ _ _ Ht). apply lookup_lt_Some in Ht as Hcursor.
      destruct (String.eqb (value t) "(").
      * destruct (parse_fuel fuel tokens cursor) as [[newCursor child]| | |] eqn:Hchild;
          cbn [obind]; try discriminate.
        destruct child as [|child]; [discriminate |].
        destruct (append siblings (NotNull child)) as [siblings'| | |] eqn:Happ;
          cbn [obind]; try discriminate.
        intros Hloop Hc.
        pose proof (proj2 (parse_fuel_cursor _ tokens) _ _ _ _ Hloop) as Hle.
        assert (parse_fuel fuel (tokens ++ replicate (S c - length tokens) close_paren) cursor
                = Ok (newCursor, NotNull child)) as ->.
        { destruct (Nat.lt_ge_cases newCursor (length tokens)) as [Hin | Hout].
          - now apply parse_fuel_prefix.
          - replace (S c - length tokens)%nat
              with ((S newCursor - length tokens) + (c - newCursor))%nat by lia.
            rewrite replicate_add, app_assoc.
            apply parse_fuel_prefix; [now apply IHp |].
            rewrite length_app, length_replicate. lia. }
        cbn [obind]. rewrite Happ. cbn [obind]. now apply IHl.
      * destruct (String.eqb (value t) ")"); [intros [= <- <-]; lia |].
        destruct (append siblings (NotNull (makeSexpAtom t))); cbn [obind];
          try discriminate.
        apply IHl.
    + intros [= <- <-] Hc.
      rewrite lookup_app_r by exact Hc.
      rewrite lookup_replicate_2 by lia. reflexivity.
Qed.

(** C7 (as amended). When the tokens end before the parenthesis that would
    close the form opened at [cursor], and no nested form is empty, [parse]
    raises no error: it returns a final cursor at or past the end of the
    tokens together with the list built so far. That list is the one
    [parse] returns, with the same cursor, once the missing closing
    parentheses are supplied; written as tokens, it is the tokens from
    [cursor] on followed by those parentheses. *)
Theorem parse_unterminated (tokens : list Token) (cursor : nat) (t0 : Token) :
  tokens !! cursor = Some t0 → value t0 = "(" →
  close_index 0 (drop (S cursor) tokens) = None →
  no_empty_form (drop (S cursor) tokens) = true →
  ∃ c s, parse tokens cursor = Ok (c, s) ∧ (length tokens ≤ c)%nat ∧
         let missing := replicate (S c - length tokens) close_paren in
         parse (tokens ++ missing) cursor = Ok (c, s) ∧
         (Forall (fun t => valid_token t = true) tokens →
          open_paren :: tail_tokens s ++ [close_paren] = drop cursor tokens ++ missing).
Proof.
  intros Ht0 Hopen Hclose Hne.
  destruct (proj1 (parse_fuel_returns (2 * length tokens + 2) tokens)
              cursor t0 Ht0 Hopen Hne ltac:(lia)) as (c & s & Hparse & Hc & _).
  rewrite Hclose in Hc. exists c, s.
  assert (parse (tokens ++ replicate (S c - length tokens) close_paren) cursor = Ok (c, s))
    as Hcompleted.
  { unfold parse.
    apply (proj1 (parse_fuel_mono (2 * length tokens + 2) _));
      [rewrite length_app; lia |].
    now apply parse_fuel_completed. }
  refine (conj Hparse (conj Hc (conj Hcompleted _))).
  intros Hvalid. apply lookup_lt_Some in Ht0 as Hcursor.
  assert (Forall (fun t => valid_token t = true)
            (tokens ++ replicate (S c - length tokens) close_paren)) as Hvalid'.
  { apply Forall_app. split; [exact Hvalid |]. now apply Forall_replicate. }
  assert (length (tokens ++ replicate (S c - length tokens) close_paren) = S c) as Hlen.
  { rewrite length_app, length_replicate. lia. }
  pose proof (proj1 (parse_fuel_reads _ _ Hvalid') _ _ _ Hcompleted ltac:(lia)) as Hreads.
  rewrite <- Hreads. rewrite take_ge by (rewrite length_drop; lia).
  now rewrite drop_app_le by lia.
Qed.

Lemma parse_unterminated_witness :
  ∃ c s,
    parse [mkToken "(" Syntax; mkToken "a" Identifier; mkToken "(" Syntax;
           mkToken "b" Identifier; mkToken "c" Identifier] 0 = Ok (c, s) ∧
    (5 ≤ c)%nat ∧
    let missing := replicate (S c - 5) close_paren in
    parse ([mkToken "(" Syntax; mkToken "a" Identifier; mkToken "(" Syntax;
            mkToken "b" Identifier; mkToken "c" Identifier] ++ missing) 0 = Ok (c, s) ∧
    (Forall (fun t => valid_token t = true)
       [mkToken "(" Syntax; mkToken "a" Identifier; mkToken "(" Syntax;
        mkToken "b" Identifier; mkToken "c" Identifier] →
     open_paren :: tail_tokens s ++ [close_paren]
     = drop 0 [mkToken "(" Syntax; mkToken "a" Identifier; mkToken "(" Syntax;
               mkToken "b" Identifier; mkToken "c" Identifier] ++ missing).
Proof.
  apply (parse_unterminated
           [mkToken "(" Syntax; mkToken "a" Identifier; mkToken "(" Syntax;
            mkToken "b" Identifier; mkToken "c" Identifier] 0 (mkToken "(" Syntax));
    reflexivity.
Defined.

(** C7 as stated fails: in ["(a ("] the tokens end before the parenthesis
    that would close the outer form, and [parse] raises an error, because
    the nested form it has just opened yields no child. *)
Lemma parse_unterminated_nested_empty :
  lex "(a (" = Ok [mkToken "(" Syntax; mkToken "a" Identifier; mkToken "(" Syntax] ∧
  close_index 0 (drop 1 [mkToken "(" Syntax; mkToken "a" Identifier; mkToken "(" Syntax])
  = None ∧
  parse [mkToken "(" Syntax; mkToken "a" Identifier; mkToken "(" Syntax] 0
  = Throw (Error "Expected child.").
Proof. repeat split. Qed.

End Unterminated.

(** ** The forms [main] collects *)

Section Driver.

Local Open Scope list_scope.

Lemma append_begin_form (fs : list Sexp) (f : Sexp) :
  append (NotNull (begin_form fs)) (NotNull f) = Ok (begin_form (fs ++ [f])).
Proof.
  destruct (append_element (NotNull begin_atom :: map NotNull fs) f) as (r & Hr & Hlist).
  cbn [of_list] in Hr. unfold begin_form. rewrite Hr. f_equal.
  rewrite map_app. cbn [map]. cbn [app of_list] in Hlist. now injection Hlist.
Qed.

Lemma form_tokens_length (f : Sexp) : (2 ≤ length (form_tokens f))%nat.
Proof. unfold form_tokens. cbn [length]. rewrite length_app. cbn [length]. lia. Qed.

Lemma forms_tokens_length (fs : list Sexp) :
  (length fs ≤ length (flat_map form_tokens fs))%nat.
Proof.
  induction fs as [|f fs IH]; [reflexivity |].
  cbn [flat_map length]. rewrite length_app. pose proof (form_tokens_length f). lia.
Qed.

Lemma main_loop_forms (todo : list Sexp) :
  ∀ (fuel : nat) (done : list Sexp) (cursor : nat),
    Forall (fun f => is_form f = true) todo → (length todo ≤ fuel)%nat →
    S cursor = length (flat_map form_tokens done) →
    main_loop fuel (flat_map form_tokens (done ++ todo)) cursor (begin_form done)
    = Ok (begin_form (done ++ todo)).
Proof.
  induction todo as [|f todo IH]; intros fuel done cursor Hforms Hfuel Hcursor.
  - rewrite app_nil_r.
    destruct fuel; cbn [main_loop]; now rewrite Hcursor, Nat.eqb_refl.
  - apply Forall_cons in Hforms as [Hf Hforms].
    destruct fuel as [|fuel]; [cbn [length] in Hfuel; lia |].
    rewrite main_loop_S.
    assert (flat_map form_tokens (done ++ f :: todo)
            = flat_map form_tokens done ++ form_tokens f ++ flat_map form_tokens todo)
      as Htokens by (now rewrite flat_map_app).
    destruct (Nat.eqb_spec (S cursor) (length (flat_map form_tokens (done ++ f :: todo))))
      as [Heq | _].
    { rewrite Htokens, !length_app in Heq. pose proof (form_tokens_length f). lia. }
    rewrite Nat.add_1_r, Hcursor, Htokens, (parse_form_tokens_at f _ _ Hf).
    cbn [obind]. rewrite append_begin_form. cbn [obind].
    rewrite <- Htokens. replace (done ++ f :: todo) with ((done ++ [f]) ++ todo)
      by (now rewrite <- app_assoc).
    apply IH; [exact Hforms | cbn [length] in Hfuel; lia |].
    rewrite flat_map_app, length_app. cbn [flat_map]. rewrite app_nil_r.
    pose proof (form_tokens_length f). lia.
Qed.

Lemma main_loop_in_range (fuel : nat) (tokens : list Token) (cursor : nat)
    (begin b : Sexp) :
  main_loop fuel tokens cursor begin = Ok b → (cursor < length tokens)%nat.
Proof.
  destruct (Nat.eqb (S cursor) (length tokens)) eqn:Htest;
    [apply Nat.eqb_eq in Htest; lia |].
  destruct fuel as [|fuel]; [cbn [main_loop]; now rewrite Htest |].
  rewrite main_loop_S, Htest.
  destruct (Nat.lt_ge_cases cursor (length tokens)) as [Hlt | Hge]; [easy |].
  rewrite parse_out_of_range by lia. discriminate.
Qed.

Lemma main_loop_reads (fuel : nat) (tokens : list Token) :
  Forall (fun t => valid_token t = true) tokens →
  ∀ (done : list Sexp) (cursor : nat) (b : Sexp),
    main_loop fuel tokens cursor (begin_form done) = Ok b →
    take (S cursor) tokens = flat_map form_tokens done →
    Forall (fun f => is_form f = true) done →
    ∃ todo, Forall (fun f => is_form f = true) (done ++ todo) ∧
            tokens = flat_map form_tokens (done ++ todo) ∧
            b = begin_form (done ++ todo).
Proof.
  intros Hvalid.
  induction fuel as [|fuel IH]; intros done cursor b Hloop Htake Hdone.
  - cbn [main_loop] in Hloop.
    destruct (Nat.eqb_spec (S cursor) (length tokens)) as [Heq | Hne]; [| discriminate].
    injection Hloop as <-. exists []. rewrite app_nil_r.
    refine (conj Hdone (conj _ eq_refl)).
    now rewrite <- Htake, Heq, firstn_all.
  - rewrite main_loop_S in Hloop.
    destruct (Nat.eqb_spec (S cursor) (length tokens)) as [Heq | Hne].
    { injection Hloop as <-. exists []. rewrite app_nil_r.
      refine (conj Hdone (conj _ eq_refl)).
      now rewrite <- Htake, Heq, firstn_all. }
    destruct (parse tokens (cursor + 1)) as [[cursor' child]| | |] eqn:Hparse;
      cbn [obind] in Hloop; try discriminate.
    destruct child as [|f].
    { change (append (NotNull (begin_form done)) Null)
        with (append (of_list (NotNull begin_atom :: map NotNull done)) Null) in Hloop.
      now rewrite append_of_list_null in Hloop. }
    rewrite append_begin_form in Hloop. cbn [obind] in Hloop.
    pose proof (main_loop_in_range _ _ _ _ _ Hloop) as Hrange.
    pose proof (proj1 (parse_fuel_cursor _ tokens) _ _ _ Hparse) as Hlt.
    pose proof (proj1 (parse_fuel_reads _ tokens Hvalid) _ _ _ Hparse Hrange) as Hreads.
    pose proof (proj1 (parse_fuel_form _ tokens) _ _ _ Hparse) as Hform.
    cbn [is_tail tail_tokens] in Hform, Hreads.
    destruct (IH (done ++ [f]) cursor' b Hloop) as (todo & Hall & Htokens & Hb).
    + rewrite flat_map_app. cbn [flat_map]. rewrite app_nil_r, <- Htake.
      change (form_tokens f) with (open_paren :: elements_tokens f ++ [close_paren]).
      rewrite <- Hreads.
      replace (S cursor') with (S cursor + (S cursor' - (cursor + 1)))%nat at 1 by lia.
      rewrite <- take_take_drop. do 3 f_equal. lia.
    + apply Forall_app. split; [exact Hdone | now constructor].
    + exists (f :: todo). replace (done ++ f :: todo) with ((done ++ [f]) ++ todo)
        by (now rewrite <- app_assoc).
      easy.
Qed.

Lemma main_forms_forms (program : string) (fs : list Sexp) :
  lex program = Ok (flat_map form_tokens fs) → fs ≠ [] →
  Forall (fun f => is_form f = true) fs →
  main_forms program = Ok (begin_form fs).
Proof.
  intros Hlex Hne Hforms. unfold main_forms. rewrite Hlex. cbn [obind].
  change (append (NotNull begin_atom) Null) with (Ok (begin_form [])). cbn [obind].
  destruct fs as [|f fs]; [easy |].
  apply Forall_cons in Hforms as [Hf Hforms].
  pose proof (parse_form_tokens_at f [] (flat_map form_tokens fs) Hf) as Hparse.
  cbn [app length Nat.add] in Hparse. cbn [flat_map]. rewrite Hparse.
  cbn [obind]. rewrite (append_begin_form [] f). cbn [obind app].
  apply (main_loop_forms fs _ [f]); [exact Hforms | |].
  - rewrite length_app. pose proof (forms_tokens_length fs). lia.
  - cbn [flat_map]. rewrite app_nil_r. pose proof (form_tokens_length f). lia.
Qed.

Lemma main_forms_inv (program : string) (tokens : list Token) (b : Sexp) :
  lex program = Ok tokens → main_forms program = Ok b →
  ∃ fs, fs ≠ [] ∧ Forall (fun f => is_form f = true) fs ∧
        tokens = flat_map form_tokens fs ∧ b = begin_form fs.
Proof.
  intros Hlex. unfold main_forms. rewrite Hlex. cbn [obind].
  change (append (NotNull begin_atom) Null) with (Ok (begin_form [])). cbn [obind].
  intros Hmain.
  assert (Forall (fun t => valid_token t = true) tokens) as Hvalid.
  { unfold lex in Hlex. eapply lex_from_valid; [| exact Hlex]. constructor. }
  destruct (parse tokens 0) as [[cursor child]| | |] eqn:Hparse;
    cbn [obind] in Hmain; try discriminate.
  destruct child as [|f]; [discriminate |].
  rewrite (append_begin_form [] f) in Hmain. cbn [obind app] in Hmain.
  pose proof (main_loop_in_range _ _ _ _ _ Hmain) as Hrange.
  pose proof (proj1 (parse_fuel_reads _ tokens Hvalid) _ _ _ Hparse Hrange) as Hreads.
  pose proof (proj1 (parse_fuel_form _ tokens) _ _ _ Hparse) as Hform.
  cbn [is_tail tail_tokens] in Hform, Hreads.
  destruct (main_loop_reads _ tokens Hvalid [f] cursor b Hmain) as (todo & Hall & Ht & Hb).
  - cbn [flat_map]. rewrite app_nil_r.
    rewrite Nat.sub_0_r in Hreads. exact Hreads.
  - now constructor.
  - exists ([f] ++ todo). now refine (conj _ (conj Hall (conj Ht Hb))).
Qed.

Lemma begin_form_is_form (fs : list Sexp) :
  Forall (fun f => is_form f = true) fs → is_form (begin_form fs) = true.
Proof.
  intros Hall.
  assert (is_tail (of_list (map NotNull fs)) = true) as Htail.
  { induction Hall as [|g gs Hg _ IH]; [reflexivity |].
    cbn [map of_list is_tail is_form is_element]. rewrite IH, andb_true_r.
    destruct g; [discriminate | exact Hg]. }
  unfold begin_form. cbn [is_form]. now rewrite Htail.
Qed.

(** X12. The forms [main] collects. For a program that [lex] accepts, the
    part of [main] before evaluation succeeds exactly when the tokens are
    one or more complete non-empty forms written one after the other, with
    nothing before, between or after them; what it builds is then the
    [begin] form holding exactly those forms, in order. *)
Theorem main_forms_reads (program : string) (tokens : list Token) (b : Sexp) :
  lex program = Ok tokens →
  main_forms program = Ok b ↔
  ∃ fs, fs ≠ [] ∧ Forall (fun f => is_form f = true) fs ∧
        tokens = flat_map form_tokens fs ∧ b = begin_form fs.
Proof.
  intros Hlex. split.
  - now apply main_forms_inv.
  - intros (fs & Hne & Hforms & -> & ->). now apply main_forms_forms.
Qed.

Lemma main_forms_reads_witness :
  main_forms "(a) (b 1)"
  = Ok (begin_form [SexpPair (NotNull (SexpAtom (mkToken "a" Identifier))) Null;
                    SexpPair (NotNull (SexpAtom (mkToken "b" Identifier)))
                      (NotNull (SexpPair (NotNull (SexpAtom (mkToken "1" Integer))) Null))])
  ↔ ∃ fs, fs ≠ [] ∧ Forall (fun f => is_form f = true) fs ∧
          [mkToken "(" Syntax; mkToken "a" Identifier; mkToken ")" Syntax;
           mkToken "(" Syntax; mkToken "b" Identifier; mkToken "1" Integer;
           mkToken ")" Syntax] = flat_map form_tokens fs ∧
          begin_form [SexpPair (NotNull (SexpAtom (mkToken "a" Identifier))) Null;
                      SexpPair (NotNull (SexpAtom (mkToken "b" Identifier)))
                        (NotNull (SexpPair (NotNull (SexpAtom (mkToken "1" Integer)))
                                    Null))]
          = begin_form fs.
Proof.
  apply (main_forms_reads "(a) (b 1)"). reflexivity.
Defined.

End Driver.

(** ** [begin] and [evalLispArgs] *)

Section BeginLoop.

Variable ev : SexpOrNull → CtxRef → Eval Value.

Lemma begin_loop_last (current : SexpOrNull) (ctx : CtxRef) :
  ∀ (res : Value) (st : Store),
    begin_loop ev res current ctx st
    = (do vs <- evalLispArgs ev current ctx; ret (default res (last vs))) st.
Proof.
  induction current as [a | p0 _ p1 IH1 | | s IH]
    using SexpOrNull_mut
    with (P := fun s => ∀ res st,
                 begin_loop ev res (NotNull s) ctx st
                 = (do vs <- evalLispArgs ev (NotNull s) ctx;
                    ret (default res (last vs))) st).
  - reflexivity.
  - intros res st. cbn [begin_loop evalLispArgs]. unfold ebind at 1 2 3.
    destruct (ev p0 ctx st) as [[v st1]| | |]; cbn [obind]; try reflexivity.
    rewrite IH1. unfold ebind.
    destruct (evalLispArgs ev p1 ctx st1) as [[vs st2]| | |]; cbn [obind];
      try reflexivity.
    unfold ret. cbn [obind]. rewrite last_cons. now destruct (last vs).
  - reflexivity.
  - exact IH.
Qed.

Lemma evalLispArgs_pair_length (pair0 pair1 : SexpOrNull) (ctx : CtxRef) (st st1 : Store)
    (vs : list Value) :
  evalLispArgs ev (NotNull (SexpPair pair0 pair1)) ctx st = Ok (vs, st1) →
  ∃ v vs', vs = v :: vs'.
Proof.
  cbn [evalLispArgs]. unfold ebind.
  destruct (ev pair0 ctx st) as [[v st2]| | |]; cbn [obind]; try discriminate.
  destruct (evalLispArgs ev pair1 ctx st2) as [[vs' st3]| | |]; cbn [obind];
    try discriminate.
  intros [= <- <-]. now exists v, vs'.
Qed.

End BeginLoop.

Lemma evalLisp_begin (fuel : nat) (args0 args1 : SexpOrNull) (ctx : CtxRef) (st : Store) :
  truthy (store_get st ctx "begin") = false →
  evalLisp (S (S fuel)) (call_form "begin" (NotNull (SexpPair args0 args1))) ctx st
  = (do vs <- evalLispArgs (evalLisp (S fuel)) (NotNull (SexpPair args0 args1)) ctx;
     ret (default VUndefined (last vs))) st.
Proof.
  intros Hfree. rewrite (evalLisp_call_builtin fuel "begin" BBegin) by easy.
  rewrite <- begin_loop_last. cbn [call_builtin begin_loop]. unfold ebind.
  now destruct (evalLisp (S fuel) args0 ctx st) as [[v st1]| | |].
Qed.

Lemma evalLispArgs_last (fuel : nat) (args0 args1 : SexpOrNull) (ctx : CtxRef)
    (st st1 : Store) (vs : list Value) :
  evalLispArgs (evalLisp fuel) (NotNull (SexpPair args0 args1)) ctx st = Ok (vs, st1) →
  ∃ v, last vs = Some v.
Proof.
  intros Hargs. destruct (evalLispArgs_pair_length _ _ _ _ _ _ _ Hargs) as (v & vs' & ->).
  destruct (last (v :: vs')) as [w|] eqn:Hlast; [now exists w |].
  now apply last_None in Hlast.
Qed.

(** X13. ["begin"] is [evalLispArgs] followed by taking the last value:
    called on an argument list, it evaluates the elements in order under
    the context of its table, as [evalLispArgs] does, returns the value of
    the last one with the store the evaluation left, and fails exactly as
    [evalLispArgs] fails. *)
Theorem begin_returns_last (fuel : nat) (args0 args1 : SexpOrNull) (ctx : CtxRef)
    (st : Store) :
  truthy (store_get st ctx "begin") = false →
  (∀ vs st1,
     evalLispArgs (evalLisp (S fuel)) (NotNull (SexpPair args0 args1)) ctx st
     = Ok (vs, st1) →
     ∃ v, last vs = Some v ∧
          evalLisp (S (S fuel)) (call_form "begin" (NotNull (SexpPair args0 args1))) ctx st
          = Ok (v, st1)) ∧
  (∀ e,
     evalLispArgs (evalLisp (S fuel)) (NotNull (SexpPair args0 args1)) ctx st = Throw e →
     evalLisp (S (S fuel)) (call_form "begin" (NotNull (SexpPair args0 args1))) ctx st
     = Throw e).
Proof.
  intros Hfree. rewrite (evalLisp_begin _ _ _ _ _ Hfree). unfold ebind. split.
  - intros vs st1 Hargs. rewrite Hargs. cbn [obind].
    destruct (evalLispArgs_last _ _ _ _ _ _ _ Hargs) as (v & Hlast).
    exists v. now rewrite Hlast.
  - intros e ->. reflexivity.
Qed.

Lemma begin_returns_last_witness :
  ∃ v, last [VNumber (Finite 1); VNumber (Finite 2)] = Some v ∧
       evalLisp 3
         (call_form "begin"
            (NotNull (SexpPair (NotNull (SexpAtom (mkToken "1" Integer)))
               (NotNull (SexpPair (NotNull (SexpAtom (mkToken "2" Integer))) Null))))) 0 [∅]
       = Ok (v, [∅]).
Proof.
  assert (truthy (store_get [∅] 0 "begin") = false) as Hfree by (vm_compute; reflexivity).
  apply (proj1 (begin_returns_last 1
                  (NotNull (SexpAtom (mkToken "1" Integer)))
                  (NotNull (SexpPair (NotNull (SexpAtom (mkToken "2" Integer))) Null))
                  0 [∅] Hfree)).
  vm_compute. reflexivity.
Defined.

(** ** What [evalLisp] returns *)

Lemma returns_bind {A B : Type} (okA : A → Prop) (okB : B → Prop)
    (m : Eval A) (k : A → Eval B) (st : Store) :
  returns okA (m st) → (∀ a st1, okA a → returns okB (k a st1)) →
  returns okB (ebind m k st).
Proof.
  unfold ebind. destruct (m st) as [[a st1]| | |]; cbn [obind returns]; try easy.
  intros Ha Hk. now apply Hk.
Qed.

Lemma returns_any {A B : Type} (okB : B → Prop) (m : Eval A) (k : A → Eval B)
    (st : Store) :
  (∀ a st1, returns okB (k a st1)) → returns okB (ebind m k st).
Proof.
  intros Hk. apply (returns_bind (fun _ => True)); [| now intros].
  now destruct (m st) as [[a st1]| | |].
Qed.

Section Defined.

Variable ev : SexpOrNull → CtxRef → Eval Value.

Hypothesis ev_defined :
  ∀ ast ctx st, returns (fun v => is_defined v = true) (ev ast ctx st).

Lemma begin_loop_defined (current : SexpOrNull) (ctx : CtxRef) :
  ∀ (res : Value) (st : Store),
    is_defined res = true →
    returns (fun v => is_defined v = true) (begin_loop ev res current ctx st).
Proof.
  induction current as [a | p0 _ p1 IH1 | | s IH]
    using SexpOrNull_mut
    with (P := fun s => ∀ res st, is_defined res = true →
                 returns (fun v => is_defined v = true)
                   (begin_loop ev res (NotNull s) ctx st)).
  - now intros.
  - intros res st _. cbn [begin_loop].
    eapply returns_bind; [apply ev_defined |]. intros res' st1 Hres'. now apply IH1.
  - now intros.
  - exact IH.
Qed.

Lemma call_builtin_defined (b : Builtin) (ctx : CtxRef) (args0 args1 : SexpOrNull)
    (st : Store) :
  returns (fun v => is_defined v = true) (call_builtin ev b ctx args0 args1 st).
Proof.
  destruct b; cbn [call_builtin].
  - apply returns_any. intros vs st1. apply returns_any. now intros.
  - destruct args1 as [|[a|then_ args11]]; try exact I.
    destruct args11 as [|[a|else_ rest]]; try exact I.
    apply returns_any. intros test st1. destruct (truthy test); apply ev_defined.
  - destruct args0 as [|[name|? ?]]; try exact I.
    destruct args1 as [|[a|body rest]]; try exact I.
    eapply returns_bind; [apply ev_defined |]. intros v st1 Hv.
    apply returns_any. now intros.
  - reflexivity.
  - eapply returns_bind; [apply ev_defined |]. intros res st1 Hres.
    now apply begin_loop_defined.
  - apply returns_any. intros vs st1. apply returns_any. now intros.
  - apply returns_any. intros vs st1.
    destruct (default VUndefined (vs !! 0)); try exact I.
    apply returns_any. now intros.
Qed.

Lemma call_defined (fn : Value) (args0 args1 : SexpOrNull) (callCtx : CtxRef)
    (st : Store) :
  returns (fun v => is_defined v = true) (call ev fn args0 args1 callCtx st).
Proof.
  destruct fn; try exact I; cbn [call].
  - apply call_builtin_defined.
  - unfold call_lambda. do 4 (apply returns_any; intros ? ?). apply ev_defined.
  - now destruct f.
Qed.

End Defined.

Lemma evalLisp_defined (fuel : nat) :
  ∀ ast ctx st, returns (fun v => is_defined v = true) (evalLisp fuel ast ctx st).
Proof.
  induction fuel as [|fuel IH]; intros ast ctx st; [exact I |].
  destruct ast as [|[atom|pair0 pair1]]; [exact I | |].
  - cbn [evalLisp].
    assert (returns (fun v => is_defined v = true)
              ((do v <- ctx_get ctx (value atom);
                if truthy v then ret v else lookup_builtin (value atom) ctx) st))
      as Hident.
    { unfold ebind, ctx_get. cbn [obind].
      destruct (truthy (store_get st ctx (value atom))) eqn:Htruthy.
      - cbn [ret returns]. now destruct (store_get st ctx (value atom)).
      - unfold lookup_builtin.
        destruct (builtins_get (value atom)) as [b|w|] eqn:Hget; try exact I.
        + reflexivity.
        + now destruct (builtins_get_inherited _ _ Hget) as [[f ->] | ->]. }
    destruct (kind atom); try exact Hident.
    apply returns_any. now intros.
  - rewrite evalLisp_pair. apply returns_any. intros fn st1.
    destruct (negb (truthy fn)); [apply returns_any; now intros |].
    destruct (negb (is_function fn)); [apply returns_any; now intros |].
    destruct pair1 as [|[a|args0 args1]]; [exact I | |].
    + apply returns_any. now intros.
    + now apply call_defined.
Qed.

(** X14. [evalLisp] never returns [undefined], although a context can
    hold [undefined] (a parameter with no argument), and the value it
    returns for an identifier is truthy; this is what makes the non-null
    assertion at the end of ["begin"] valid. It does return values outside
    its declared return type: the table of builtins inherits [toString],
    and a call of it returns a string. *)
Theorem evalLisp_returns_defined (fuel : nat) (ast : SexpOrNull) (ctx : CtxRef)
    (st st' : Store) (v : Value) :
  evalLisp fuel ast ctx st = Ok (v, st') →
  v ≠ VUndefined ∧
  (∀ atom, ast = NotNull (SexpAtom atom) → kind atom ≠ Integer → truthy v = true) ∧
  (∀ args0 args1,
     truthy (store_get st ctx "toString") = false →
     evalLisp (S (S fuel)) (call_form "toString" (NotNull (SexpPair args0 args1))) ctx st
     = Ok (VString "[object Undefined]", st)).
Proof.
  intros Heval. refine (conj _ (conj _ _)).
  - pose proof (evalLisp_defined fuel ast ctx st) as H. rewrite Heval in H.
    cbn [returns] in H. now destruct v.
  - intros atom -> Hkind. destruct fuel as [|fuel]; [discriminate |].
    rewrite evalLisp_atom in Heval by exact Hkind.
    destruct (truthy (store_get st ctx (value atom))) eqn:Htruthy.
    + now injection Heval as <- <-.
    + unfold lookup_builtin in Heval.
      destruct (builtins_get (value atom)) as [b|w|] eqn:Hget; try discriminate.
      * now injection Heval as <- <-.
      * injection Heval as <- <-.
        now destruct (builtins_get_inherited _ _ Hget) as [[f ->] | ->].
  - intros args0 args1 Hfree.
    now rewrite (evalLisp_call_inherited _ "toString" IToString).
Qed.

Lemma evalLisp_returns_defined_witness :
  VBuiltin BPlus 0 ≠ VUndefined ∧
  (∀ atom, NotNull (SexpAtom (mkToken "+" Identifier)) = NotNull (SexpAtom atom) →
           kind atom ≠ Integer → truthy (VBuiltin BPlus 0) = true) ∧
  (∀ args0 args1,
     truthy (store_get [{["+" := VUndefined]}] 0 "toString") = false →
     evalLisp 3 (call_form "toString" (NotNull (SexpPair args0 args1))) 0
       [{["+" := VUndefined]}]
     = Ok (VString "[object Undefined]", [{["+" := VUndefined]}])).
Proof.
  apply (evalLisp_returns_defined 1 (NotNull (SexpAtom (mkToken "+" Identifier))) 0
           [{["+" := VUndefined]}] [{["+" := VUndefined]}]).
  vm_compute. reflexivity.
Defined.

(** ** Subtraction and comparison *)

(** X15. A call of ["-"] whose arguments all evaluate to Numbers returns
    the first minus each of the others, left to right, in double
    arithmetic; with one argument it returns that argument unchanged, with
    no negation; on integers whose difference is below [2^53] in magnitude
    the result is the exact difference. As soon as one argument is no
    Number the call fails. *)
Theorem minus_folds_left (fuel : nat) (args0 args1 : SexpOrNull) (ctx : CtxRef)
    (st st1 : Store) (vs : list Value) :
  truthy (store_get st ctx "-") = false →
  evalLispArgs (evalLisp (S fuel)) (NotNull (SexpPair args0 args1)) ctx st = Ok (vs, st1) →
  let result :=
    evalLisp (S (S fuel)) (call_form "-" (NotNull (SexpPair args0 args1))) ctx st in
  (∀ n ns, vs = map VNumber (n :: ns) →
     result = Ok (VNumber (fold_left num_sub ns n), st1)) ∧
  (∀ n, vs = [VNumber n] → result = Ok (VNumber n, st1)) ∧
  (∀ a b, vs = [VNumber (Finite a); VNumber (Finite b)] → (Z.abs (a - b) < 2 ^ 53)%Z →
     result = Ok (VNumber (Finite (a - b)), st1)) ∧
  (existsb (fun v => negb (is_number v)) vs = true →
   result = Throw (Error "- expects number arguments.")).
Proof.
  intros Hfree Hargs result.
  assert (∀ n ns, vs = map VNumber (n :: ns) →
            result = Ok (VNumber (fold_left num_sub ns n), st1)) as Hfold.
  { intros n ns ->. unfold result.
    rewrite (evalLisp_call_builtin _ "-" BMinus) by auto.
    cbn [call_builtin]. unfold ebind at 1. rewrite Hargs. cbn [obind].
    cbn [map lookup list_lookup default drop]. unfold ebind, lift, id.
    rewrite drop_0, minus_loop_numbers. reflexivity. }
  refine (conj Hfold (conj _ (conj _ _))).
  - intros n ->. exact (Hfold n [] eq_refl).
  - intros a b -> Hsmall. rewrite (Hfold (Finite a) [Finite b] eq_refl).
    cbn [fold_left num_sub]. now rewrite round_double_small.
  - intros Hvs. exact (minus_rejects_non_number _ _ _ _ _ _ _ Hfree Hargs Hvs).
Qed.

Lemma minus_folds_left_witness :
  let result :=
    evalLisp 3
      (call_form "-"
         (NotNull (SexpPair (NotNull (SexpAtom (mkToken "7" Integer)))
            (NotNull (SexpPair (NotNull (SexpAtom (mkToken "2" Integer)))
               (NotNull (SexpPair (NotNull (SexpAtom (mkToken "1" Integer))) Null)))))))
      0 [∅] in
  (∀ n ns, [VNumber (Finite 7); VNumber (Finite 2); VNumber (Finite 1)]
           = map VNumber (n :: ns) →
     result = Ok (VNumber (fold_left num_sub ns n), [∅])) ∧
  (∀ n, [VNumber (Finite 7); VNumber (Finite 2); VNumber (Finite 1)] = [VNumber n] →
     result = Ok (VNumber n, [∅])) ∧
  (∀ a b, [VNumber (Finite 7); VNumber (Finite 2); VNumber (Finite 1)]
          = [VNumber (Finite a); VNumber (Finite b)] → (Z.abs (a - b) < 2 ^ 53)%Z →
     result = Ok (VNumber (Finite (a - b)), [∅])) ∧
  (existsb (fun v => negb (is_number v))
     [VNumber (Finite 7); VNumber (Finite 2); VNumber (Finite 1)] = true →
   result = Throw (Error "- expects number arguments.")).
Proof.
  assert (truthy (store_get [∅] 0 "-") = false) as Hfree by (vm_compute; reflexivity).
  apply (minus_folds_left 1 _ _ 0 [∅] [∅] _ Hfree).
  vm_compute. reflexivity.
Defined.

(** X16. A call of ["<="] evaluates all its arguments and compares the
    first two: Numbers by the order of the doubles, integers by the order
    of the integers, whatever follows them. With a single argument, or with
    a function on one side and a number, a boolean or [undefined] on the
    other, the comparison is with NaN and the result is [false]. *)
Theorem less_eq_compares (fuel : nat) (args0 args1 : SexpOrNull) (ctx : CtxRef)
    (st st1 : Store) (vs : list Value) :
  truthy (store_get st ctx "<=") = false →
  evalLispArgs (evalLisp (S fuel)) (NotNull (SexpPair args0 args1)) ctx st = Ok (vs, st1) →
  let result :=
    evalLisp (S (S fuel)) (call_form "<=" (NotNull (SexpPair args0 args1))) ctx st in
  (∀ a b rest, vs = VNumber a :: VNumber b :: rest →
     result = Ok (VBoolean (num_le a b), st1)) ∧
  (∀ x y rest, vs = VNumber (Finite x) :: VNumber (Finite y) :: rest →
     result = Ok (VBoolean (x <=? y)%Z, st1)) ∧
  (∀ v, vs = [v] → result = Ok (VBoolean false, st1)) ∧
  (∀ a b rest, vs = a :: b :: rest →
     (is_function a = true ∧ is_numeric b = true) ∨
     (is_numeric a = true ∧ is_function b = true) →
     result = Ok (VBoolean false, st1)).
Proof.
  intros Hfree Hargs result.
  assert (result
          = (let? r := js_le (default VUndefined (vs !! 0%nat))
                             (default VUndefined (vs !! 1%nat)) in
             Ok (VBoolean r, st1))) as Hresult.
  { unfold result. rewrite (evalLisp_call_builtin _ "<=" BLessEq) by auto.
    cbn [call_builtin]. unfold ebind at 1. rewrite Hargs. cbn [obind].
    unfold ebind, lift, ret.
    now destruct (js_le (default VUndefined (vs !! 0%nat))
                        (default VUndefined (vs !! 1%nat))). }
  rewrite Hresult. refine (conj _ (conj _ (conj _ _))).
  - intros a b rest ->. cbn [lookup list_lookup default]. unfold id, js_le.
    cbn [to_primitive primitive_to_number num_le_converted].
    now destruct a, b.
  - intros x y rest ->. reflexivity.
  - intros v ->. cbn [lookup list_lookup default]. unfold id, js_le.
    cbn [to_primitive primitive_to_number].
    destruct (to_primitive v) as [n|s|]; cbn [primitive_to_number num_le_converted obind].
    + now destruct n.
    + now destruct (string_to_number s) as [[]| | |].
    + reflexivity.
  - intros a b rest -> Hfun. cbn [lookup list_lookup default]. unfold id.
    destruct Hfun as [[Ha Hb] | [Ha Hb]];
      destruct a as [[]|[]| | | | | | |], b as [[]|[]| | | | | | |];
      try discriminate; reflexivity.
Qed.

Lemma less_eq_compares_witness :
  let result :=
    evalLisp 3
      (call_form "<="
         (NotNull (SexpPair (NotNull (SexpAtom (mkToken "3" Integer)))
            (NotNull (SexpPair (NotNull (SexpAtom (mkToken "2" Integer))) Null))))) 0 [∅] in
  (∀ a b rest, [VNumber (Finite 3); VNumber (Finite 2)] = VNumber a :: VNumber b :: rest →
     result = Ok (VBoolean (num_le a b), [∅])) ∧
  (∀ x y rest, [VNumber (Finite 3); VNumber (Finite 2)]
               = VNumber (Finite x) :: VNumber (Finite y) :: rest →
     result = Ok (VBoolean (x <=? y)%Z, [∅])) ∧
  (∀ v, [VNumber (Finite 3); VNumber (Finite 2)] = [v] →
     result = Ok (VBoolean false, [∅])) ∧
  (∀ a b rest, [VNumber (Finite 3); VNumber (Finite 2)] = a :: b :: rest →
     (is_function a = true ∧ is_numeric b = true) ∨
     (is_numeric a = true ∧ is_function b = true) →
     result = Ok (VBoolean false, [∅])).
Proof.
  assert (truthy (store_get [∅] 0 "<=") = false) as Hfree by (vm_compute; reflexivity).
  apply (less_eq_compares 1 _ _ 0 [∅] [∅] _ Hfree).
  vm_compute. reflexivity.
Defined.

(** ** Bindings are never removed *)

Lemma store_le_refl (st : Store) : store_le st st.
Proof. intros c m Hc. now exists m. Qed.

Lemma store_le_trans (st1 st2 st3 : Store) :
  store_le st1 st2 → store_le st2 st3 → store_le st1 st3.
Proof.
  intros H12 H23 c m Hc.
  destruct (H12 c m Hc) as (m2 & Hc2 & Hm2).
  destruct (H23 c m2 Hc2) as (m3 & Hc3 & Hm3).
  exists m3. split; [exact Hc3 |]. intros x Hx. now apply Hm3, Hm2.
Qed.

Lemma store_le_length (st st' : Store) : store_le st st' → (length st ≤ length st')%nat.
Proof.
  intros Hle. destruct (Nat.le_gt_cases (length st) (length st')) as [H | H]; [exact H |].
  destruct (lookup_lt_is_Some_2 st (length st') H) as [m Hm].
  destruct (Hle _ _ Hm) as (m' & Hm' & _).
  apply lookup_lt_Some in Hm'. lia.
Qed.

Lemma keeps_bind {A B : Type} (m : Eval A) (k : A → Eval B) (st : Store) :
  keeps st (m st) → (∀ a st1, keeps st1 (k a st1)) → keeps st (ebind m k st).
Proof.
  unfold ebind. destruct (m st) as [[a st1]| | |]; cbn [obind keeps]; try easy.
  intros Hm Hk. specialize (Hk a st1).
  destruct (k a st1) as [[b st2]| | |]; cbn [keeps] in *; try easy.
  now apply (store_le_trans _ st1).
Qed.

Lemma keeps_lift {A : Type} (m : Outcome A) (st : Store) : keeps st (lift m st).
Proof. unfold lift. destruct m; cbn [obind keeps]; try easy. apply store_le_refl. Qed.

Lemma keeps_ctx_set (ctx : CtxRef) (name : string) (v : Value) (st : Store) :
  keeps st (ctx_set ctx name v st).
Proof.
  intros c m Hc. destruct (decide (c = ctx)) as [-> | Hne].
  - exists (<[name := v]> m). rewrite list_lookup_alter_eq, Hc. split; [reflexivity |].
    intros x Hx. apply lookup_insert_is_Some. destruct (decide (name = x)); auto.
  - exists m. now rewrite list_lookup_alter_ne.
Qed.

Lemma keeps_ctx_copy (ctx : CtxRef) (st : Store) : keeps st (ctx_copy ctx st).
Proof.
  intros c m Hc. exists m. split; [| easy].
  apply lookup_app_l_Some. exact Hc.
Qed.

Lemma keeps_bind_params (iter : SexpOrNull) (vs : list Value) (child : CtxRef) :
  ∀ (i : nat) (st : Store), keeps st (bind_params iter i vs child st).
Proof.
  induction iter as [a | p0 _ p1 IH1 | | s IH]
    using SexpOrNull_mut
    with (P := fun s => ∀ i st, keeps st (bind_params (NotNull s) i vs child st)).
  - now intros.
  - intros i st. cbn [bind_params]. destruct p0 as [|[a|? ?]]; try exact I.
    apply keeps_bind; [apply keeps_ctx_set |]. intros _ st1. apply IH1.
  - intros i st. apply store_le_refl.
  - exact IH.
Qed.

Section Keeps.

Variable ev : SexpOrNull → CtxRef → Eval Value.

Hypothesis ev_keeps : ∀ ast ctx st, keeps st (ev ast ctx st).

Lemma keeps_evalLispArgs (args : SexpOrNull) (ctx : CtxRef) :
  ∀ st : Store, keeps st (evalLispArgs ev args ctx st).
Proof.
  induction args as [a | p0 _ p1 IH1 | | s IH]
    using SexpOrNull_mut
    with (P := fun s => ∀ st, keeps st (evalLispArgs ev (NotNull s) ctx st)).
  - now intros.
  - intros st. cbn [evalLispArgs]. apply keeps_bind; [apply ev_keeps |].
    intros v st1. apply keeps_bind; [apply IH1 |]. intros vs st2. apply store_le_refl.
  - intros st. apply store_le_refl.
  - exact IH.
Qed.

Lemma keeps_begin_loop (current : SexpOrNull) (ctx : CtxRef) :
  ∀ (res : Value) (st : Store), keeps st (begin_loop ev res current ctx st).
Proof.
  induction current as [a | p0 _ p1 IH1 | | s IH]
    using SexpOrNull_mut
    with (P := fun s => ∀ res st, keeps st (begin_loop ev res (NotNull s) ctx st)).
  - now intros.
  - intros res st. cbn [begin_loop]. apply keeps_bind; [apply ev_keeps |].
    intros res' st1. apply IH1.
  - intros res st. apply store_le_refl.
  - exact IH.
Qed.

Lemma keeps_call_builtin (b : Builtin) (ctx : CtxRef) (args0 args1 : SexpOrNull)
    (st : Store) :
  keeps st (call_builtin ev b ctx args0 args1 st).
Proof.
  destruct b; cbn [call_builtin].
  - apply keeps_bind; [apply keeps_evalLispArgs |]. intros vs st1.
    apply keeps_bind; [apply keeps_lift |]. intros r st2. apply store_le_refl.
  - destruct args1 as [|[a|then_ args11]]; try exact I.
    destruct args11 as [|[a|else_ rest]]; try exact I.
    apply keeps_bind; [apply ev_keeps |]. intros test st1.
    destruct (truthy test); apply ev_keeps.
  - destruct args0 as [|[name|? ?]]; try exact I.
    destruct args1 as [|[a|body rest]]; try exact I.
    apply keeps_bind; [apply ev_keeps |]. intros v st1.
    apply keeps_bind; [apply keeps_ctx_set |]. intros _ st2. apply store_le_refl.
  - apply store_le_refl.
  - apply keeps_bind; [apply ev_keeps |]. intros res st1. apply keeps_begin_loop.
  - apply keeps_bind; [apply keeps_evalLispArgs |]. intros vs st1.
    apply keeps_bind; [apply keeps_lift |]. intros r st2. apply store_le_refl.
  - apply keeps_bind; [apply keeps_evalLispArgs |]. intros vs st1.
    destruct (default VUndefined (vs !! 0)); try exact I.
    apply keeps_bind; [apply keeps_lift |]. intros r st2. apply store_le_refl.
Qed.

Lemma keeps_call (fn : Value) (args0 args1 : SexpOrNull) (callCtx : CtxRef) (st : Store) :
  keeps st (call ev fn args0 args1 callCtx st).
Proof.
  destruct fn; try exact I; cbn [call].
  - apply keeps_call_builtin.
  - unfold call_lambda. apply keeps_bind; [apply keeps_evalLispArgs |]. intros vs st1.
    apply keeps_bind; [apply keeps_ctx_copy |]. intros child st2.
    apply keeps_bind; [apply keeps_bind_params |]. intros _ st3.
    apply keeps_bind; [apply keeps_lift |]. intros begin st4. apply ev_keeps.
  - destruct f; try exact I; apply store_le_refl.
Qed.

End Keeps.

Lemma keeps_evalLisp (fuel : nat) : ∀ ast ctx st, keeps st (evalLisp fuel ast ctx st).
Proof.
  induction fuel as [|fuel IH]; intros ast ctx st; [exact I |].
  destruct ast as [|[atom|pair0 pair1]]; [exact I | |].
  - cbn [evalLisp].
    assert (keeps st ((do v <- ctx_get ctx (value atom);
                       if truthy v then ret v else lookup_builtin (value atom) ctx) st))
      as Hident.
    { apply keeps_bind; [apply store_le_refl |]. intros v st1.
      destruct (truthy v); [apply store_le_refl |].
      unfold lookup_builtin.
      destruct (builtins_get (value atom)); try exact I; apply store_le_refl. }
    destruct (kind atom); try exact Hident.
    apply keeps_bind; [apply keeps_lift |]. intros n st1. apply store_le_refl.
  - rewrite evalLisp_pair. apply keeps_bind; [apply IH |]. intros fn st1.
    destruct (negb (truthy fn)).
    { apply keeps_bind; [apply keeps_lift |]. now intros. }
    destruct (negb (is_function fn)).
    { apply keeps_bind; [apply keeps_lift |]. now intros. }
    destruct pair1 as [|[a|args0 args1]]; [exact I | |].
    + apply keeps_bind; [apply keeps_lift |]. now intros.
    + now apply keeps_call.
Qed.

(** X17. The evaluator never removes a binding: after a run of [evalLisp]
    that returns, every context that existed before still exists and binds
    every name it bound before, possibly to another value. *)
Theorem evalLisp_keeps_bindings (fuel : nat) (ast : SexpOrNull) (ctx : CtxRef)
    (st st' : Store) (v : Value) :
  evalLisp fuel ast ctx st = Ok (v, st') →
  store_le st st' ∧ (length st ≤ length st')%nat.
Proof.
  intros Heval. pose proof (keeps_evalLisp fuel ast ctx st) as H.
  rewrite Heval in H. cbn [keeps] in H. split; [exact H | now apply store_le_length].
Qed.

Lemma evalLisp_keeps_bindings_witness :
  store_le [{["x" := VNumber (Finite 1)]}] [{["x" := VNumber (Finite 2)]}] ∧
  (length [{["x" := VNumber (Finite 1)]} : Context]
   ≤ length [{["x" := VNumber (Finite 2)]} : Context])%nat.
Proof.
  apply (evalLisp_keeps_bindings 3
           (call_form "def"
              (NotNull (SexpPair (NotNull (SexpAtom (mkToken "x" Identifier)))
                 (NotNull (SexpPair (NotNull (SexpAtom (mkToken "2" Integer))) Null)))))
           0 _ _ (VNumber (Finite 2))).
  vm_compute. reflexivity.
Defined.

(** ** Definitions *)

(** X18. ["def"] evaluates the body under the context of its table, binds
    the name to the value in that same context and returns the value. Every
    other binding of the store is what the evaluation of the body left; and
    when the value is truthy, evaluating the name afterwards under that
    context gives the value back, whatever the name, a builtin's included. *)
Theorem def_binds (fuel : nat) (name : Token) (body rest : SexpOrNull) (ctx : CtxRef)
    (st st1 : Store) (v : Value) :
  truthy (store_get st ctx "def") = false → (ctx < length st)%nat →
  evalLisp (S fuel) body ctx st = Ok (v, st1) →
  ∃ st',
    evalLisp (S (S fuel))
      (call_form "def" (NotNull (SexpPair (NotNull (SexpAtom name))
                                   (NotNull (SexpPair body rest))))) ctx st
    = Ok (v, st') ∧
    store_get st' ctx (value name) = v ∧
    (∀ c x, c ≠ ctx ∨ x ≠ value name → store_get st' c x = store_get st1 c x) ∧
    (kind name ≠ Integer → truthy v = true →
     ∀ fuel', evalLisp (S fuel') (NotNull (SexpAtom name)) ctx st' = Ok (v, st')).
Proof.
  intros Hfree Hctx Hbody.
  exists (alter (fun m : Context => <[value name := v]> m) ctx st1).
  pose proof (keeps_evalLisp (S fuel) body ctx st) as Hkeeps.
  rewrite Hbody in Hkeeps. cbn [keeps] in Hkeeps. apply store_le_length in Hkeeps.
  destruct (lookup_lt_is_Some_2 st1 ctx ltac:(lia)) as [m Hm].
  assert (store_get (alter (fun m : Context => <[value name := v]> m) ctx st1) ctx
            (value name) = v) as Hget.
  { unfold store_get. rewrite list_lookup_alter_eq, Hm. cbn [fmap option_fmap option_map
      mbind option_bind]. now rewrite lookup_insert_eq. }
  refine (conj _ (conj Hget (conj _ _))).
  - rewrite (evalLisp_call_builtin _ "def" BDef) by auto.
    cbn [call_builtin]. unfold ebind at 1. rewrite Hbody. reflexivity.
  - intros c x Hne. unfold store_get. destruct (decide (c = ctx)) as [-> | Hc].
    + rewrite list_lookup_alter_eq, Hm. cbn [fmap option_fmap option_map mbind option_bind].
      destruct Hne as [Hne | Hne]; [easy |]. now rewrite lookup_insert_ne.
    + now rewrite list_lookup_alter_ne.
  - intros Hkind Htruthy fuel'. rewrite evalLisp_atom by exact Hkind.
    now rewrite Hget, Htruthy.
Qed.

Lemma def_binds_witness :
  ∃ st',
    evalLisp 3
      (call_form "def" (NotNull (SexpPair (NotNull (SexpAtom (mkToken "+" Identifier)))
                                   (NotNull (SexpPair (NotNull (SexpAtom (mkToken "5" Integer)))
                                               Null))))) 0 [∅]
    = Ok (VNumber (Finite 5), st') ∧
    store_get st' 0 "+" = VNumber (Finite 5) ∧
    (∀ c x, c ≠ 0%nat ∨ x ≠ "+" → store_get st' c x = store_get [∅] c x) ∧
    (Identifier ≠ Integer → truthy (VNumber (Finite 5)) = true →
     ∀ fuel', evalLisp (S fuel') (NotNull (SexpAtom (mkToken "+" Identifier))) 0 st'
              = Ok (VNumber (Finite 5), st')).
Proof.
  assert (truthy (store_get [∅] 0 "def") = false) as Hfree by (vm_compute; reflexivity).
  apply (def_binds 1 (mkToken "+" Identifier) (NotNull (SexpAtom (mkToken "5" Integer)))
           Null 0 [∅] [∅] (VNumber (Finite 5)) Hfree); [cbn; lia |].
  vm_compute. reflexivity.
Defined.

(** ** Parameters *)

Lemma bind_names_lookup (vs : list Value) (names : list string) :
  ∀ (i : nat) (m : Context) (x : string),
    bind_names names i vs m !! x
    = match param_value names i vs x with
      | Some v => Some v
      | None => m !! x
      end.
Proof.
  induction names as [|n names IH]; intros i m x; [reflexivity |].
  cbn [bind_names param_value]. rewrite IH.
  destruct (param_value names (S i) vs x) as [v|]; [reflexivity |].
  destruct (String.eqb_spec n x) as [-> | Hne].
  - now rewrite lookup_insert_eq.
  - now rewrite lookup_insert_ne.
Qed.

Lemma bind_params_store (vs : list Value) (child : CtxRef) (params : SexpOrNull) :
  ∀ (names : list string) (i : nat) (st : Store),
    param_names params = Some names →
    bind_params params i vs child st
    = Ok (tt, alter (bind_names names i vs) child st).
Proof.
  induction params as [a | p0 _ p1 IH1 | | s IH]
    using SexpOrNull_mut
    with (P := fun s => ∀ names i st,
                 param_names (NotNull s) = Some names →
                 bind_params (NotNull s) i vs child st
                 = Ok (tt, alter (bind_names names i vs) child st)).
  - discriminate.
  - intros names i st. cbn [param_names bind_params].
    destruct p0 as [|[a|? ?]]; try discriminate.
    destruct (param_names p1) as [names'|] eqn:Hnames; [| discriminate].
    intros [= <-]. unfold ebind, ctx_set. cbn [obind].
    rewrite (IH1 names' (S i) _ eq_refl). do 2 f_equal.
    now rewrite list_alter_alter_eq.
  - intros names i st [= <-]. cbn [bind_params bind_names]. unfold ret.
    do 2 f_equal. symmetry. now apply list_alter_id.
  - exact IH.
Qed.

Lemma bind_params_fails (vs : list Value) (child : CtxRef) (params : SexpOrNull) :
  ∀ (i : nat) (st : Store),
    param_names params = None →
    bind_params params i vs child st = Throw (Error "Expected argument list.") ∨
    bind_params params i vs child st = Throw TypeError.
Proof.
  induction params as [a | p0 _ p1 IH1 | | s IH]
    using SexpOrNull_mut
    with (P := fun s => ∀ i st,
                 param_names (NotNull s) = None →
                 bind_params (NotNull s) i vs child st
                 = Throw (Error "Expected argument list.") ∨
                 bind_params (NotNull s) i vs child st = Throw TypeError).
  - intros. now left.
  - intros i st. cbn [param_names bind_params].
    destruct p0 as [|[a|? ?]]; [now right | | now left].
    destruct (param_names p1) as [names'|] eqn:Hnames; [discriminate |].
    intros _. unfold ebind, ctx_set. cbn [obind]. now apply IH1.
  - discriminate.
  - exact IH.
Qed.

(** X19. The parameter loop of a lambda call. On a parameter list that is
    a proper list of atoms it sets, in the child context and nowhere else,
    each name to the argument of the same position: a parameter past the
    arguments is set to [undefined], arguments past the parameters are
    dropped, and of two parameters with one name the later wins. On any
    other parameter list it fails. *)
Theorem bind_params_binds (params : SexpOrNull) (vs : list Value) (child : CtxRef)
    (st : Store) :
  (child < length st)%nat →
  match param_names params with
  | Some names =>
      ∃ st', bind_params params 0 vs child st = Ok (tt, st') ∧
             length st' = length st ∧
             (∀ c, c ≠ child → st' !! c = st !! c) ∧
             ∀ x, store_get st' child x
                  = default (store_get st child x) (param_value names 0 vs x)
  | None =>
      bind_params params 0 vs child st = Throw (Error "Expected argument list.") ∨
      bind_params params 0 vs child st = Throw TypeError
  end.
Proof.
  intros Hchild. destruct (param_names params) as [names|] eqn:Hnames.
  - exists (alter (bind_names names 0 vs) child st).
    refine (conj (bind_params_store _ _ _ _ _ _ Hnames) (conj _ (conj _ _))).
    + apply length_alter.
    + intros c Hc. now apply list_lookup_alter_ne.
    + intros x. unfold store_get. rewrite list_lookup_alter_eq.
      destruct (lookup_lt_is_Some_2 st child Hchild) as [m ->].
      cbn [fmap option_fmap option_map mbind option_bind].
      rewrite bind_names_lookup. now destruct (param_value names 0 vs x).
  - now apply bind_params_fails.
Qed.

Lemma bind_params_binds_witness :
  ∃ st', bind_params
           (NotNull (SexpPair (NotNull (SexpAtom (mkToken "a" Identifier)))
              (NotNull (SexpPair (NotNull (SexpAtom (mkToken "b" Identifier))) Null))))
           0 [VNumber (Finite 1)] 1 [∅; ∅] = Ok (tt, st') ∧
         length st' = length [∅ : Context; ∅] ∧
         (∀ c, c ≠ 1%nat → st' !! c = [∅ : Context; ∅] !! c) ∧
         ∀ x, store_get st' 1 x
              = default (store_get [∅; ∅] 1 x)
                  (param_value ["a"; "b"] 0 [VNumber (Finite 1)] x).
Proof.
  apply (bind_params_binds
           (NotNull (SexpPair (NotNull (SexpAtom (mkToken "a" Identifier)))
              (NotNull (SexpPair (NotNull (SexpAtom (mkToken "b" Identifier))) Null))))
           [VNumber (Finite 1)] 1 [∅; ∅]).
  cbn. lia.
Defined.

(** ** Contexts an evaluation leaves alone *)

(** X20. A run of [evalLisp] under a context changes, of the contexts that
    existed before, only those it can reach: a context [p] other than the
    one it runs under, and that no stored builtin was looked up under, is
    after the run what it was before, is still captured by no stored
    builtin, and the value returned is no builtin over [p] either. *)
Theorem evalLisp_frame (fuel : nat) (p : CtxRef) (ast : SexpOrNull) (ctx : CtxRef)
    (st st' : Store) (v : Value) :
  ctx ≠ p → unaliased p st → evalLisp fuel ast ctx st = Ok (v, st') →
  st' !! p = st !! p ∧ unaliased p st' ∧ refers p v = false.
Proof.
  intros Hctx Hun Heval. pose proof (frames_evalLisp fuel p ast ctx st Hctx Hun) as H.
  rewrite Heval in H. exact H.
Qed.

Lemma evalLisp_frame_witness :
  [∅; {["x" := VNumber (Finite 2)]}] !! 0%nat = [∅ : Context; ∅] !! 0%nat ∧
  unaliased 0 [∅; {["x" := VNumber (Finite 2)]}] ∧
  refers 0 (VNumber (Finite 2)) = false.
Proof.
  apply (evalLisp_frame 3 0
           (call_form "def"
              (NotNull (SexpPair (NotNull (SexpAtom (mkToken "x" Identifier)))
                 (NotNull (SexpPair (NotNull (SexpAtom (mkToken "2" Integer))) Null)))))
           1 [∅; ∅]).
  - lia.
  - split; [cbn; lia |].
    intros (c & m & name & v & Hc & Hn & Hv).
    destruct c as [|[|c]]; try discriminate; injection Hc as <-;
      now rewrite lookup_empty in Hn.
  - vm_compute. reflexivity.
Defined.

(** ** Integer literals *)

Lemma round_double_truthy (z : Z) :
  truthy (VNumber (round_double z)) = negb (z =? 0)%Z.
Proof.
  unfold round_double.
  destruct (Z.ltb_spec (Z.abs z) (2 ^ 53)) as [Hsmall | Hbig]; [reflexivity |].
  assert (z ≠ 0%Z) as Hz by lia.
  apply Z.eqb_neq in Hz as Hz'. rewrite Hz'. cbn [negb].
  set (a := Z.abs z) in *. set (e := (Z.log2 a - 52)%Z).
  assert (53 ≤ Z.log2 a)%Z as Hlog.
  { rewrite <- (Z.log2_pow2 53) by lia. now apply Z.log2_le_mono. }
  assert (0 < 2 ^ e)%Z as Hpow by (apply Z.pow_pos_nonneg; unfold e; lia).
  assert (2 ^ e ≤ a)%Z as Hle.
  { transitivity (2 ^ Z.log2 a)%Z; [apply Z.pow_le_mono_r; unfold e; lia |].
    apply Z.log2_spec. lia. }
  assert (0 < a / 2 ^ e)%Z as Hq by (now apply Z.div_str_pos).
  match goal with
  | |- context [if ?c then (a / 2 ^ e + 1)%Z else (a / 2 ^ e)%Z] =>
      set (q' := if c then (a / 2 ^ e + 1)%Z else (a / 2 ^ e)%Z)
  end.
  assert (0 < q')%Z as Hq' by (unfold q'; match goal with |- context [if ?c then _ else _] =>
                                 destruct c end; lia).
  destruct (2 ^ 1024 <=? q' * 2 ^ e)%Z; [now destruct (0 <? z)%Z |].
  cbn [truthy]. apply negb_true_iff, Z.eqb_neq.
  assert (0 < q' * 2 ^ e)%Z by lia. destruct z; cbn [Z.sgn]; lia.
Qed.

(** X21. An Integer token made of digits evaluates to the double nearest
    to its decimal value and leaves the store as it is. At the head of a
    form it is never callable: the form fails with "Unknown function" when
    the value is zero and with "Not a function" otherwise, before any
    argument is looked at. *)
Theorem literal_not_callable (fuel : nat) (t : Token) (args : SexpOrNull) (ctx : CtxRef)
    (st : Store) :
  kind t = Integer → integer_lexeme (value t) = true →
  evalLisp (S fuel) (NotNull (SexpAtom t)) ctx st
  = Ok (VNumber (round_double (decimal_value 0 (value t))), st) ∧
  evalLisp (S (S fuel)) (NotNull (SexpPair (NotNull (SexpAtom t)) args)) ctx st
  = Throw (Error ((if (decimal_value 0 (value t) =? 0)%Z
                   then "Unknown function: " else "Not a function: ") ++ value t)).
Proof.
  intros Hkind Hdigits.
  assert (evalLisp (S fuel) (NotNull (SexpAtom t)) ctx st
          = Ok (VNumber (round_double (decimal_value 0 (value t))), st)) as Hatom.
  { cbn [evalLisp]. rewrite Hkind. unfold ebind, lift.
    now rewrite (to_number_digits _ Hdigits). }
  split; [exact Hatom |].
  rewrite evalLisp_pair. unfold ebind at 1. rewrite Hatom. cbn [obind].
  rewrite round_double_truthy.
  destruct (decimal_value 0 (value t) =? 0)%Z; cbn [negb]; [reflexivity |].
  destruct (round_double (decimal_value 0 (value t))); reflexivity.
Qed.

Lemma literal_not_callable_witness :
  evalLisp 1 (NotNull (SexpAtom (mkToken "007" Integer))) 0 [∅]
  = Ok (VNumber (round_double (decimal_value 0 "007")), [∅]) ∧
  evalLisp 2 (NotNull (SexpPair (NotNull (SexpAtom (mkToken "007" Integer))) Null)) 0 [∅]
  = Throw (Error ((if (decimal_value 0 "007" =? 0)%Z
                   then "Unknown function: " else "Not a function: ") ++ "007")).
Proof.
  apply (literal_not_callable 0 (mkToken "007" Integer) Null 0 [∅]); reflexivity.
Defined.

(** ** What [main] prints *)

(** X22. [main] evaluates the top-level forms of the program in order, all
    under one root context that starts empty, as the arguments of one
    ["begin"]: the value it prints is that of the last form, and it fails
    as the evaluation of the forms fails. *)
Theorem main_returns_last (fuel : nat) (program : string) (fs : list Sexp) :
  lex program = Ok (flat_map form_tokens fs) → fs ≠ [] →
  Forall (fun f => is_form f = true) fs →
  (∀ vs st1,
     evalLispArgs (evalLisp (S fuel)) (of_list (map NotNull fs)) 0 [∅] = Ok (vs, st1) →
     ∃ v, last vs = Some v ∧ main (S (S fuel)) program = Ok v) ∧
  (∀ e,
     evalLispArgs (evalLisp (S fuel)) (of_list (map NotNull fs)) 0 [∅] = Throw e →
     main (S (S fuel)) program = Throw e).
Proof.
  intros Hlex Hne Hforms. unfold main.
  rewrite (main_forms_forms program fs Hlex Hne Hforms). cbn [obind].
  destruct fs as [|f fs]; [easy |]. unfold begin_form. cbn [map of_list].
  assert (truthy (store_get [∅] 0 "begin") = false) as Hfree by (vm_compute; reflexivity).
  pose proof (evalLisp_begin fuel (NotNull f) (of_list (map NotNull fs)) 0 [∅] Hfree) as Hb.
  unfold call_form in Hb. unfold begin_atom, makeSexpAtom. rewrite Hb. unfold ebind.
  split.
  - intros vs st1 Hargs. rewrite Hargs. cbn [obind].
    destruct (evalLispArgs_last _ _ _ _ _ _ _ Hargs) as (v & Hlast).
    exists v. now rewrite Hlast.
  - intros e ->. reflexivity.
Qed.

Lemma main_returns_last_witness :
  ∃ v, last [VNumber (Finite 1); VNumber (Finite 3)] = Some v ∧
       main 4 "(def x 1) (+ x 2)" = Ok v.
Proof.
  apply (proj1 (main_returns_last 2 "(def x 1) (+ x 2)"
           [SexpPair (NotNull (SexpAtom (mkToken "def" Identifier)))
              (NotNull (SexpPair (NotNull (SexpAtom (mkToken "x" Identifier)))
                 (NotNull (SexpPair (NotNull (SexpAtom (mkToken "1" Integer))) Null))));
            SexpPair (NotNull (SexpAtom (mkToken "+" Identifier)))
              (NotNull (SexpPair (NotNull (SexpAtom (mkToken "x" Identifier)))
                 (NotNull (SexpPair (NotNull (SexpAtom (mkToken "2" Integer))) Null))))]
           eq_refl ltac:(discriminate) ltac:(repeat constructor))
         _ [{["x" := VNumber (Finite 1)]}]).
  vm_compute. reflexivity.
Defined.

(** ** The two scanners never compete *)

Lemma lexInteger_stays (program : string) (i : nat) :
  match String.get i program with
  | Some c => is_digit c = false
  | None => True
  end →
  fst (lexInteger program i) = i.
Proof.
  unfold lexInteger. cbn [fst]. intros H.
  destruct (String.length program - i)%nat as [|fuel]; [reflexivity |].
  cbn [lexInteger_loop]. destruct (String.get i program) as [c|]; [| reflexivity].
  now rewrite H.
Qed.

Lemma lexIdentifier_stays (program : string) (i : nat) :
  match String.get i program with
  | Some c => is_identifier_start c = false
  | None => True
  end →
  fst (lexIdentifier program i) = i.
Proof.
  unfold lexIdentifier. cbn [fst]. intros H.
  destruct (String.length program - i)%nat as [|fuel]; [reflexivity |].
  cbn [lexIdentifier_loop]. destruct (String.get i program) as [c|]; [| reflexivity].
  unfold identifier_char. rewrite Nat.ltb_irrefl. cbn [andb]. rewrite orb_false_r.
  unfold is_identifier_start in H. now rewrite H.
Qed.

(** X23. At any index at most one of the two scanners consumes something:
    [lexInteger] only where a digit stands, [lexIdentifier] only where a
    letter or an operator character stands. So the order of the scanners
    in the list [lex] tries is immaterial. *)
Theorem lexers_order_irrelevant (program : string) (i : nat) :
  (fst (lexInteger program i) = i ∨ fst (lexIdentifier program i) = i) ∧
  try_lexers [lexIdentifier; lexInteger] program i = try_lexers lexers program i.
Proof.
  assert (fst (lexInteger program i) = i ∨ fst (lexIdentifier program i) = i) as Hone.
  { destruct (String.get i program) as [c|] eqn:Hget.
    - destruct (is_digit c) eqn:Hd.
      + right. apply lexIdentifier_stays. rewrite Hget.
        apply digit_classes in Hd. unfold is_identifier_start.
        destruct Hd as (_ & _ & Hl & Ho). now rewrite Hl, Ho.
      + left. apply lexInteger_stays. now rewrite Hget.
    - left. apply lexInteger_stays. now rewrite Hget. }
  split; [exact Hone |].
  rewrite try_lexers_unfold. cbn [try_lexers].
  destruct (lexIdentifier program i) as [e1 t1] eqn:H1.
  destruct (lexInteger program i) as [e2 t2] eqn:H2. cbn [fst] in *.
  destruct Hone as [-> | ->]; rewrite Nat.eqb_refl; [| reflexivity].
  now destruct (Nat.eqb e1 i).
Qed.

(** ** Evaluation never fails on the shape of a parsed form *)

Lemma to_number_returns (s : string) (e : Exn) : to_number s ≠ Throw e.
Proof.
  unfold to_number. destruct s as [|c s]; [discriminate |].
  now destruct (all_digits (String c s)).
Qed.

Lemma primitive_to_number_returns (p : Primitive) (e : Exn) :
  primitive_to_number p ≠ Throw e.
Proof.
  destruct p as [n|s|]; cbn [primitive_to_number]; try discriminate.
  unfold string_to_number. destruct s as [|c s]; [apply to_number_returns |].
  destruct (Ascii.eqb_spec c "[") as [-> | Hc]; [discriminate |].
  replace (match c with
           | "["%char => Ok NaN
           | _ => to_number (String c s)
           end) with (to_number (String c s)); [apply to_number_returns |].
  destruct c as [[] [] [] [] [] [] [] []]; try reflexivity. now contradict Hc.
Qed.

Lemma js_le_returns (a b : Value) (e : Exn) : js_le a b ≠ Throw e.
Proof.
  assert (∀ p q, num_le_converted (primitive_to_number p) (primitive_to_number q)
                 ≠ Throw e) as Hnum.
  { intros p q. pose proof (primitive_to_number_returns p) as Hp.
    pose proof (primitive_to_number_returns q) as Hq.
    destruct (primitive_to_number p) as [[]|e1| |], (primitive_to_number q) as [[]|e2| |];
      cbn [num_le_converted]; try discriminate;
      try (now contradict (Hp e1)); now contradict (Hq e2). }
  unfold js_le. destruct (to_primitive a), (to_primitive b); try discriminate; apply Hnum.
Qed.

Lemma is_form_invariant (s : Sexp) : is_form s = true → pair_invariant s = true.
Proof.
  induction s as [a | p0 IH0 p1 IH1 | | s IH]
    using Sexp_mut
    with (P0 := fun o => (is_element o = true → pair_invariant_or_null o = true) ∧
                         (is_tail o = true → pair_invariant_or_null o = true)).
  - discriminate.
  - intros H. cbn [is_form] in H. apply andb_true_iff in H as [Hp0 Hp1].
    cbn [pair_invariant]. rewrite (proj1 IH0 Hp0), (proj2 IH1 Hp1).
    now destruct p0.
  - now split.
  - split; [| exact IH]. destruct s as [a | q0 q1]; [reflexivity | exact IH].
Qed.

Lemma pretty_element (s : SexpOrNull) :
  is_element s = true → ∃ text, pretty s = Ok text.
Proof.
  destruct s as [|s]; [discriminate |]. intros H. apply pretty_invariant.
  destruct s as [a | p0 p1]; [reflexivity |]. now apply is_form_invariant.
Qed.

Section Sound.

Variable strict : bool.

Lemma form_ok_split (p0 p1 : SexpOrNull) :
  tail_ok strict (NotNull (SexpPair p0 p1)) = true →
  element_ok strict p0 = true ∧ tail_ok strict p1 = true.
Proof.
  unfold tail_ok, element_ok. cbn [is_tail is_form plain_or_null plain].
  destruct (is_element p0), (is_tail p1), strict, (plain_or_null p0), (plain_or_null p1);
    try discriminate; now split.
Qed.

Lemma element_ok_form (p0 p1 : SexpOrNull) :
  element_ok strict (NotNull (SexpPair p0 p1)) = tail_ok strict (NotNull (SexpPair p0 p1)).
Proof. reflexivity. Qed.

Lemma tail_ok_atom (a : Token) : tail_ok strict (NotNull (SexpAtom a)) = false.
Proof. reflexivity. Qed.

Lemma element_ok_null : element_ok strict Null = false.
Proof. reflexivity. Qed.

Lemma element_ok_element (s : SexpOrNull) :
  element_ok strict s = true → is_element s = true.
Proof. unfold element_ok. now intros [H _]%andb_true_iff. Qed.

Lemma sound_bind {A B : Type} (okA : A → Prop) (okB : B → Prop)
    (m : Eval A) (k : A → Eval B) (st : Store) :
  sound strict okA (m st) →
  (∀ a st1, okA a → store_wf strict st1 → sound strict okB (k a st1)) →
  sound strict okB (ebind m k st).
Proof.
  unfold ebind. destruct (m st) as [[a st1]| | |]; cbn [obind sound]; try easy.
  intros [Hst Ha] Hk. now apply Hk.
Qed.

Lemma sound_ret {A : Type} (ok : A → Prop) (a : A) (st : Store) :
  store_wf strict st → ok a → sound strict ok (ret a st).
Proof. now split. Qed.

Lemma store_wf_get (st : Store) (ctx : CtxRef) (name : string) :
  store_wf strict st → value_wf strict (store_get st ctx name) = true.
Proof.
  intros Hst. unfold store_get.
  destruct (st !! ctx) as [m|] eqn:Hm; [| reflexivity]. cbn [mbind option_bind].
  destruct (m !! name) as [v|] eqn:Hv; [| reflexivity]. exact (Hst _ _ _ _ Hm Hv).
Qed.

Lemma store_wf_set (st : Store) (ctx : CtxRef) (name : string) (v : Value) :
  store_wf strict st → value_wf strict v = true →
  store_wf strict (alter (fun m : Context => <[name := v]> m) ctx st).
Proof.
  intros Hst Hv c m x w Hc Hx. destruct (decide (c = ctx)) as [-> | Hne].
  - rewrite list_lookup_alter_eq in Hc.
    destruct (st !! ctx) as [m0|] eqn:Hm0; [| discriminate]. injection Hc as <-.
    destruct (decide (name = x)) as [-> | Hname].
    + rewrite lookup_insert_eq in Hx. now injection Hx as <-.
    + rewrite lookup_insert_ne in Hx by exact Hname. exact (Hst _ _ _ _ Hm0 Hx).
  - rewrite list_lookup_alter_ne in Hc by auto. exact (Hst _ _ _ _ Hc Hx).
Qed.

Lemma store_wf_copy (st : Store) (ctx : CtxRef) :
  store_wf strict st → store_wf strict (st ++ [default (∅ : Context) (st !! ctx)])%list.
Proof.
  intros Hst c m x w Hc Hx. apply lookup_app_Some in Hc as [Hc | [_ Hc]].
  - exact (Hst _ _ _ _ Hc Hx).
  - apply list_lookup_singleton_Some in Hc as [_ <-].
    destruct (st !! ctx) as [m0|] eqn:Hm0; cbn [default] in Hx.
    + exact (Hst _ _ _ _ Hm0 Hx).
    + now rewrite lookup_empty in Hx.
Qed.

Lemma sound_bind_params (vs : list Value) (child : CtxRef) (iter : SexpOrNull) :
  Forall (fun v => value_wf strict v = true) vs →
  ∀ (i : nat) (st : Store),
    tail_ok strict iter = true → store_wf strict st →
    sound strict (fun _ => True) (bind_params iter i vs child st).
Proof.
  intros Hvs.
  induction iter as [a | p0 _ p1 IH1 | | s IH]
    using SexpOrNull_mut
    with (P := fun s => ∀ i st, tail_ok strict (NotNull s) = true → store_wf strict st →
                 sound strict (fun _ => True) (bind_params (NotNull s) i vs child st)).
  - intros i st H. now rewrite tail_ok_atom in H.
  - intros i st Hform Hst. apply form_ok_split in Hform as [Hp0 Hp1].
    cbn [bind_params].
    destruct p0 as [|[a|? ?]]; [now rewrite element_ok_null in Hp0 | | reflexivity].
    eapply sound_bind with (okA := fun _ => True).
    + split; [| exact I]. apply store_wf_set; [exact Hst |].
      destruct (vs !! i) as [v|] eqn:Hv; [| reflexivity].
      rewrite Forall_forall in Hvs. exact (Hvs _ (list_elem_of_lookup_2 _ _ _ Hv)).
    + intros _ st1 _ Hst1. now apply IH1.
  - intros i st _ Hst. now apply sound_ret.
  - exact IH.
Qed.

Lemma sound_pretty_throw (s : SexpOrNull) (prefix : string) (c : ascii) (st : Store) :
  element_ok strict s = true → c ≠ "E"%char →
  sound strict (fun v => value_wf strict v = true)
    ((do p <- lift (pretty s); throw (Error (String c prefix ++ p))) st).
Proof.
  intros Hs%element_ok_element Hc. destruct (pretty_element s Hs) as [text Htext].
  unfold ebind, lift, throw. rewrite Htext. cbn [obind sound allowed].
  rewrite string_app_cons. cbn [String.eqb].
  destruct (Ascii.eqb_spec c "E"); [easy | reflexivity].
Qed.

Variable ev : SexpOrNull → CtxRef → Eval Value.

Hypothesis ev_sound :
  ∀ ast ctx st, element_ok strict ast = true → store_wf strict st →
    sound strict (fun v => value_wf strict v = true) (ev ast ctx st).

Lemma sound_evalLispArgs (args : SexpOrNull) (ctx : CtxRef) :
  ∀ st : Store,
    tail_ok strict args = true → store_wf strict st →
    sound strict (Forall (fun v => value_wf strict v = true)) (evalLispArgs ev args ctx st).
Proof.
  induction args as [a | p0 _ p1 IH1 | | s IH]
    using SexpOrNull_mut
    with (P := fun s => ∀ st, tail_ok strict (NotNull s) = true → store_wf strict st →
                 sound strict (Forall (fun v => value_wf strict v = true))
                   (evalLispArgs ev (NotNull s) ctx st)).
  - intros st H. now rewrite tail_ok_atom in H.
  - intros st Hform Hst. apply form_ok_split in Hform as [Hp0 Hp1].
    cbn [evalLispArgs].
    eapply sound_bind; [now apply ev_sound |]. intros v st1 Hv Hst1.
    eapply sound_bind; [now apply IH1 |]. intros vs st2 Hvs Hst2.
    apply sound_ret; [exact Hst2 | now constructor].
  - intros st _ Hst. now apply sound_ret.
  - exact IH.
Qed.

Lemma sound_begin_loop (current : SexpOrNull) (ctx : CtxRef) :
  ∀ (res : Value) (st : Store),
    tail_ok strict current = true → value_wf strict res = true → store_wf strict st →
    sound strict (fun v => value_wf strict v = true) (begin_loop ev res current ctx st).
Proof.
  induction current as [a | p0 _ p1 IH1 | | s IH]
    using SexpOrNull_mut
    with (P := fun s => ∀ res st, tail_ok strict (NotNull s) = true →
                 value_wf strict res = true → store_wf strict st →
                 sound strict (fun v => value_wf strict v = true)
                   (begin_loop ev res (NotNull s) ctx st)).
  - intros res st H. now rewrite tail_ok_atom in H.
  - intros res st Hform _ Hst. apply form_ok_split in Hform as [Hp0 Hp1].
    cbn [begin_loop].
    eapply sound_bind; [now apply ev_sound |]. intros res' st1 Hres' Hst1.
    now apply IH1.
  - intros res st _ Hres Hst. now apply sound_ret.
  - exact IH.
Qed.

Lemma sound_call_builtin (b : Builtin) (ctx : CtxRef) (args0 args1 : SexpOrNull)
    (st : Store) :
  tail_ok strict (NotNull (SexpPair args0 args1)) = true → store_wf strict st →
  sound strict (fun v => value_wf strict v = true) (call_builtin ev b ctx args0 args1 st).
Proof.
  intros Hargs Hst. destruct (form_ok_split _ _ Hargs) as [Hargs0 Hargs1].
  destruct b; cbn [call_builtin].
  - eapply sound_bind; [now apply sound_evalLispArgs |]. intros vs st1 _ Hst1.
    unfold ebind, lift, ret.
    destruct (js_le (default VUndefined (vs !! 0)) (default VUndefined (vs !! 1)))
      as [r|e| |] eqn:Hle; cbn [obind sound]; try easy.
    now apply js_le_returns in Hle.
  - destruct args1 as [|[a|then_ args11]]; try reflexivity.
    apply form_ok_split in Hargs1 as [Hthen Hargs11].
    destruct args11 as [|[a|else_ rest]]; try reflexivity.
    apply form_ok_split in Hargs11 as [Helse _].
    eapply sound_bind; [now apply ev_sound |]. intros test st1 _ Hst1.
    destruct (truthy test); now apply ev_sound.
  - destruct args0 as [|[name|? ?]]; try reflexivity.
    destruct args1 as [|[a|body rest]]; try reflexivity.
    apply form_ok_split in Hargs1 as [Hbody _].
    eapply sound_bind; [now apply ev_sound |]. intros v st1 Hv Hst1.
    unfold ebind, ctx_set, ret. cbn [obind sound].
    split; [now apply store_wf_set | exact Hv].
  - apply sound_ret; [exact Hst |]. cbn [value_wf]. now rewrite Hargs0, Hargs1.
  - eapply sound_bind; [now apply ev_sound |]. intros res st1 Hres Hst1.
    now apply sound_begin_loop.
  - eapply sound_bind; [now apply sound_evalLispArgs |]. intros vs st1 _ Hst1.
    unfold ebind, lift, ret. destruct (plus_loop (Finite 0) vs) as [n|e| |] eqn:Hplus;
      cbn [obind sound]; try easy.
    clear -Hplus. revert Hplus. generalize (Finite 0).
    induction vs as [|v vs IH]; intros acc; [discriminate |].
    cbn [plus_loop]. destruct v; try (now intros [= <-]). apply IH.
  - eapply sound_bind; [now apply sound_evalLispArgs |]. intros vs st1 _ Hst1.
    destruct (default VUndefined (vs !! 0)) as [res| | | | | | | |]; try reflexivity.
    unfold ebind, lift, ret.
    destruct (minus_loop res (drop 1 vs)) as [n|e| |] eqn:Hminus;
      cbn [obind sound]; try easy.
    clear -Hminus. revert Hminus. generalize res. generalize (drop 1 vs).
    intros l. induction l as [|v l IH]; intros acc; [discriminate |].
    cbn [minus_loop]. destruct v; try (now intros [= <-]). apply IH.
Qed.

Lemma sound_call (fn : Value) (args0 args1 : SexpOrNull) (callCtx : CtxRef) (st : Store) :
  is_function fn = true → value_wf strict fn = true →
  tail_ok strict (NotNull (SexpPair args0 args1)) = true → store_wf strict st →
  sound strict (fun v => value_wf strict v = true) (call ev fn args0 args1 callCtx st).
Proof.
  intros Hfn Hwf Hargs Hst. destruct fn; try discriminate; cbn [call].
  - now apply sound_call_builtin.
  - cbn [value_wf] in Hwf. apply andb_true_iff in Hwf as [Hparams Hbody].
    unfold call_lambda.
    eapply sound_bind; [now apply sound_evalLispArgs |].
    intros vs st1 Hvs Hst1.
    eapply sound_bind with (okA := fun _ => True).
    { split; [now apply store_wf_copy | exact I]. }
    intros child st2 _ Hst2.
    eapply sound_bind with (okA := fun _ => True).
    { destruct params as [|[a|p0 p1]];
        [now rewrite element_ok_null in Hparams | reflexivity |].
      rewrite element_ok_form in Hparams. now apply sound_bind_params. }
    intros _ st3 _ Hst3. unfold begin_atom, makeSexpAtom. cbn [append].
    unfold ebind, lift, makeSexpPair. cbn [obind].
    apply ev_sound; [| exact Hst3].
    unfold tail_ok in Hbody. apply andb_true_iff in Hbody as [Htail Hplain].
    unfold element_ok. cbn [is_element is_form plain_or_null plain]. rewrite Htail.
    cbn [value inherited_name]. destruct strict; [exact Hplain | reflexivity].
  - cbn [value_wf] in Hwf.
    destruct f; cbn [call_inherited];
      try (apply sound_ret; [exact Hst | exact Hwf]);
      unfold throw; cbn [sound allowed]; exact Hwf.
Qed.

End Sound.

Lemma sound_evalLisp (strict : bool) (fuel : nat) :
  ∀ ast ctx st, element_ok strict ast = true → store_wf strict st →
    sound strict (fun v => value_wf strict v = true) (evalLisp fuel ast ctx st).
Proof.
  induction fuel as [|fuel IH]; intros ast ctx st Hast Hst; [exact I |].
  destruct ast as [|[atom|pair0 pair1]]; [discriminate | |].
  - cbn [evalLisp].
    assert (sound strict (fun v => value_wf strict v = true)
              ((do v <- ctx_get ctx (value atom);
                if truthy v then ret v else lookup_builtin (value atom) ctx) st))
      as Hident.
    { unfold ebind, ctx_get. cbn [obind].
      destruct (truthy (store_get st ctx (value atom))).
      - apply sound_ret; [exact Hst | now apply store_wf_get].
      - unfold lookup_builtin.
        destruct (builtins_get (value atom)) as [b|w|] eqn:Hget; try exact I.
        + now apply sound_ret.
        + apply sound_ret; [exact Hst |].
          destruct strict.
          * unfold element_ok in Hast. cbn [is_element plain_or_null plain negb orb] in Hast.
            apply andb_true_iff in Hast as [_ Hplain]. apply negb_true_iff in Hplain.
            unfold inherited_name in Hplain. unfold builtins_get in Hget.
            destruct (object_prototype_get (value atom)); [discriminate Hplain |].
            repeat match type of Hget with
                   | (if ?c then _ else _) = _ => destruct c; try discriminate
                   end.
          * now destruct (builtins_get_inherited _ _ Hget) as [[f ->] | ->].
        + unfold throw. cbn [sound allowed]. now rewrite string_app_cons. }
    destruct (kind atom); try exact Hident.
    unfold ebind, lift, ret. destruct (to_number (value atom)) as [n|e| |] eqn:Hn;
      cbn [obind sound]; try easy.
    unfold to_number in Hn. destruct (value atom); [discriminate |].
    now destruct (all_digits _).
  - rewrite element_ok_form in Hast. destruct (form_ok_split _ _ _ Hast) as [Hpair0 Hpair1].
    rewrite evalLisp_pair. eapply sound_bind; [now apply IH |].
    intros fn st1 Hfn Hst1.
    destruct (negb (truthy fn)); [now apply sound_pretty_throw |].
    destruct (negb (is_function fn)) eqn:Hfun; [now apply sound_pretty_throw |].
    apply negb_false_iff in Hfun.
    destruct pair1 as [|[a|args0 args1]];
      [reflexivity | now rewrite tail_ok_atom in Hpair1 |].
    now apply sound_call.
Qed.

Lemma store_wf_empty (strict : bool) : store_wf strict [∅].
Proof.
  intros c m x v Hc Hx. apply list_lookup_singleton_Some in Hc as [_ <-].
  now rewrite lookup_empty in Hx.
Qed.

(** X24. Evaluation never fails on the shape of a parsed form. Run on an
    element of a form, in a store whose lambdas were cut out of forms,
    [evalLisp] returns a value and a store of that kind again and never
    throws "Expected linked list."; this is the statement with [strict]
    false. When moreover neither the form nor a lambda of the store names
    a property that the table of builtins inherits from [Object.prototype],
    and no stored value stems from one, it never throws a TypeError either:
    the statement with [strict] true. The proviso is needed: [(valueOf 1)]
    throws a TypeError. *)
Theorem evalLisp_shape_safe (strict : bool) (fuel : nat) (ast : SexpOrNull)
    (ctx : CtxRef) (st : Store) :
  element_ok strict ast = true → store_wf strict st →
  match evalLisp fuel ast ctx st with
  | Ok (v, st') => store_wf strict st' ∧ value_wf strict v = true
  | Throw e => e ≠ Error "Expected linked list." ∧ (strict = true → e ≠ TypeError)
  | _ => True
  end ∧
  (∀ args0 args1,
     truthy (store_get st ctx "valueOf") = false →
     evalLisp (S (S fuel)) (call_form "valueOf" (NotNull (SexpPair args0 args1))) ctx st
     = Throw TypeError).
Proof.
  intros Hast Hst. split.
  - pose proof (sound_evalLisp strict fuel ast ctx st Hast Hst) as H.
    destruct (evalLisp fuel ast ctx st) as [[v st']|e| |]; try exact I; [exact H |].
    cbn [sound] in H. split; [intros -> | intros -> ->]; discriminate.
  - intros args0 args1 Hfree.
    now rewrite (evalLisp_call_inherited _ "valueOf" IValueOf).
Qed.

Lemma evalLisp_shape_safe_witness :
  match evalLisp 2
          (call_form "lambda"
             (NotNull (SexpPair (NotNull (SexpAtom (mkToken "x" Identifier)))
                (NotNull (SexpPair (NotNull (SexpAtom (mkToken "x" Identifier))) Null)))))
          0 [∅] with
  | Ok (v, st') => store_wf true st' ∧ value_wf true v = true
  | Throw e => e ≠ Error "Expected linked list." ∧ (true = true → e ≠ TypeError)
  | _ => True
  end ∧
  (∀ args0 args1,
     truthy (store_get [∅] 0 "valueOf") = false →
     evalLisp 4 (call_form "valueOf" (NotNull (SexpPair args0 args1))) 0 [∅]
     = Throw TypeError).
Proof.
  apply (evalLisp_shape_safe true 2
           (call_form "lambda"
              (NotNull (SexpPair (NotNull (SexpAtom (mkToken "x" Identifier)))
                 (NotNull (SexpPair (NotNull (SexpAtom (mkToken "x" Identifier))) Null)))))
           0 [∅]); [reflexivity | apply store_wf_empty].
Defined.

(** ** Where the failures of [main] come from *)

Section MainFailures.

Local Open Scope list_scope.

Lemma lex_throws (program : string) (e : Exn) :
  lex program = Throw e → allowed false e = true.
Proof.
  destruct (find_unlexable program) as [j|] eqn:Hfind.
  - apply find_unlexable_some in Hfind as [(c & Hj & Hc) Hmin].
    unfold lex.
    rewrite (lex_from_first_unlexable _ program 0 j c) by (auto; lia).
    now intros [= <-].
  - destruct (lex_from_all_lexable (S (String.length program)) program 0 []) as [ts Hts];
      [| lia |].
    + intros k c. now apply find_unlexable_none.
    + unfold lex. now rewrite Hts.
Qed.

Lemma parse_throws (tokens : list Token) (cursor : nat) (e : Exn) :
  parse tokens cursor = Throw e → allowed false e = true.
Proof.
  destruct (tokens !! cursor) as [t0|] eqn:Ht0.
  - destruct (String.eqb (value t0) "(") eqn:Hopen.
    + apply String.eqb_eq in Hopen.
      destruct (proj1 (parse_fuel_errors (2 * length tokens + 2) tokens) cursor t0 Ht0 Hopen)
        as [[r H] | [H | H]]; unfold parse; rewrite H; try discriminate.
      now intros [= <-].
    + rewrite parse_eq, Ht0, Hopen. now intros [= <-].
  - rewrite parse_eq, Ht0. now intros [= <-].
Qed.

Lemma append_throws (first second : SexpOrNull) (e : Exn) :
  append first second = Throw e → allowed false e = true.
Proof.
  destruct (append_outcome first second) as [[r ->] | ->]; [discriminate |].
  now intros [= <-].
Qed.

Lemma main_loop_throws (fuel : nat) (tokens : list Token) :
  ∀ (cursor : nat) (b : Sexp) (e : Exn),
    main_loop fuel tokens cursor b = Throw e → allowed false e = true.
Proof.
  induction fuel as [|fuel IH]; intros cursor b e.
  - cbn [main_loop]. now destruct (Nat.eqb (S cursor) (length tokens)).
  - rewrite main_loop_S. destruct (Nat.eqb (S cursor) (length tokens)); [discriminate |].
    destruct (parse tokens (cursor + 1)) as [[cursor' child]|e'| |] eqn:Hparse;
      cbn [obind]; try discriminate.
    + destruct (append (NotNull b) child) as [b'|e'| |] eqn:Happ; cbn [obind];
        try discriminate.
      * apply IH.
      * intros [= <-]. exact (append_throws _ _ _ Happ).
    + intros [= <-]. exact (parse_throws _ _ _ Hparse).
Qed.

Lemma main_forms_throws (program : string) (e : Exn) :
  main_forms program = Throw e → allowed false e = true.
Proof.
  unfold main_forms.
  destruct (lex program) as [tokens|e'| |] eqn:Hlex; cbn [obind]; try discriminate.
  - change (append (NotNull begin_atom) Null) with (Ok (begin_form [])). cbn [obind].
    destruct (parse tokens 0) as [[cursor child]|e'| |] eqn:Hparse;
      cbn [obind]; try discriminate.
    + destruct (append (NotNull (begin_form [])) child) as [b'|e'| |] eqn:Happ;
        cbn [obind]; try discriminate.
      * apply main_loop_throws.
      * intros [= <-]. exact (append_throws _ _ _ Happ).
    + intros [= <-]. exact (parse_throws _ _ _ Hparse).
  - intros [= <-]. exact (lex_throws _ _ Hlex).
Qed.

Lemma plain_elements (s : Sexp) :
  Forall (fun t => inherited_name (value t) = false) (elements_tokens s) → plain s = true.
Proof.
  induction s as [a | p0 IH0 p1 IH1 | | s IH]
    using Sexp_mut
    with (P0 := fun o =>
                  (Forall (fun t => inherited_name (value t) = false) (element_tokens o) →
                   plain_or_null o = true) ∧
                  (Forall (fun t => inherited_name (value t) = false) (tail_tokens o) →
                   plain_or_null o = true)).
  - cbn [elements_tokens plain]. intros [Ha _]%Forall_cons. now rewrite Ha.
  - change (elements_tokens (SexpPair p0 p1)) with (element_tokens p0 ++ tail_tokens p1).
    intros [H0 H1]%Forall_app. cbn [plain].
    now rewrite (proj1 IH0 H0), (proj2 IH1 H1).
  - now split.
  - split; [| exact IH]. destruct s as [a | q0 q1]; [exact IH |].
    change (element_tokens (NotNull (SexpPair q0 q1)))
      with (open_paren :: elements_tokens (SexpPair q0 q1) ++ [close_paren]).
    intros [_ [H _]%Forall_app]%Forall_cons. now apply IH.
Qed.

Lemma begin_form_plain (fs : list Sexp) :
  Forall (fun t => inherited_name (value t) = false) (flat_map form_tokens fs) →
  plain (begin_form fs) = true.
Proof.
  intros Hall.
  assert (plain_or_null (of_list (map NotNull fs)) = true) as Htail.
  { induction fs as [|f fs IH]; [reflexivity |].
    cbn [flat_map] in Hall. apply Forall_app in Hall as [Hf Hfs].
    cbn [map of_list plain_or_null plain]. rewrite (IH Hfs), andb_true_r.
    apply plain_elements. unfold form_tokens in Hf.
    now apply Forall_cons in Hf as [_ [Hf _]%Forall_app]. }
  unfold begin_form. cbn [plain]. now rewrite Htail.
Qed.

Lemma main_evaluation_allowed (strict : bool) (fuel : nat) (program : string)
    (tokens : list Token) (b : Sexp) (e : Exn) :
  lex program = Ok tokens → main_forms program = Ok b →
  (strict = true → Forall (fun t => inherited_name (value t) = false) tokens) →
  main fuel program = Throw e → allowed strict e = true.
Proof.
  intros Hlex Hforms Hplain Hmain. unfold main in Hmain. rewrite Hforms in Hmain.
  cbn [obind] in Hmain.
  destruct (main_forms_inv _ _ _ Hlex Hforms) as (fs & _ & Hall & -> & ->).
  pose proof (sound_evalLisp strict fuel (NotNull (begin_form fs)) 0 [∅]) as H.
  destruct (evalLisp fuel (NotNull (begin_form fs)) 0 [∅]) as [[v st']|e'| |];
    cbn [obind] in Hmain; try discriminate.
  injection Hmain as ->. apply H; [| apply store_wf_empty].
  unfold element_ok. cbn [is_element plain_or_null].
  rewrite (begin_form_is_form _ Hall).
  destruct strict; [| reflexivity]. cbn [negb orb andb].
  now apply begin_form_plain, Hplain.
Qed.

(** X25. Where the failures of [main] come from. [main] never fails with
    "Expected linked list.": the checks that throw it in [evalLispArgs] and
    in ["begin"] cannot fail on what [parse] builds. And when no token of
    the program is the name of a property that the table of builtins
    inherits from [Object.prototype], a TypeError of [main] is always
    thrown while the program is read, by [parse] called past the last
    token, never by the evaluation. With such a name the evaluation can
    throw one: [(valueOf 1)] is read without error and then throws. *)
Theorem main_shape_errors (fuel : nat) (program : string) :
  main fuel program ≠ Throw (Error "Expected linked list.") ∧
  (∀ tokens,
     lex program = Ok tokens →
     Forall (fun t => inherited_name (value t) = false) tokens →
     main fuel program = Throw TypeError → main_forms program = Throw TypeError) ∧
  (∃ b, main_forms "(valueOf 1)" = Ok b) ∧ main 5 "(valueOf 1)" = Throw TypeError.
Proof.
  assert (∀ strict e,
            (strict = true →
             ∃ tokens, lex program = Ok tokens ∧
                       Forall (fun t => inherited_name (value t) = false) tokens) →
            main fuel program = Throw e → allowed strict e = false →
            main_forms program = Throw e) as Hread.
  { intros strict e Hplain Hmain Hallowed.
    destruct (main_forms program) as [b|e'| |] eqn:Hforms;
      try (unfold main in Hmain; rewrite Hforms in Hmain; cbn [obind] in Hmain;
           congruence).
    destruct (lex program) as [tokens| | |] eqn:Hlex;
      try (unfold main_forms in Hforms; rewrite Hlex in Hforms; discriminate).
    rewrite (main_evaluation_allowed strict fuel program tokens b e Hlex Hforms)
      in Hallowed; [discriminate | | exact Hmain].
    intros Hstrict. destruct (Hplain Hstrict) as (tokens' & [= <-] & Hall). exact Hall. }
  refine (conj _ (conj _ (conj _ _))).
  - intros Hmain. pose proof (Hread false _ ltac:(discriminate) Hmain eq_refl) as Hforms.
    now apply main_forms_throws in Hforms.
  - intros tokens Hlex Hall Hmain. apply (Hread true); [| exact Hmain | reflexivity].
    intros _. now exists tokens.
  - eexists. vm_compute. reflexivity.
  - vm_compute. reflexivity.
Qed.

End MainFailures.

(** ** The body of a lambda *)

(** X26. A call of a lambda whose parameters are a proper list of atoms,
    in the case where the new context, the caller's map once the arguments
    are evaluated with the parameters set in it, binds [begin] to no truthy
    value (the body is run as a [begin] form, whose head is looked up in
    that context). The body forms are then evaluated in order, as by
    [evalLispArgs], under the new context; the call returns the value of
    the last body form and fails as their evaluation fails. In the same
    case, a lambda with no body form fails when it is called. *)
Theorem lambda_call_body (fuel : nat) (params body0 body1 callArgs0 callArgs1 : SexpOrNull)
    (callCtx : CtxRef) (st st1 : Store) (vs : list Value) (names : list string)
    (m : Context) :
  evalLispArgs (evalLisp (S (S fuel))) (NotNull (SexpPair callArgs0 callArgs1)) callCtx st
  = Ok (vs, st1) →
  param_names params = Some names → st1 !! callCtx = Some m →
  truthy (default VUndefined (bind_names names 0 vs m !! "begin")) = false →
  let body := NotNull (SexpPair body0 body1) in
  let child := length st1 in
  let st2 := (st1 ++ [bind_names names 0 vs m])%list in
  (∀ bs st',
     evalLispArgs (evalLisp (S fuel)) body child st2 = Ok (bs, st') →
     ∃ v, last bs = Some v ∧
          call_lambda (evalLisp (S (S fuel))) params body callArgs0 callArgs1 callCtx st
          = Ok (v, st')) ∧
  (∀ e,
     evalLispArgs (evalLisp (S fuel)) body child st2 = Throw e →
     call_lambda (evalLisp (S (S fuel))) params body callArgs0 callArgs1 callCtx st
     = Throw e) ∧
  call_lambda (evalLisp (S (S fuel))) params Null callArgs0 callArgs1 callCtx st
  = Throw (Error "Not a linked list: null").
Proof.
  intros Hargs Hnames Hm Hbegin body child st2.
  assert (∀ b : SexpOrNull,
            call_lambda (evalLisp (S (S fuel))) params b callArgs0 callArgs1 callCtx st
            = evalLisp (S (S fuel)) (call_form "begin" b) child st2) as Hcall.
  { intros b. unfold call_lambda. unfold ebind at 1. rewrite Hargs. cbn [obind].
    unfold ebind at 1, ctx_copy. cbn [obind]. rewrite Hm. cbn [default].
    unfold ebind at 1. rewrite (bind_params_store _ _ _ _ _ _ Hnames). cbn [obind].
    unfold begin_atom, makeSexpAtom. cbn [append]. unfold ebind, lift, makeSexpPair.
    cbn [obind]. unfold call_form. do 2 f_equal.
    rewrite <- (Nat.add_0_r (length st1)) at 1. now rewrite alter_app_r. }
  assert (truthy (store_get st2 child "begin") = false) as Hfree.
  { unfold store_get, st2, child. rewrite list_lookup_middle by reflexivity.
    exact Hbegin. }
  rewrite !Hcall. refine (conj _ (conj _ _)).
  - intros bs st' Hbody. unfold body. rewrite (evalLisp_begin _ _ _ _ _ Hfree).
    unfold ebind. fold body. rewrite Hbody. cbn [obind].
    destruct (evalLispArgs_last _ _ _ _ _ _ _ Hbody) as (v & Hlast).
    exists v. now rewrite Hlast.
  - intros e Hbody. unfold body. rewrite (evalLisp_begin _ _ _ _ _ Hfree).
    unfold ebind. fold body. now rewrite Hbody.
  - now apply (evalLisp_call_no_arguments _ "begin" BBegin).
Qed.

Lemma lambda_call_body_witness :
  let body := NotNull (SexpPair (NotNull (SexpAtom (mkToken "x" Identifier))) Null) in
  let params := NotNull (SexpPair (NotNull (SexpAtom (mkToken "x" Identifier))) Null) in
  let st2 := ([∅] ++ [bind_names ["x"] 0 [VNumber (Finite 7)] ∅])%list in
  (∀ bs st',
     evalLispArgs (evalLisp 1) body 1 st2 = Ok (bs, st') →
     ∃ v, last bs = Some v ∧
          call_lambda (evalLisp 2) params body (NotNull (SexpAtom (mkToken "7" Integer)))
            Null 0 [∅]
          = Ok (v, st')) ∧
  (∀ e,
     evalLispArgs (evalLisp 1) body 1 st2 = Throw e →
     call_lambda (evalLisp 2) params body (NotNull (SexpAtom (mkToken "7" Integer)))
       Null 0 [∅]
     = Throw e) ∧
  call_lambda (evalLisp 2) params Null (NotNull (SexpAtom (mkToken "7" Integer))) Null 0 [∅]
  = Throw (Error "Not a linked list: null").
Proof.
  apply (lambda_call_body 0
           (NotNull (SexpPair (NotNull (SexpAtom (mkToken "x" Identifier))) Null))
           (NotNull (SexpAtom (mkToken "x" Identifier))) Null
           (NotNull (SexpAtom (mkToken "7" Integer))) Null 0 [∅] [∅]
           [VNumber (Finite 7)] ["x"] ∅).
  - vm_compute. reflexivity.
  - reflexivity.
  - reflexivity.
  - vm_compute. reflexivity.
Defined.
